(** * Sprotty client: the model update command and the VNode utilities

    A shallow embedding of [client/src/features/update/update-model.ts]
    (class [UpdateModelCommand]), of the VNode utilities ([on], [setAttr],
    [setClass] and the two class copiers) and of the set-model command.
    Model elements are mutable JavaScript objects: they live in a
    store indexed by object references, and every method of the command is a
    function over that store.  A result of [None] stands for a run-time
    failure (an exception, or a read through a reference that the store does
    not hold).

    The file has four parts: the model of the code, the vocabulary of the
    statements, an example diagram, and the properties with their instances
    at the example. *)

From stdpp Require Import gmap strings list fin_maps.
From Stdlib Require Import Ascii PrimFloat.

Set Warnings "-register-all".

(** Object references. *)
Abbreviation ref := positive.

(** ** Plain objects used as maps

    [data.attrs], [data.class], [data.on] and the match result are plain
    objects, created by [{}] or by an object literal: their prototype is
    [Object.prototype].  A finite map (or, where the order of creation
    matters, a list) holds the own properties of such an object. *)

(** The properties of [Object.prototype].  A read [o[name]] that finds no
    own property finds these; all of them are truthy ([__proto__] reads as
    the prototype itself, the others are functions). *)
Definition objectPrototypeNames : list string :=
  ["constructor"; "__defineGetter__"; "__defineSetter__"; "hasOwnProperty";
   "__lookupGetter__"; "__lookupSetter__"; "isPrototypeOf";
   "propertyIsEnumerable"; "toString"; "valueOf"; "__proto__"; "toLocaleString"].

Definition inheritedName (name : string) : bool :=
  bool_decide (name ∈ objectPrototypeNames).

(** [o[name] = value] for a value that is not an object (a string, a
    boolean).  An own property is overwritten.  Without one the assignment
    creates the property, except for the name [__proto__]: that assignment
    reaches the setter of [Object.prototype], which ignores a value that is
    not an object. *)
Definition assignProperty {V} (name : string) (value : V) (o : gmap string V)
    : gmap string V :=
  match o !! name with
  | Some _ => <[name := value]> o
  | None => if decide (name = "__proto__") then o else <[name := value]> o
  end.

(** ** Geometry

    JavaScript numbers, and the helpers of [utils/geometry] that the command
    imports.  Their source lies outside the verified files, so the
    development is parametric in the number type and in the two helpers. *)
Section Geometry.
Context {num : Type}.

Record Point := { x : num; y : num }.
Record Dimension := { width : num; height : num }.
Record Bounds := {
  bounds_x : num; bounds_y : num;
  bounds_width : num; bounds_height : num }.

(** A [Bounds] object read through the [Dimension] interface. *)
Definition asDimension (b : Bounds) : Dimension :=
  {| width := bounds_width b; height := bounds_height b |}.

End Geometry.
Arguments Point : clear implicits.
Arguments Dimension : clear implicits.
Arguments Bounds : clear implicits.

Class Geometry (num : Type) := {
  zero : num;
  almostEquals : num → num → bool;
  isValidDimension : Dimension num → bool }.

(** ** Matches *)

(** The [Match] interface of [model-matching]: in a directive of an action
    the two sides are schemas, in a match result they are live elements. *)
Record Match (A : Type) := {
  left : option A;
  right : option A;
  leftParentId : option string;
  rightParentId : option string }.
Arguments left {A} _.
Arguments right {A} _.
Arguments leftParentId {A} _.
Arguments rightParentId {A} _.

Section Model.
Context `{Geometry num}.

(** ** Model elements *)

(** The classes of [base/model/smodel] and [viewport-root] that the command
    tests with [instanceof]. *)
Inductive ElementClass :=
  | SModelElementClass
  | SParentElementClass
  | SChildElementClass
  | SModelRootClass
  | ViewportRootElementClass.

Definition instanceofSParentElement (c : ElementClass) : bool :=
  match c with SModelElementClass => false | _ => true end.
Definition instanceofSChildElement (c : ElementClass) : bool :=
  match c with SChildElementClass => true | _ => false end.
Definition instanceofSModelRoot (c : ElementClass) : bool :=
  match c with SModelRootClass | ViewportRootElementClass => true | _ => false end.
Definition instanceofViewportRootElement (c : ElementClass) : bool :=
  match c with ViewportRootElementClass => true | _ => false end.

(** The capability-specific properties of an element; an absent property is
    [None] ([undefined]). *)
Record Props := {
  p_position : option (Point num);
  p_bounds : option (Bounds num);
  p_selected : option bool;
  p_opacity : option num;
  p_canvasBounds : option (Bounds num);
  p_scroll : option (Point num);
  p_zoom : option num }.

(** A live element.  [index] is the identifier index a root owns. *)
Record SModelElement := {
  cls : ElementClass;
  type : string;
  id : string;
  parent : option ref;
  children : list ref;
  index : gmap string ref;
  props : Props }.

(** Property reads. *)
Definition position (e : SModelElement) := p_position (props e).
Definition bounds (e : SModelElement) := p_bounds (props e).
Definition selected (e : SModelElement) := p_selected (props e).
Definition opacity (e : SModelElement) := p_opacity (props e).
Definition canvasBounds (e : SModelElement) := p_canvasBounds (props e).
Definition scroll (e : SModelElement) := p_scroll (props e).
Definition zoom (e : SModelElement) := p_zoom (props e).

(** Property writes. *)
Definition with_props (f : Props → Props) (e : SModelElement) : SModelElement :=
  {| cls := cls e; type := type e; id := id e; parent := parent e;
     children := children e; index := index e; props := f (props e) |}.

Definition set_position (v : option (Point num)) : SModelElement → SModelElement :=
  with_props (λ p,
    {| p_position := v; p_bounds := p_bounds p; p_selected := p_selected p;
       p_opacity := p_opacity p; p_canvasBounds := p_canvasBounds p;
       p_scroll := p_scroll p; p_zoom := p_zoom p |}).
Definition set_bounds (v : option (Bounds num)) : SModelElement → SModelElement :=
  with_props (λ p,
    {| p_position := p_position p; p_bounds := v; p_selected := p_selected p;
       p_opacity := p_opacity p; p_canvasBounds := p_canvasBounds p;
       p_scroll := p_scroll p; p_zoom := p_zoom p |}).
Definition set_selected (v : option bool) : SModelElement → SModelElement :=
  with_props (λ p,
    {| p_position := p_position p; p_bounds := p_bounds p; p_selected := v;
       p_opacity := p_opacity p; p_canvasBounds := p_canvasBounds p;
       p_scroll := p_scroll p; p_zoom := p_zoom p |}).
Definition set_opacity (v : option num) : SModelElement → SModelElement :=
  with_props (λ p,
    {| p_position := p_position p; p_bounds := p_bounds p; p_selected := p_selected p;
       p_opacity := v; p_canvasBounds := p_canvasBounds p;
       p_scroll := p_scroll p; p_zoom := p_zoom p |}).
Definition set_canvasBounds (v : option (Bounds num)) : SModelElement → SModelElement :=
  with_props (λ p,
    {| p_position := p_position p; p_bounds := p_bounds p; p_selected := p_selected p;
       p_opacity := p_opacity p; p_canvasBounds := v;
       p_scroll := p_scroll p; p_zoom := p_zoom p |}).
Definition set_scroll (v : option (Point num)) : SModelElement → SModelElement :=
  with_props (λ p,
    {| p_position := p_position p; p_bounds := p_bounds p; p_selected := p_selected p;
       p_opacity := p_opacity p; p_canvasBounds := p_canvasBounds p;
       p_scroll := v; p_zoom := p_zoom p |}).
Definition set_zoom (v : option num) : SModelElement → SModelElement :=
  with_props (λ p,
    {| p_position := p_position p; p_bounds := p_bounds p; p_selected := p_selected p;
       p_opacity := p_opacity p; p_canvasBounds := p_canvasBounds p;
       p_scroll := p_scroll p; p_zoom := v |}).

Definition set_parent (v : option ref) (e : SModelElement) : SModelElement :=
  {| cls := cls e; type := type e; id := id e; parent := v;
     children := children e; index := index e; props := props e |}.
Definition set_children (v : list ref) (e : SModelElement) : SModelElement :=
  {| cls := cls e; type := type e; id := id e; parent := parent e;
     children := v; index := index e; props := props e |}.
Definition set_index (v : gmap string ref) (e : SModelElement) : SModelElement :=
  {| cls := cls e; type := type e; id := id e; parent := parent e;
     children := children e; index := v; props := props e |}.

(** Modelled from the spec: the capability checks [isLocateable],
    [isBoundsAware], [isSelectable] and [isFadeable] of the feature models
    (an element is Locateable when it has a position, Bounds-aware when it
    has bounds, Selectable when it has a selection flag, Fadeable when it has
    an opacity). *)
Definition isLocateable (e : SModelElement) : bool := bool_decide (is_Some (position e)).
Definition isBoundsAware (e : SModelElement) : bool := bool_decide (is_Some (bounds e)).
Definition isSelectable (e : SModelElement) : bool := bool_decide (is_Some (selected e)).
Definition isFadeable (e : SModelElement) : bool := bool_decide (is_Some (opacity e)).

(** The store of live objects. *)
Abbreviation Store := (gmap ref SModelElement).

(** ** Animation data ([UpdateAnimationData]) *)

(** ['in'] and ['out'] *)
Inductive FadeType := FadeIn | FadeOut.

Record ResolvedElementFade := {
  fade_element : ref;
  fade_type : FadeType }.

Record ResolvedElementMove := {
  move_element : ref;
  elementId : string;
  fromPosition : Point num;
  toPosition : Point num }.

Record ResolvedElementResize := {
  resize_element : ref;
  fromDimension : Dimension num;
  toDimension : Dimension num }.

(** [moves] and [resizes] are optional properties: [None] is [undefined]. *)
Record UpdateAnimationData := {
  fades : list ResolvedElementFade;
  moves : option (list ResolvedElementMove);
  resizes : option (list ResolvedElementResize) }.

(** [animationData.fades.push(f)] *)
Definition push_fade (f : ResolvedElementFade) (d : UpdateAnimationData) :=
  {| fades := fades d ++ [f]; moves := moves d; resizes := resizes d |}.

(** [if (animationData.moves === undefined) animationData.moves = []]
    followed by [animationData.moves.push(m)] *)
Definition push_move (m : ResolvedElementMove) (d : UpdateAnimationData) :=
  {| fades := fades d; moves := Some (default [] (moves d) ++ [m]);
     resizes := resizes d |}.

(** The same for [animationData.resizes]. *)
Definition push_resize (r : ResolvedElementResize) (d : UpdateAnimationData) :=
  {| fades := fades d; moves := moves d;
     resizes := Some (default [] (resizes d) ++ [r]) |}.

(** ** [updateElement]

    The method is a sequence of five guarded blocks.  Each block reads the
    two objects from the store as it stands when the block starts, so that a
    write of an earlier block is seen by a later one (also when [left] and
    [right] are the same object). *)

(** [if (isLocateable(left) && isLocateable(right)) ...] *)
Definition updatePosition (left right : ref) (st : Store) (data : UpdateAnimationData)
    : option (Store * UpdateAnimationData) :=
  l ← st !! left; r ← st !! right;
  if isLocateable l && isLocateable r then
    leftPos ← position l; rightPos ← position r;
    if negb (almostEquals (x leftPos) (x rightPos))
       || negb (almostEquals (y leftPos) (y rightPos))
    then Some (alter (set_position (Some leftPos)) right st,
               push_move {| move_element := right; elementId := id r;
                            fromPosition := leftPos; toPosition := rightPos |} data)
    else Some (st, data)
  else Some (st, data).

(** [if (isBoundsAware(left) && isBoundsAware(right)) ...] *)
Definition updateBounds (left right : ref) (st : Store) (data : UpdateAnimationData)
    : option (Store * UpdateAnimationData) :=
  l ← st !! left; r ← st !! right;
  if isBoundsAware l && isBoundsAware r then
    lb ← bounds l; rb ← bounds r;
    if negb (isValidDimension (asDimension rb))
    then Some (alter (set_bounds (Some
                 {| bounds_x := bounds_x rb; bounds_y := bounds_y rb;
                    bounds_width := bounds_width lb;
                    bounds_height := bounds_height lb |})) right st, data)
    else if negb (almostEquals (bounds_width lb) (bounds_width rb))
            || negb (almostEquals (bounds_height lb) (bounds_height rb))
    then Some (st,
               push_resize {| resize_element := right;
                              fromDimension := {| width := bounds_width lb;
                                                  height := bounds_height lb |};
                              toDimension := {| width := bounds_width rb;
                                                height := bounds_height rb |} |} data)
    else Some (st, data)
  else Some (st, data).

(** [if (isSelectable(left) && isSelectable(right)) right.selected = left.selected] *)
Definition updateSelected (left right : ref) (st : Store) : option Store :=
  l ← st !! left; r ← st !! right;
  if isSelectable l && isSelectable r
  then Some (alter (set_selected (selected l)) right st)
  else Some st.

(** [if (left instanceof SModelRoot && right instanceof SModelRoot) ...] *)
Definition updateCanvasBounds (left right : ref) (st : Store) : option Store :=
  l ← st !! left; r ← st !! right;
  if instanceofSModelRoot (cls l) && instanceofSModelRoot (cls r)
  then Some (alter (set_canvasBounds (canvasBounds l)) right st)
  else Some st.

(** [if (left instanceof ViewportRootElement && right instanceof ViewportRootElement) ...] *)
Definition updateViewport (left right : ref) (st : Store) : option Store :=
  l ← st !! left; r ← st !! right;
  if instanceofViewportRootElement (cls l) && instanceofViewportRootElement (cls r)
  then Some (alter (set_zoom (zoom l)) right
               (alter (set_scroll (scroll l)) right st))
  else Some st.

(** The five blocks in sequence. *)
Definition updateElement (left right : ref) (st : Store) (data : UpdateAnimationData)
    : option (Store * UpdateAnimationData) :=
  '(st1, data1) ← updatePosition left right st data;
  '(st2, data2) ← updateBounds left right st1 data1;
  st3 ← updateSelected left right st2;
  st4 ← updateCanvasBounds left right st3;
  st5 ← updateViewport left right st4;
  Some (st5, data2).

(** ** Schemas, the model factory and the identifier index

    The sources of [SModelFactory], [SModelIndex] and of the classes of
    [smodel.ts] lie outside the verified files. *)

(** A schema: plain descriptive data, a tree of type tag, identifier,
    capability-specific properties and children. *)
Inductive SModelElementSchema :=
  Schema (schema_type : string) (schema_id : string) (schema_props : Props)
         (schema_children : list SModelElementSchema).

Definition schema_id (s : SModelElementSchema) : string :=
  match s with Schema _ i _ _ => i end.
Definition schema_props (s : SModelElementSchema) : Props :=
  match s with Schema _ _ p _ => p end.
Definition schema_children (s : SModelElementSchema) : list SModelElementSchema :=
  match s with Schema _ _ _ k => k end.

(** A live element handed to the factory is read as a schema: its own
    properties and, through its [children] array, those of its descendants.
    [fuel] bounds the depth of the walk; a tree held by a store of [n]
    objects is read whole with fuel [n]. *)
Fixpoint asSchema (fuel : nat) (st : Store) (e : SModelElement) : SModelElementSchema :=
  Schema (type e) (id e) (props e)
    (match fuel with
     | 0 => []
     | S f => omap (λ c, asSchema f st <$> st !! c) (children e)
     end).

(** A new object of class [c] with the own properties of a schema, not yet
    part of a tree. *)
Definition newElement (c : ElementClass) (s : SModelElementSchema) : SModelElement :=
  match s with
  | Schema ty i p _ =>
      {| cls := c; type := ty; id := i; parent := None; children := [];
         index := ∅; props := p |}
  end.

(** Modelled from the spec: [modelFactory.createElement(schema)], which
    materializes schema data into the live tree representation.  Every node
    of the schema becomes a fresh child element that carries the schema's
    properties; the elements made from the schema's children become its
    children. *)
Fixpoint createElement (s : SModelElementSchema) (st : Store) : Store * ref :=
  let r := fresh (dom st) in
  let st1 := <[r := newElement SChildElementClass s]> st in
  let '(st2, kids) :=
    (fix createChildren (l : list SModelElementSchema) (st : Store) : Store * list ref :=
       match l with
       | [] => (st, [])
       | k :: l' =>
           let '(st', c) := createElement k st in
           let '(st'', cs) := createChildren l' (alter (set_parent (Some r)) c st') in
           (st'', c :: cs)
       end) (schema_children s) st1 in
  (alter (set_children kids) r st2, r).

(** The inner loop of [createElement] on its own: the elements made from the
    schemas [l], each with [r] as its parent. *)
Fixpoint createChildren (r : ref) (l : list SModelElementSchema) (st : Store)
    : Store * list ref :=
  match l with
  | [] => (st, [])
  | k :: l' =>
      let '(st', c) := createElement k st in
      let '(st'', cs) := createChildren r l' (alter (set_parent (Some r)) c st') in
      (st'', c :: cs)
  end.

(** The objects reachable from [r] through [children], in preorder. *)
Fixpoint subtree (fuel : nat) (st : Store) (r : ref) : list ref :=
  match fuel with
  | 0 => []
  | S f =>
      r :: match st !! r with
           | Some e => flat_map (subtree f st) (children e)
           | None => []
           end
  end.

(** The subtree of [r]; a tree in a store of [n] objects is no deeper than
    [n]. *)
Definition descendants (st : Store) (r : ref) : list ref :=
  subtree (S (size st)) st r.

(** Modelled from the spec: the index maps identifiers to elements;
    [index.add(element)] and [index.remove(element)] enter and drop the
    element and its descendants. *)
Definition indexAdd (st : Store) (rs : list ref) (idx : gmap string ref) : gmap string ref :=
  foldl (λ m r, match st !! r with Some e => <[id e := r]> m | None => m end) idx rs.

Definition indexRemove (st : Store) (rs : list ref) (idx : gmap string ref) : gmap string ref :=
  foldl (λ m r, match st !! r with Some e => delete (id e) m | None => m end) idx rs.

(** Modelled from the spec: [modelFactory.createRoot(schema)].  The root is a
    viewport root when the schema carries scroll and zoom; it indexes itself
    and its descendants. *)
Definition createRoot (s : SModelElementSchema) (st : Store) : Store * ref :=
  let r := fresh (dom st) in
  let c := if bool_decide (is_Some (p_scroll (schema_props s)))
              && bool_decide (is_Some (p_zoom (schema_props s)))
           then ViewportRootElementClass else SModelRootClass in
  let st1 := <[r := newElement c s]> st in
  let '(st2, kids) := createChildren r (schema_children s) st1 in
  let st3 := alter (set_children kids) r st2 in
  (alter (set_index (indexAdd st3 (descendants st3 r) ∅)) r st3, r).

(** Modelled from the spec: [parent.add(child)] appends the child to the
    parent's children, records the parent in the child and enters the child
    in the index of the tree.  [root] is the root that owns that index; at
    every call of the command the parent was looked up in [root.index] or is
    [root] itself. *)
Definition SParentElement_add (root parent child : ref) (st : Store) : Store :=
  let st1 := alter (λ e, set_children (children e ++ [child]) e) parent st in
  let st2 := alter (set_parent (Some parent)) child st1 in
  alter (λ e, set_index (indexAdd st2 (descendants st2 child) (index e)) e) root st2.

(** The list without the first occurrence of [c]. *)
Fixpoint remove_first (c : ref) (l : list ref) : list ref :=
  match l with
  | [] => []
  | c' :: l' => if decide (c' = c) then l' else c' :: remove_first c l'
  end.

(** Modelled from the spec: [parent.remove(child)] detaches the child from
    its parent and drops it from the index. *)
Definition SParentElement_remove (root parent child : ref) (st : Store) : Store :=
  let st1 := alter (λ e, set_children (remove_first child (children e)) e) parent st in
  let st2 := alter (set_parent None) child st1 in
  alter (λ e, set_index (indexRemove st2 (descendants st2 child) (index e)) e) root st2.

(** A [MatchResult] is an object keyed by identifier.  The list holds its
    own properties in the order of their creation. *)
Abbreviation MatchResult := (list (string * Match ref)).

(** The keys that are array indices: the canonical decimal numerals of the
    integers from 0 to 2^32 - 2. *)
Definition digitValue (a : ascii) : option N :=
  let n := N_of_ascii a in
  if ((48 <=? n) && (n <=? 57))%N then Some (n - 48)%N else None.

Fixpoint digitsValue (s : string) (acc : N) : option N :=
  match s with
  | EmptyString => Some acc
  | String a s' => d ← digitValue a; digitsValue s' (10 * acc + d)%N
  end.

Definition arrayIndex (s : string) : option N :=
  match s with
  | EmptyString => None
  | String a s' =>
      d ← digitValue a;
      if (d =? 0)%N
      then (match s' with EmptyString => Some 0%N | _ => None end)
      else n ← digitsValue s 0%N;
           if (n <=? 4294967294)%N then Some n else None
  end.

Fixpoint insertIndexed (k : N) (e : string * Match ref)
    (l : list (N * (string * Match ref))) : list (N * (string * Match ref)) :=
  match l with
  | [] => [(k, e)]
  | (k', e') :: l' =>
      if (k <? k')%N then (k, e) :: l else (k', e') :: insertIndexed k e l'
  end.

Fixpoint indexedEntries (result : MatchResult) : list (N * (string * Match ref)) :=
  match result with
  | [] => []
  | e :: rest =>
      match arrayIndex e.1 with
      | Some k => insertIndexed k e (indexedEntries rest)
      | None => indexedEntries rest
      end
  end.

Fixpoint namedEntries (result : MatchResult) : MatchResult :=
  match result with
  | [] => []
  | e :: rest =>
      match arrayIndex e.1 with
      | Some _ => namedEntries rest
      | None => e :: namedEntries rest
      end
  end.

(** The order in which [for (const id in matchResult)] visits the
    properties: the array indices in ascending numeric order, then the other
    keys in the order of their creation. *)
Definition forIn (result : MatchResult) : MatchResult :=
  (indexedEntries result).*2 ++ namedEntries result.

(** The own property [i] of the object is set to [m]: it is overwritten in
    place, or created after the properties there are. *)
Fixpoint assignOwn (i : string) (m : Match ref) (result : MatchResult) : MatchResult :=
  match result with
  | [] => [(i, m)]
  | (j, n) :: rest =>
      if decide (j = i) then (j, m) :: rest else (j, n) :: assignOwn i m rest
  end.

(** [result[id] = converted].  The value is an object, so that, when the
    result has no own property [__proto__], an assignment to that name
    replaces the prototype of the result and creates no property; the list
    of own properties is then as before.  The list does not record the new
    prototype, nor what a later [for ... in] finds through it. *)
Definition assign (i : string) (m : Match ref) (result : MatchResult) : MatchResult :=
  if decide (i = "__proto__" ∧ i ∉ result.*1) then result else assignOwn i m result.

(** The identifier of the parent of [r], if it has one. *)
Definition parentId (st : Store) (r : ref) : option string :=
  e ← st !! r; p ← parent e; pe ← st !! p; Some (id pe).

(** Modelled from the spec: [ModelMatcher.match] pairs the elements of the
    two trees by identifier equality; an unmatched old element is a removal,
    an unmatched new element an addition, and each side is tagged with the
    identifier of its parent. *)
Definition ModelMatcher_match (st : Store) (oldRoot newRoot : ref) : option MatchResult :=
  o ← st !! oldRoot; n ← st !! newRoot;
  Some (map_to_list
    (merge (λ l r, Some {| left := l; right := r;
                           leftParentId := l ≫= parentId st;
                           rightParentId := r ≫= parentId st |})
           (index o) (index n))).

(** ** Animations and command results *)

(** Of the execution context the command reads the current root, and it
    hands the context on to the animations. *)
Record CommandExecutionContext := { root : ref }.

(** The animation objects the command constructs; each constructor keeps the
    arguments of the corresponding [new ...Animation(...)]. *)
Inductive Animation :=
  | FadeAnimation (model : ref) (elementFades : list ResolvedElementFade)
      (context : CommandExecutionContext) (flag : bool)
  | MoveAnimation (model : ref) (elementMoves : gmap string ResolvedElementMove)
      (context : CommandExecutionContext) (flag : bool)
  | ResizeAnimation (model : ref) (elementResizes : gmap string ResolvedElementResize)
      (context : CommandExecutionContext) (flag : bool)
  | CompoundAnimation (model : ref) (context : CommandExecutionContext)
      (components : list Animation).

(** A [CommandResult] is a root, or the promise that [animation.start()]
    returns. *)
Inductive CommandResult :=
  | ResultRoot (r : ref)
  | ResultStarted (a : Animation).

(** ** The action and the command *)

(** [newRoot], [matches] and [animate] are optional properties. *)
Record UpdateModelAction := {
  action_newRoot : option SModelElementSchema;
  matches : option (list (Match SModelElementSchema));
  animate : option bool }.

(** The command: its action and the two roots that [execute] records. *)
Record UpdateModelCommand := {
  action : UpdateModelAction;
  oldRoot : option ref;
  newRoot : option ref }.

(** The constructor: [if (action.animate === undefined) action.animate = true]. *)
Definition UpdateModelCommand_new (a : UpdateModelAction) : UpdateModelCommand :=
  {| action :=
       match animate a with
       | None => {| action_newRoot := action_newRoot a; matches := matches a;
                    animate := Some true |}
       | Some _ => a
       end;
     oldRoot := None; newRoot := None |}.

(** ** [applyMatches] *)

(** The body of the loop, for one directive: first the old side ... *)
Definition applyMatchLeft (rootRef : ref) (m : Match SModelElementSchema) (st : Store)
    : option Store :=
  match left m with
  | Some l =>
      r ← st !! rootRef;
      match index r !! schema_id l with
      | Some element =>
          e ← st !! element;
          if instanceofSChildElement (cls e)
          then p ← parent e; Some (SParentElement_remove rootRef p element st)
          else Some st
      | None => Some st
      end
  | None => Some st
  end.

(** ... then the new side. *)
Definition applyMatchRight (rootRef : ref) (m : Match SModelElementSchema) (st : Store)
    : option Store :=
  match right m with
  | Some rs =>
      let '(st2, element) := createElement rs st in
      r ← st2 !! rootRef;
      match rightParentId m ≫= (λ pid, index r !! pid) with
      | Some p =>
          pe ← st2 !! p;
          if instanceofSParentElement (cls pe)
          then Some (SParentElement_add rootRef p element st2)
          else Some (SParentElement_add rootRef rootRef element st2)
      | None => Some (SParentElement_add rootRef rootRef element st2)
      end
  | None => Some st
  end.

(** One turn of the loop of [applyMatches], and the loop. *)
Definition applyMatch (rootRef : ref) (m : Match SModelElementSchema) (st : Store)
    : option Store :=
  st1 ← applyMatchLeft rootRef m st; applyMatchRight rootRef m st1.

Fixpoint applyMatches (rootRef : ref) (ms : list (Match SModelElementSchema)) (st : Store)
    : option Store :=
  match ms with
  | [] => Some st
  | m :: ms' => st' ← applyMatch rootRef m st; applyMatches rootRef ms' st'
  end.

(** ** [convertToMatchResult] *)

(** The body of the loop: the converted match and the key it is stored
    under, if any. *)
Definition convertMatch (st : Store) (leftRoot rightRoot : ref)
    (m : Match SModelElementSchema) : option (option string * Match ref) :=
  '(id1, c1) ← match left m with
               | Some l =>
                   lr ← st !! leftRoot;
                   Some (Some (schema_id l),
                         {| left := index lr !! schema_id l; right := None;
                            leftParentId := leftParentId m; rightParentId := None |})
               | None =>
                   Some (None, {| left := None; right := None;
                                  leftParentId := None; rightParentId := None |})
               end;
  match right m with
  | Some r =>
      rr ← st !! rightRoot;
      Some (Some (schema_id r),
            {| left := left c1; right := index rr !! schema_id r;
               leftParentId := leftParentId c1; rightParentId := rightParentId m |})
  | None => Some (id1, c1)
  end.

(** The loop, from the result built so far; a directive without sides adds
    no key ([if (id !== undefined) result[id] = converted]). *)
Fixpoint convertLoop (st : Store) (leftRoot rightRoot : ref)
    (ms : list (Match SModelElementSchema)) (result : MatchResult) : option MatchResult :=
  match ms with
  | [] => Some result
  | m :: ms' =>
      '(k, converted) ← convertMatch st leftRoot rightRoot m;
      convertLoop st leftRoot rightRoot ms'
        (match k with Some i => assign i converted result | None => result end)
  end.

Definition convertToMatchResult (ms : list (Match SModelElementSchema))
    (leftRoot rightRoot : ref) (st : Store) : option MatchResult :=
  convertLoop st leftRoot rightRoot ms [].

(** ** [computeAnimation] and [createAnimations] *)

(** The body of the loop over the match result, for one match. *)
Definition computeStep (newRootRef : ref) (m : Match ref)
    (st : Store) (data : UpdateAnimationData) : option (Store * UpdateAnimationData) :=
  match left m, right m with
  | Some l, Some r => updateElement l r st data
  | _, Some r =>
      re ← st !! r;
      if isFadeable re
      then Some (alter (set_opacity (Some zero)) r st,
                 push_fade {| fade_element := r; fade_type := FadeIn |} data)
      else Some (st, data)
  | Some l, None =>
      le ← st !! l;
      if instanceofSChildElement (cls le) then
        match isFadeable le, leftParentId m with
        | true, Some pid =>
            nr ← st !! newRootRef;
            match index nr !! id le with
            | None =>
                match index nr !! pid with
                | Some p =>
                    pe ← st !! p;
                    if instanceofSParentElement (cls pe) then
                      let '(st1, leftCopy) := createElement (asSchema (size st) st le) st in
                      Some (SParentElement_add newRootRef p leftCopy st1,
                            push_fade {| fade_element := leftCopy;
                                         fade_type := FadeOut |} data)
                    else Some (st, data)
                | None => Some (st, data)
                end
            | Some _ => Some (st, data)
            end
        | _, _ => Some (st, data)
        end
      else Some (st, data)
  | None, None => Some (st, data)
  end.

(** The loop, over the properties in the order in which they are visited. *)
Fixpoint computeLoop (newRootRef : ref) (entries : MatchResult)
    (st : Store) (data : UpdateAnimationData) : option (Store * UpdateAnimationData) :=
  match entries with
  | [] => Some (st, data)
  | (_, m) :: rest =>
      '(st', data') ← computeStep newRootRef m st data;
      computeLoop newRootRef rest st' data'
  end.

(** [movesMap.set(move.elementId, move)] for each move *)
Definition movesMap (l : list ResolvedElementMove) : gmap string ResolvedElementMove :=
  foldl (λ m mv, <[elementId mv := mv]> m) ∅ l.

(** [resizesMap.set(resize.element.id, resize)] for each resize; the
    identifier is read from the element. *)
Fixpoint resizesMap (st : Store) (l : list ResolvedElementResize)
    (m : gmap string ResolvedElementResize) : option (gmap string ResolvedElementResize) :=
  match l with
  | [] => Some m
  | rz :: l' => e ← st !! resize_element rz; resizesMap st l' (<[id e := rz]> m)
  end.

(** [l !== undefined && l.length > 0] *)
Definition nonEmpty {A} (o : option (list A)) : bool :=
  match o with Some (_ :: _) => true | _ => false end.

(** [createAnimations]: one animation per non-empty job sequence, fades
    first, then moves, then resizes. *)
Definition createAnimations (data : UpdateAnimationData) (rootRef : ref)
    (context : CommandExecutionContext) (st : Store) : option (list Animation) :=
  let a1 := if nonEmpty (Some (fades data))
            then [FadeAnimation rootRef (fades data) context true] else [] in
  let a2 := if nonEmpty (moves data)
            then [MoveAnimation rootRef (movesMap (default [] (moves data))) context false]
            else [] in
  a3 ← (if nonEmpty (resizes data)
        then rm ← resizesMap st (default [] (resizes data)) ∅;
             Some [ResizeAnimation rootRef rm context false]
        else Some []);
  Some (a1 ++ a2 ++ a3).

(** [{ fades: [] }] *)
Definition emptyAnimationData : UpdateAnimationData :=
  {| fades := []; moves := None; resizes := None |}.

(** [computeAnimation]: the loop over the match result, then the choice
    between a compound animation, a single animation and the new root. *)
Definition computeAnimation (newRootRef : ref) (matchResult : MatchResult)
    (context : CommandExecutionContext) (st : Store)
    : option (Store * (ref + Animation)) :=
  '(st', animationData) ←
    computeLoop newRootRef (forIn matchResult) st emptyAnimationData;
  animations ← createAnimations animationData newRootRef context st';
  match animations with
  | _ :: _ :: _ => Some (st', inr (CompoundAnimation newRootRef context animations))
  | [a] => Some (st', inr a)
  | [] => Some (st', inl newRootRef)
  end.

(** ** [performUpdate], [execute], [undo] and [redo] *)

(** [this.action.animate && oldRoot.id === newRoot.id] selects the animated
    pass; otherwise only the canvas bounds are copied. *)
Definition performUpdate (a : UpdateModelAction) (oldRootRef newRootRef : ref)
    (context : CommandExecutionContext) (st : Store) : option (Store * CommandResult) :=
  o ← st !! oldRootRef; n ← st !! newRootRef;
  if bool_decide (animate a = Some true) && bool_decide (id o = id n) then
    matchResult ← match matches a with
                  | None => ModelMatcher_match st oldRootRef newRootRef
                  | Some ms => convertToMatchResult ms oldRootRef newRootRef st
                  end;
    '(st', animationOrRoot) ← computeAnimation newRootRef matchResult context st;
    match animationOrRoot with
    | inr animation => Some (st', ResultStarted animation)
    | inl r => Some (st', ResultRoot r)
    end
  else
    Some (alter (set_canvasBounds (canvasBounds o)) newRootRef st, ResultRoot newRootRef).

(** [execute] builds the new root from the schema of the action or, without
    one, from the current root with the directives applied, records the two
    roots in the command and runs the pass. *)
Definition execute (c : UpdateModelCommand) (context : CommandExecutionContext) (st : Store)
    : option (Store * UpdateModelCommand * CommandResult) :=
  '(st1, n) ← match action_newRoot (action c) with
              | Some s => Some (createRoot s st)
              | None =>
                  cr ← st !! root context;
                  let '(st0, n) := createRoot (asSchema (size st) st cr) st in
                  match matches (action c) with
                  | Some ms => st' ← applyMatches n ms st0; Some (st', n)
                  | None => Some (st0, n)
                  end
              end;
  '(st2, res) ← performUpdate (action c) (root context) n context st1;
  Some (st2, {| action := action c; oldRoot := Some (root context); newRoot := Some n |}, res).

(** [undo] and [redo] run the pass on the recorded roots; the roots are
    undefined until [execute] has run. *)
Definition undo (c : UpdateModelCommand) (context : CommandExecutionContext) (st : Store)
    : option (Store * CommandResult) :=
  o ← oldRoot c; n ← newRoot c; performUpdate (action c) n o context st.

Definition redo (c : UpdateModelCommand) (context : CommandExecutionContext) (st : Store)
    : option (Store * CommandResult) :=
  o ← oldRoot c; n ← newRoot c; performUpdate (action c) o n context st.

End Model.

(** ** VNode utilities: [on]

    A virtual node carries an optional [data] object, whose optional [on]
    object maps event names to listeners.  The helpers mutate the node they
    are given; here they return the node as it is after the call. *)
Section VNodeUtils.
Context {Listener : Type}.

(** What an entry of [data.on] holds: a plain listener, or the array
    [[listener, element]] that [on] stores. *)
Inductive OnValue :=
  | ListenerFn (l : Listener)
  | ListenerWithArgs (l : Listener) (element : ref).

Record VNodeData := {
  data_attrs : option (gmap string string);
  data_class : option (gmap string bool);
  data_on : option (gmap string OnValue) }.

Record VNode := {
  sel : option string;
  data : option VNodeData }.

(** How a call ends: it returns, or it throws an [Error] with a message.
    Both carry the node as the call leaves it. *)
Inductive Completion :=
  | Returned (v : VNode)
  | Thrown (v : VNode) (message : string).

(** [if (!vnode.data) vnode.data = {}; return vnode.data] *)
Definition getData (vnode : VNode) : VNode * VNodeData :=
  match data vnode with
  | Some d => (vnode, d)
  | None =>
      let d := {| data_attrs := None; data_class := None; data_on := None |} in
      ({| sel := sel vnode; data := Some d |}, d)
  end.

(** The node with [data.on] replaced by [o]. *)
Definition set_data_on (o : gmap string OnValue) (vnode : VNode) (d : VNodeData) : VNode :=
  {| sel := sel vnode;
     data := Some {| data_attrs := data_attrs d; data_class := data_class d;
                     data_on := Some o |} |}.

(** [if (!data.on) data.on = {}; return data.on] *)
Definition getOn (vnode : VNode) : VNode * VNodeData * gmap string OnValue :=
  let '(v, d) := getData vnode in
  match data_on d with
  | Some o => (v, d, o)
  | None => (set_data_on ∅ v d, d, ∅)
  end.

(** [on]: throw when [on[event]] is truthy, else store [[listener, element]].
    The read finds an own property, which holds a listener, or else what
    [Object.prototype] has under that name. *)
Definition on (vnode : VNode) (event : string) (listener : Listener) (element : ref)
    : Completion :=
  let '(v, d, o) := getOn vnode in
  if bool_decide (is_Some (o !! event)) || inheritedName event
  then Thrown v ("EventListener for " +:+ event +:+ " already registered on VNode")
  else Returned (set_data_on (<[event := ListenerWithArgs listener element]> o) v d).

(** The own entry of [vnode.data.on] for an event, if the node has one. *)
Definition registered (vnode : VNode) (event : string) : option OnValue :=
  d ← data vnode; o ← data_on d; o !! event.

End VNodeUtils.
Arguments OnValue : clear implicits.
Arguments VNodeData : clear implicits.
Arguments VNode : clear implicits.
Arguments Completion : clear implicits.

(** ** VNode utilities: attributes and classes

    [setAttr], [setClass], [copyClassesFromVNode], [copyClassesFromElement],
    [getAttrs] and [getClass] of the same file.  Attribute values are
    strings here. *)
Section VNodeAttributes.
Context {Listener : Type}.

(** The node with [data.attrs] replaced by [a]. *)
Definition set_data_attrs (a : gmap string string) (vnode : VNode Listener)
    (d : VNodeData Listener) : VNode Listener :=
  {| sel := sel vnode;
     data := Some {| data_attrs := Some a; data_class := data_class d;
                     data_on := data_on d |} |}.

(** The node with [data.class] replaced by [c]. *)
Definition set_data_class (c : gmap string bool) (vnode : VNode Listener)
    (d : VNodeData Listener) : VNode Listener :=
  {| sel := sel vnode;
     data := Some {| data_attrs := data_attrs d; data_class := Some c;
                     data_on := data_on d |} |}.

(** [if (!data.attrs) data.attrs = {}; return data.attrs]: the node as the
    call leaves it, its data object and the attributes object. *)
Definition getAttrs (vnode : VNode Listener)
    : VNode Listener * VNodeData Listener * gmap string string :=
  let '(v, d) := getData vnode in
  match data_attrs d with
  | Some a => (v, d, a)
  | None =>
      let d' := {| data_attrs := Some ∅; data_class := data_class d;
                   data_on := data_on d |} in
      ({| sel := sel v; data := Some d' |}, d', ∅)
  end.

(** [if (!data.class) data.class = {}; return data.class] *)
Definition getClass (vnode : VNode Listener)
    : VNode Listener * VNodeData Listener * gmap string bool :=
  let '(v, d) := getData vnode in
  match data_class d with
  | Some c => (v, d, c)
  | None =>
      let d' := {| data_attrs := data_attrs d; data_class := Some ∅;
                   data_on := data_on d |} in
      ({| sel := sel v; data := Some d' |}, d', ∅)
  end.

(** [getAttrs(vnode)[name] = value] *)
Definition setAttr (vnode : VNode Listener) (name : string) (value : string)
    : VNode Listener :=
  let '(v, d, a) := getAttrs vnode in set_data_attrs (assignProperty name value a) v d.

(** [getClass(vnode)[name] = value] *)
Definition setClass (vnode : VNode Listener) (name : string) (value : bool)
    : VNode Listener :=
  let '(v, d, c) := getClass vnode in set_data_class (assignProperty name value c) v d.

(** [copyClassesFromVNode], for two distinct nodes: the source as [getClass]
    leaves it, and the target after [setClass(target, c, true)] for every
    key [c] of the class object of the source. *)
Definition copyClassesFromVNode (source target : VNode Listener)
    : VNode Listener * VNode Listener :=
  let '(s, _, classList) := getClass source in
  (s, foldl (λ t c, setClass t c true) target (map_to_list classList).*1).

(** [copyClassesFromElement]: the DOM element is given by the tokens of its
    [classList], in order. *)
Definition copyClassesFromElement (classList : list string) (target : VNode Listener)
    : VNode Listener :=
  foldl (λ t c, setClass t c true) target classList.

(** The own entries of [vnode.data.attrs] and of [vnode.data.class] for a
    name, if the node has them. *)
Definition attrOf (vnode : VNode Listener) (name : string) : option string :=
  d ← data vnode; a ← data_attrs d; a !! name.

Definition classOf (vnode : VNode Listener) (name : string) : option bool :=
  d ← data vnode; c ← data_class d; c !! name.

End VNodeAttributes.


(** A completion with a function applied to the node it carries. *)
Definition mapCompletion {Listener : Type} (f : VNode Listener → VNode Listener)
    (c : Completion Listener) : Completion Listener :=
  match c with
  | Returned v => Returned (f v)
  | Thrown v msg => Thrown (f v) msg
  end.

(** ** The set-model command

    [SetModelCommand] replaces the model root as a whole.  It records the
    root it is executed on and the root of its action; [undo] and [redo]
    return what is recorded and ignore their argument. *)
Module SetModel.
Section SetModel.
Context {GModelRoot : Type}.

Definition SetModelKind : string := "SetModel".

Record SetModelAction := {
  kind : string;
  action_newRoot : GModelRoot }.

(** [new SetModelAction(newRoot)] *)
Definition SetModelAction_new (newRoot : GModelRoot) : SetModelAction :=
  {| kind := SetModelKind; action_newRoot := newRoot |}.

(** [oldRoot] and [newRoot] are undefined until [execute] has run. *)
Record SetModelCommand := {
  action : SetModelAction;
  oldRoot : option GModelRoot;
  newRoot : option GModelRoot }.

Definition SetModelCommand_new (a : SetModelAction) : SetModelCommand :=
  {| action := a; oldRoot := None; newRoot := None |}.

(** Each method returns the command as the call leaves it, and its result. *)
Definition execute (c : SetModelCommand) (element : GModelRoot)
    : SetModelCommand * option GModelRoot :=
  let c' := {| action := action c; oldRoot := Some element;
               newRoot := Some (action_newRoot (action c)) |} in
  (c', newRoot c').

Definition undo (c : SetModelCommand) (element : GModelRoot)
    : SetModelCommand * option GModelRoot :=
  (c, oldRoot c).

Definition redo (c : SetModelCommand) (element : GModelRoot)
    : SetModelCommand * option GModelRoot :=
  (c, newRoot c).

Definition merge {Command : Type} (c : SetModelCommand) (command : Command) : bool :=
  false.

(** The calls that a command stack makes after [execute], each with the
    root it passes. *)
Inductive Call :=
  | Undo (element : GModelRoot)
  | Redo (element : GModelRoot).

(** A sequence of calls: the command at the end and the roots returned, in
    order. *)
Fixpoint run (calls : list Call) (c : SetModelCommand)
    : SetModelCommand * list (option GModelRoot) :=
  match calls with
  | [] => (c, [])
  | call :: rest =>
      let '(c1, r) := match call with
                      | Undo element => undo c element
                      | Redo element => redo c element
                      end in
      let '(c2, rs) := run rest c1 in
      (c2, r :: rs)
  end.

End SetModel.
Arguments SetModelAction : clear implicits.
Arguments SetModelCommand : clear implicits.
Arguments Call : clear implicits.
End SetModel.

(** * Vocabulary of the statements *)

Section Vocabulary.
Context `{Geometry num}.

Implicit Types (st : gmap ref (@SModelElement num)) (e : @SModelElement num).

(** [st'] agrees with [st] on the projection [proj] of every object, and
    holds the same objects. *)
Definition same_on {A} (proj : @SModelElement num → A) st st' : Prop :=
  ∀ k, proj <$> st' !! k = proj <$> st !! k.

(** [st'] holds every object of [st] unchanged. *)
Definition extends st st' : Prop :=
  ∀ k e, st !! k = Some e → st' !! k = Some e.

(** The children of an object of [st'] that [st] does not hold are not held
    by [st] either. *)
Definition fresh_closed st st' : Prop :=
  ∀ k e c, st !! k = None → st' !! k = Some e → c ∈ children e → st !! c = None.

(** [st'] is [st] with fresh objects added, whose children are fresh too. *)
Definition grows st st' : Prop := extends st st' ∧ fresh_closed st st'.

(** What [createElement] returns: a fresh child element that carries the
    identifier and the properties of the schema, in a store that holds every
    earlier object unchanged. *)
Definition created (s : @SModelElementSchema num) st st' (g : ref) : Prop :=
  grows st st' ∧ st !! g = None ∧
  ∃ ge, st' !! g = Some ge ∧ cls ge = SChildElementClass ∧
        id ge = schema_id s ∧ props ge = schema_props s ∧ parent ge = None.

(** [st'] differs from [st] at most at the object [r], whose index it
    keeps. *)
Definition only_at (r : ref) st st' : Prop :=
  (∀ k, k ≠ r → st' !! k = st !! k) ∧ same_on index st st' ∧ is_Some (st !! r).

(** Every object of [st] is still held by [st']. *)
Definition live_mono st st' : Prop := ∀ k, is_Some (st !! k) → is_Some (st' !! k).

(** The elements of the recorded resizes are live in [st]. *)
Definition resizes_live st (data : @UpdateAnimationData num) : Prop :=
  Forall (λ rz, is_Some (st !! resize_element rz)) (default [] (resizes data)).

(** The number of non-empty job sequences of the animation data. *)
Definition nonEmptyCount (data : @UpdateAnimationData num) : nat :=
  (if nonEmpty (Some (fades data)) then 1 else 0) +
  (if nonEmpty (moves data) then 1 else 0) +
  (if nonEmpty (resizes data) then 1 else 0).

(** The key under which a directive is stored: the identifier of its new
    side when it has one (the second assignment to [id] wins), otherwise the
    identifier of its old side. *)
Definition directiveKey (m : Match (@SModelElementSchema num)) : option string :=
  match right m with
  | Some r => Some (schema_id r)
  | None => schema_id <$> left m
  end.

(** The match a directive is converted to, given the two root objects. *)
Definition converted (lr rr : @SModelElement num) (m : Match (@SModelElementSchema num))
    : Match ref :=
  {| left := left m ≫= (λ s, index lr !! schema_id s);
     right := right m ≫= (λ s, index rr !! schema_id s);
     leftParentId := left m ≫= (λ _, leftParentId m);
     rightParentId := right m ≫= (λ _, rightParentId m) |}.

(** Every identifier that a directive names resolves in the index of the
    root of its side. *)
Definition directivesResolve (lr rr : @SModelElement num)
    (ms : list (Match (@SModelElementSchema num))) : Prop :=
  ∀ m, m ∈ ms →
    (∀ s, left m = Some s → is_Some (index lr !! schema_id s)) ∧
    (∀ s, right m = Some s → is_Some (index rr !! schema_id s)).

(** The objects that satisfy [P] are live, and none of them is the new root
    or is held by the index of the new root. *)
Definition protects (P : ref → Prop) (newRootRef : ref) st : Prop :=
  (∀ k, P k → is_Some (st !! k)) ∧ ¬ P newRootRef ∧
  ∀ nr i k, st !! newRootRef = Some nr → index nr !! i = Some k → ¬ P k.

(** The objects that satisfy [P] are the same in [st'] as in [st]. *)
Definition unchanged (P : ref → Prop) st st' : Prop :=
  ∀ k e, P k → st !! k = Some e → st' !! k = Some e.

(** The key set of a match result is the union of the old-side and the
    new-side identifiers that the directives name. *)
Definition keysAreAllIdentifiers (ms : list (Match (@SModelElementSchema num)))
    (result : list (string * Match ref)) : Prop :=
  ∀ i, i ∈ result.*1 ↔
       ∃ m s, m ∈ ms ∧ (left m = Some s ∨ right m = Some s) ∧ schema_id s = i.

(** Every keyed match has at least one side defined. *)
Definition everyMatchHasASide (result : list (string * Match ref)) : Prop :=
  ∀ i c, (i, c) ∈ result → is_Some (left c) ∨ is_Some (right c).

(** The step of [computeAnimation] for the match [m] attaches a fresh object
    at the new root. *)
Definition attachesAtRoot (newRootRef : ref) (m : Match ref) st
    (data : @UpdateAnimationData num) : Prop :=
  ∃ st' data' g nr',
    computeStep newRootRef m st data = Some (st', data') ∧
    st !! g = None ∧ st' !! newRootRef = Some nr' ∧ g ∈ children nr'.

(** [st] holds every object of [b] unchanged, and the objects it holds
    beyond those of [b] refer, through their children, their parent and
    their index, only to objects that [b] does not hold. *)
Definition isolated b st : Prop :=
  extends b st ∧
  ∀ k e, b !! k = None → st !! k = Some e →
    (∀ c, c ∈ children e → b !! c = None) ∧
    (∀ p, parent e = Some p → b !! p = None) ∧
    (∀ i r, index e !! i = Some r → b !! r = None).

(** What no block of [updateElement] writes: the class, the type tag, the
    identifier, the parent, the children, the index and the opacity of an
    object. *)
Definition structure e :=
  (cls e, type e, id e, parent e, children e, index e, opacity e).

(** A projection that none of the six property writes changes. *)
Definition kept_by_updates {A} (proj : @SModelElement num → A) : Prop :=
  (∀ v e, proj (set_position v e) = proj e) ∧
  (∀ v e, proj (set_bounds v e) = proj e) ∧
  (∀ v e, proj (set_selected v e) = proj e) ∧
  (∀ v e, proj (set_canvasBounds v e) = proj e) ∧
  (∀ v e, proj (set_scroll v e) = proj e) ∧
  (∀ v e, proj (set_zoom v e) = proj e).

(** Every object of [st] is held by [st'] with the same projection [proj]. *)
Definition kept {A} (proj : @SModelElement num → A) st st' : Prop :=
  ∀ k e, st !! k = Some e → ∃ e', st' !! k = Some e' ∧ proj e' = proj e.

(** What an object is and where it is attached: its class, its type tag,
    its identifier and its parent. *)
Definition placement e := (cls e, type e, id e, parent e).

(** Where the jobs that a loop over [entries] queues between the stores [st]
    and [st'] come from.  A fade-in is for the new element of an entry
    without an old element; a fade-out is for an object that the loop has
    created, a copy of the old element of an entry without a new element.  A
    move or a resize is for the new element of an entry with both sides, and
    a move carries the identifier of its element.  The elements of all jobs
    are live at the end. *)
Definition fadeFrom (entries : list (string * Match ref)) st st'
    (f : @ResolvedElementFade) : Prop :=
  is_Some (st' !! fade_element f) ∧
  match fade_type f with
  | FadeIn => ∃ i m, (i, m) ∈ entries ∧ left m = None ∧ right m = Some (fade_element f)
  | FadeOut =>
      st !! fade_element f = None ∧
      ∃ i m l, (i, m) ∈ entries ∧ left m = Some l ∧ right m = None ∧
               id <$> st' !! fade_element f = id <$> st' !! l
  end.

Definition moveFrom (entries : list (string * Match ref)) st'
    (mv : @ResolvedElementMove num) : Prop :=
  id <$> st' !! move_element mv = Some (elementId mv) ∧
  ∃ i m, (i, m) ∈ entries ∧ is_Some (left m) ∧ right m = Some (move_element mv).

Definition resizeFrom (entries : list (string * Match ref)) st'
    (rz : @ResolvedElementResize num) : Prop :=
  is_Some (st' !! resize_element rz) ∧
  ∃ i m, (i, m) ∈ entries ∧ is_Some (left m) ∧ right m = Some (resize_element rz).

(** What the directives of [applyMatches] leave alone: the class, the type
    tag, the identifier and the properties of an object. *)
Definition content e := (cls e, type e, id e, props e).

(** [st'] holds every object of [st] with the same content, and with the
    same parent unless the object is a child element. *)
Definition restructured st st' : Prop :=
  ∀ k e, st !! k = Some e →
    ∃ e', st' !! k = Some e' ∧ content e' = content e ∧
          (instanceofSChildElement (cls e) = false → parent e' = parent e).

(** A fade, move or resize animation on the model [n] in the context
    [context]; a fade is constructed with the flag [true], a move and a
    resize with [false]. *)
Definition singleFor (n : ref) (context : CommandExecutionContext)
    (a : @Animation num) : Prop :=
  match a with
  | FadeAnimation model _ c flag => model = n ∧ c = context ∧ flag = true
  | MoveAnimation model _ c flag => model = n ∧ c = context ∧ flag = false
  | ResizeAnimation model _ c flag => model = n ∧ c = context ∧ flag = false
  | CompoundAnimation _ _ _ => False
  end.

(** An animation on the model [n]: a single one, or a compound of two or
    three single ones. *)
Definition animationFor (n : ref) (context : CommandExecutionContext)
    (a : @Animation num) : Prop :=
  match a with
  | CompoundAnimation model c components =>
      model = n ∧ c = context ∧ 2 ≤ length components ≤ 3 ∧
      Forall (singleFor n context) components
  | _ => singleFor n context a
  end.

End Vocabulary.

(** * An example: two versions of a small diagram

    Modelled from the spec: an instance of the geometry helpers on binary64
    numbers, with a tolerance of one thousandth for [almostEquals] and with
    the dimensions valid whose width and height are not negative (the
    not-yet-measured sentinel is (-1, -1)). *)

Definition float_almostEquals (a b : float) : bool :=
  PrimFloat.ltb (PrimFloat.abs (PrimFloat.sub a b)) 0x1.0624dd2f1a9fcp-10%float.

Definition float_isValidDimension (d : Dimension float) : bool :=
  PrimFloat.leb 0%float (width d) && PrimFloat.leb 0%float (height d).

#[export] Instance float_geometry : Geometry float :=
  {| zero := 0%float; almostEquals := float_almostEquals;
     isValidDimension := float_isValidDimension |}.

Section Examples.
Local Open Scope float_scope.

Definition exProps (pos : option (Point float)) (b : option (Bounds float))
    (sel : option bool) (op : option float) (cb : option (Bounds float)) : @Props float :=
  {| p_position := pos; p_bounds := b; p_selected := sel; p_opacity := op;
     p_canvasBounds := cb; p_scroll := None; p_zoom := None |}.

(** The old tree: a root with the nodes [n1] and [n2] (objects 1, 2, 3). *)
Definition exOldRoot : @SModelElement float :=
  {| cls := SModelRootClass; type := "graph"; id := "graph"; parent := None;
     children := [2; 3]%positive;
     index := {[ "graph" := 1; "n1" := 2; "n2" := 3 ]}%positive;
     props := exProps None None None None
                (Some {| bounds_x := 0; bounds_y := 0;
                         bounds_width := 800; bounds_height := 600 |}) |}.

Definition exOldN1 : @SModelElement float :=
  {| cls := SChildElementClass; type := "node"; id := "n1"; parent := Some 1%positive;
     children := []; index := ∅;
     props := exProps (Some {| x := 0; y := 0 |})
                (Some {| bounds_x := 0; bounds_y := 0;
                         bounds_width := 10; bounds_height := 10 |})
                (Some true) (Some 1) None |}.

Definition exOldN2 : @SModelElement float :=
  {| cls := SChildElementClass; type := "node"; id := "n2"; parent := Some 1%positive;
     children := []; index := ∅;
     props := exProps (Some {| x := 5; y := 5 |})
                (Some {| bounds_x := 5; bounds_y := 5;
                         bounds_width := 10; bounds_height := 10 |})
                None (Some 1) None |}.

(** The new tree: a root with the same identifier, [n1] moved and not yet
    measured, and a new node [n3] (objects 4, 5, 6). *)
Definition exNewRoot : @SModelElement float :=
  {| cls := SModelRootClass; type := "graph"; id := "graph"; parent := None;
     children := [5; 6]%positive;
     index := {[ "graph" := 4; "n1" := 5; "n3" := 6 ]}%positive;
     props := exProps None None None None None |}.

Definition exNewN1 : @SModelElement float :=
  {| cls := SChildElementClass; type := "node"; id := "n1"; parent := Some 4%positive;
     children := []; index := ∅;
     props := exProps (Some {| x := 10; y := 0 |})
                (Some {| bounds_x := 10; bounds_y := 0;
                         bounds_width := -1; bounds_height := -1 |})
                (Some false) (Some 1) None |}.

Definition exNewN3 : @SModelElement float :=
  {| cls := SChildElementClass; type := "node"; id := "n3"; parent := Some 4%positive;
     children := []; index := ∅;
     props := exProps (Some {| x := 3; y := 3 |})
                (Some {| bounds_x := 3; bounds_y := 3;
                         bounds_width := 20; bounds_height := 10 |})
                None (Some 1) None |}.

Definition exStore : gmap ref (@SModelElement float) :=
  list_to_map [(1, exOldRoot); (2, exOldN1); (3, exOldN2);
               (4, exNewRoot); (5, exNewN1); (6, exNewN3)]%positive.

Definition exContext : CommandExecutionContext := {| root := 1%positive |}.

(** An animated update without explicit matches, and one that is not
    animated. *)
Definition exAction : @UpdateModelAction float :=
  {| action_newRoot := None; matches := None; animate := Some true |}.
Definition exActionNoAnimation : @UpdateModelAction float :=
  {| action_newRoot := None; matches := None; animate := Some false |}.

(** The match result of the two trees, as the matcher computes it. *)
Definition exMatchResult : list (string * Match ref) :=
  Eval vm_compute in default [] (ModelMatcher_match exStore 1%positive 4%positive).

(** The store and the animation data after the loop of [computeAnimation]. *)
Definition exCollected : gmap ref (@SModelElement float) * @UpdateAnimationData float :=
  Eval vm_compute in
    default (∅, emptyAnimationData)
      (computeLoop 4%positive (forIn exMatchResult) exStore emptyAnimationData).

(** The store and the result after [performUpdate]. *)
Definition exUpdated : gmap ref (@SModelElement float) * @CommandResult float :=
  Eval vm_compute in
    default (∅, ResultRoot 4%positive)
      (performUpdate exAction 1%positive 4%positive exContext exStore).

Definition exOrphanRemoval : Match ref :=
  {| left := Some 3%positive; right := None;
     leftParentId := Some "gone"; rightParentId := None |}.

Definition exSchema (i : string) : @SModelElementSchema float :=
  Schema "node" i (exProps None None None (Some 1) None) [].

(** Directives: [n2] becomes [n3]; an old element that no tree holds; a new
    element under a parent that no tree holds. *)
Definition exRename : Match (@SModelElementSchema float) :=
  {| left := Some (exSchema "n2"); right := Some (exSchema "n3");
     leftParentId := Some "graph"; rightParentId := Some "graph" |}.
Definition exUnknown : Match (@SModelElementSchema float) :=
  {| left := Some (exSchema "n9"); right := None;
     leftParentId := Some "graph"; rightParentId := None |}.
Definition exOrphanAddition : Match (@SModelElementSchema float) :=
  {| left := None; right := Some (exSchema "n4");
     leftParentId := None; rightParentId := Some "gone" |}.

(** A directive for a new element whose identifier is [__proto__]. *)
Definition exProtoAddition : Match (@SModelElementSchema float) :=
  {| left := None; right := Some (exSchema "__proto__");
     leftParentId := None; rightParentId := Some "graph" |}.

(** A node with a listener for [click], and one without listeners. *)
Definition exVNode : VNode nat :=
  {| sel := Some "circle";
     data := Some {| data_attrs := None; data_class := None;
                     data_on := Some {[ "click" := ListenerFn 0%nat ]} |} |}.
Definition exBareVNode : VNode nat := {| sel := Some "circle"; data := None |}.

(** The old tree alone, and what [updateElement] on the two [n1], the
    directives on the new tree, and [execute] with and without animation
    give. *)
Definition exOldStore : gmap ref (@SModelElement float) :=
  list_to_map [(1, exOldRoot); (2, exOldN1); (3, exOldN2)]%positive.

Definition exPair : gmap ref (@SModelElement float) * @UpdateAnimationData float :=
  Eval vm_compute in
    default (∅, emptyAnimationData) (updateElement 2 5 exStore emptyAnimationData).

Definition exApplied : gmap ref (@SModelElement float) :=
  Eval vm_compute in default ∅ (applyMatches 4 [exRename; exOrphanAddition] exStore).

Definition exDirectives : @UpdateModelAction float :=
  {| action_newRoot := None; matches := Some [exRename; exOrphanAddition];
     animate := None |}.

Definition exExecuted
    : gmap ref (@SModelElement float) * @UpdateModelCommand float * @CommandResult float :=
  Eval vm_compute in
    default (∅, UpdateModelCommand_new exDirectives, ResultRoot 1%positive)
      (execute (UpdateModelCommand_new exDirectives) exContext exOldStore).

Definition exExecutedAtOnce
    : gmap ref (@SModelElement float) * @UpdateModelCommand float * @CommandResult float :=
  Eval vm_compute in
    default (∅, UpdateModelCommand_new exActionNoAnimation, ResultRoot 1%positive)
      (execute (UpdateModelCommand_new exActionNoAnimation) exContext exOldStore).

(** The removal of the old [n1], whose identifier the new tree still
    holds. *)
Definition exStaleRemoval : Match ref :=
  {| left := Some 2%positive; right := None;
     leftParentId := Some "graph"; rightParentId := None |}.

End Examples.

(** * Properties *)

Section Properties.
Context `{Geometry num}.

Implicit Types (st : gmap ref (@SModelElement num)) (e : @SModelElement num).

Arguments indexAdd : simpl never.
Arguments indexRemove : simpl never.
Arguments descendants : simpl never.

(** ** Stores under [alter] *)

Lemma alter_lookup_proj {A} (proj : @SModelElement num → A)
    (f : @SModelElement num → @SModelElement num) r k st :
  (∀ e, proj (f e) = proj e) →
  proj <$> alter f r st !! k = proj <$> st !! k.
Proof.
  intros Hf. rewrite lookup_alter. case_decide as Hk; [|done].
  subst. destruct (st !! k); simpl; [by rewrite Hf | done].
Qed.

Lemma same_on_refl {A} (proj : @SModelElement num → A) st : same_on proj st st.
Proof. by intros k. Qed.

Lemma same_on_trans {A} (proj : @SModelElement num → A) st1 st2 st3 :
  same_on proj st1 st2 → same_on proj st2 st3 → same_on proj st1 st3.
Proof. intros H12 H23 k. by rewrite H23. Qed.

Lemma same_on_alter {A} (proj : @SModelElement num → A) f r st :
  (∀ e, proj (f e) = proj e) → same_on proj st (alter f r st).
Proof. intros Hf k. by apply alter_lookup_proj. Qed.

Lemma same_on_is_Some {A} (proj : @SModelElement num → A) st st' k :
  same_on proj st st' → is_Some (st !! k) → is_Some (st' !! k).
Proof.
  intros Hs [e He]. specialize (Hs k). rewrite He in Hs.
  destruct (st' !! k); [eauto | done].
Qed.

Lemma same_on_lookup {A} (proj : @SModelElement num → A) st st' k e :
  same_on proj st st' → st !! k = Some e →
  ∃ e', st' !! k = Some e' ∧ proj e' = proj e.
Proof.
  intros Hs He. specialize (Hs k). rewrite He in Hs.
  destruct (st' !! k) as [e'|]; simplify_eq/=. eauto.
Qed.

Create HintDb sprotty.
#[local] Hint Resolve same_on_refl : sprotty.

(** ** The blocks of [updateElement] *)

(** The guards of the first two blocks, by cases on the two properties. *)
Lemma updatePosition_unfold left right st (data : @UpdateAnimationData num) :
  updatePosition left right st data =
    l ← st !! left; r ← st !! right;
    match position l, position r with
    | Some leftPos, Some rightPos =>
        if negb (almostEquals (x leftPos) (x rightPos))
           || negb (almostEquals (y leftPos) (y rightPos))
        then Some (alter (set_position (Some leftPos)) right st,
                   push_move {| move_element := right; elementId := id r;
                                fromPosition := leftPos; toPosition := rightPos |} data)
        else Some (st, data)
    | _, _ => Some (st, data)
    end.
Proof.
  unfold updatePosition, isLocateable.
  destruct (st !! left) as [l|]; [|done]. destruct (st !! right) as [r|]; [|done].
  simpl. by destruct (position l), (position r).
Qed.

Lemma updateBounds_unfold left right st (data : @UpdateAnimationData num) :
  updateBounds left right st data =
    l ← st !! left; r ← st !! right;
    match bounds l, bounds r with
    | Some lb, Some rb =>
        if negb (isValidDimension (asDimension rb))
        then Some (alter (set_bounds (Some
                     {| bounds_x := bounds_x rb; bounds_y := bounds_y rb;
                        bounds_width := bounds_width lb;
                        bounds_height := bounds_height lb |})) right st, data)
        else if negb (almostEquals (bounds_width lb) (bounds_width rb))
                || negb (almostEquals (bounds_height lb) (bounds_height rb))
        then Some (st,
                   push_resize {| resize_element := right;
                                  fromDimension := {| width := bounds_width lb;
                                                      height := bounds_height lb |};
                                  toDimension := {| width := bounds_width rb;
                                                    height := bounds_height rb |} |}
                     data)
        else Some (st, data)
    | _, _ => Some (st, data)
    end.
Proof.
  unfold updateBounds, isBoundsAware.
  destruct (st !! left) as [l|]; [|done]. destruct (st !! right) as [r|]; [|done].
  simpl. by destruct (bounds l), (bounds r).
Qed.

Lemma updatePosition_frame left right st data st' data' :
  updatePosition left right st data = Some (st', data') →
  same_on bounds st st' ∧ same_on cls st st' ∧ same_on selected st st' ∧
  same_on canvasBounds st st' ∧ same_on scroll st st' ∧ same_on zoom st st' ∧
  resizes data' = resizes data ∧ fades data' = fades data.
Proof.
  rewrite updatePosition_unfold. intros Hu.
  destruct (st !! left) as [l|]; [|done]. destruct (st !! right) as [r|]; [|done].
  simpl in Hu.
  destruct (position l), (position r); try (simplify_eq; by eauto 10 with sprotty).
  case_match; simplify_eq; [|by eauto 10 with sprotty].
  repeat split; by apply same_on_alter.
Qed.

Lemma updateBounds_frame left right st data st' data' :
  updateBounds left right st data = Some (st', data') →
  same_on position st st' ∧ same_on cls st st' ∧ same_on selected st st' ∧
  same_on canvasBounds st st' ∧ same_on scroll st st' ∧ same_on zoom st st' ∧
  moves data' = moves data ∧ fades data' = fades data.
Proof.
  rewrite updateBounds_unfold. intros Hu.
  destruct (st !! left) as [l|]; [|done]. destruct (st !! right) as [r|]; [|done].
  simpl in Hu.
  destruct (bounds l), (bounds r); try (simplify_eq; by eauto 10 with sprotty).
  repeat case_match; simplify_eq; try by eauto 10 with sprotty.
  repeat split; by apply same_on_alter.
Qed.

Lemma updateSelected_frame left right st l r :
  st !! left = Some l → st !! right = Some r →
  ∃ st', updateSelected left right st = Some st' ∧
    same_on position st st' ∧ same_on bounds st st' ∧ same_on cls st st'.
Proof.
  intros Hl Hr. unfold updateSelected. rewrite Hl, Hr. simpl.
  case_match; eexists; (split; [done|]); eauto with sprotty.
  repeat split; by apply same_on_alter.
Qed.

Lemma updateCanvasBounds_frame left right st l r :
  st !! left = Some l → st !! right = Some r →
  ∃ st', updateCanvasBounds left right st = Some st' ∧
    same_on position st st' ∧ same_on bounds st st' ∧ same_on cls st st'.
Proof.
  intros Hl Hr. unfold updateCanvasBounds. rewrite Hl, Hr. simpl.
  case_match; eexists; (split; [done|]); eauto with sprotty.
  repeat split; by apply same_on_alter.
Qed.

Lemma updateViewport_frame left right st l r :
  st !! left = Some l → st !! right = Some r →
  ∃ st', updateViewport left right st = Some st' ∧
    same_on position st st' ∧ same_on bounds st st' ∧ same_on cls st st'.
Proof.
  intros Hl Hr. unfold updateViewport. rewrite Hl, Hr. simpl.
  case_match; eexists; (split; [done|]); eauto with sprotty.
  repeat split;
    (eapply same_on_trans; [|by apply same_on_alter]); by apply same_on_alter.
Qed.

Lemma updatePosition_total left right st data l r :
  st !! left = Some l → st !! right = Some r →
  is_Some (updatePosition left right st data).
Proof.
  intros Hl Hr. rewrite updatePosition_unfold. rewrite Hl, Hr. simpl.
  repeat case_match; eauto.
Qed.

Lemma updateBounds_total left right st data l r :
  st !! left = Some l → st !! right = Some r →
  is_Some (updateBounds left right st data).
Proof.
  intros Hl Hr. rewrite updateBounds_unfold. rewrite Hl, Hr. simpl.
  repeat case_match; eauto.
Qed.

(** [updateElement] runs to its end on two live objects; the last three
    blocks leave every position and every bounds as the first two made
    them. *)
Lemma updateElement_blocks left right st data l r :
  st !! left = Some l → st !! right = Some r →
  ∃ st1 data1 st2 data2 st5,
    updatePosition left right st data = Some (st1, data1) ∧
    updateBounds left right st1 data1 = Some (st2, data2) ∧
    updateElement left right st data = Some (st5, data2) ∧
    same_on position st2 st5 ∧ same_on bounds st2 st5 ∧ same_on cls st st5.
Proof.
  intros Hl Hr.
  destruct (updatePosition_total left right st data l r Hl Hr) as [[st1 data1] H1].
  pose proof (updatePosition_frame _ _ _ _ _ _ H1) as (_ & Hc1 & _).
  destruct (same_on_lookup cls st st1 left l Hc1 Hl) as (l1 & Hl1 & _).
  destruct (same_on_lookup cls st st1 right r Hc1 Hr) as (r1 & Hr1 & _).
  destruct (updateBounds_total left right st1 data1 l1 r1 Hl1 Hr1) as [[st2 data2] H2].
  pose proof (updateBounds_frame _ _ _ _ _ _ H2) as (_ & Hc2 & _).
  destruct (same_on_lookup cls st1 st2 left l1 Hc2 Hl1) as (l2 & Hl2 & _).
  destruct (same_on_lookup cls st1 st2 right r1 Hc2 Hr1) as (r2 & Hr2 & _).
  destruct (updateSelected_frame left right st2 l2 r2 Hl2 Hr2)
    as (st3 & H3 & Hp3 & Hb3 & Hc3).
  destruct (same_on_lookup cls st2 st3 left l2 Hc3 Hl2) as (l3 & Hl3 & _).
  destruct (same_on_lookup cls st2 st3 right r2 Hc3 Hr2) as (r3 & Hr3 & _).
  destruct (updateCanvasBounds_frame left right st3 l3 r3 Hl3 Hr3)
    as (st4 & H4 & Hp4 & Hb4 & Hc4).
  destruct (same_on_lookup cls st3 st4 left l3 Hc4 Hl3) as (l4 & Hl4 & _).
  destruct (same_on_lookup cls st3 st4 right r3 Hc4 Hr3) as (r4 & Hr4 & _).
  destruct (updateViewport_frame left right st4 l4 r4 Hl4 Hr4)
    as (st5 & H5 & Hp5 & Hb5 & Hc5).
  exists st1, data1, st2, data2, st5. repeat split; [done|done| | | |].
  - unfold updateElement. rewrite H1. simpl. rewrite H2. simpl.
    rewrite H3. simpl. rewrite H4. simpl. by rewrite H5.
  - eauto using same_on_trans.
  - eauto using same_on_trans.
  - eauto 6 using same_on_trans.
Qed.

(** ** Moves (claim C2) *)

(** C2. For a matched pair whose two elements both have a position:
    when the old and the new position are almost equal in both coordinates,
    [updateElement] records no move and leaves the position of the new
    element as it is; otherwise it records exactly one move, for the new
    element, from the old position to the new one, and resets the position
    of the new element to the old position. *)
Theorem updateElement_move left right st data l r leftPos rightPos :
  st !! left = Some l → st !! right = Some r →
  position l = Some leftPos → position r = Some rightPos →
  ∃ st' data', updateElement left right st data = Some (st', data') ∧
    if almostEquals (x leftPos) (x rightPos) && almostEquals (y leftPos) (y rightPos)
    then moves data' = moves data ∧
         position <$> st' !! right = Some (Some rightPos)
    else moves data' =
           Some (default [] (moves data) ++
                 [{| move_element := right; elementId := id r;
                     fromPosition := leftPos; toPosition := rightPos |}]) ∧
         position <$> st' !! right = Some (Some leftPos).
Proof.
  intros Hl Hr Hlp Hrp.
  destruct (updateElement_blocks left right st data l r Hl Hr)
    as (st1 & data1 & st2 & data2 & st5 & H1 & H2 & HU & Hp & _).
  exists st5, data2. split; [done|].
  pose proof (updateBounds_frame _ _ _ _ _ _ H2) as (Hp2 & _ & _ & _ & _ & _ & Hm2 & _).
  rewrite (Hp right), (Hp2 right), Hm2.
  rewrite updatePosition_unfold in H1. rewrite Hl, Hr in H1. simpl in H1.
  rewrite Hlp, Hrp in H1.
  destruct (almostEquals (x leftPos) (x rightPos)),
           (almostEquals (y leftPos) (y rightPos)); simpl in *; simplify_eq;
    rewrite ?lookup_alter_eq, ?Hr; simpl; by rewrite ?Hrp.
Qed.

(** ** Resizes (claim C3) *)

(** C3. For a matched pair whose two elements both have bounds: when the
    dimension of the new element is not valid, the new element takes the
    width and height of the old element (keeping its own x and y) and no
    resize is recorded; otherwise, when width or height are not almost
    equal, exactly one resize of the new element, from the old dimension to
    the new one, is recorded (and the bounds stay); otherwise nothing is
    recorded. *)
Theorem updateElement_resize left right st data l r lb rb :
  st !! left = Some l → st !! right = Some r →
  bounds l = Some lb → bounds r = Some rb →
  ∃ st' data', updateElement left right st data = Some (st', data') ∧
    if negb (isValidDimension (asDimension rb))
    then resizes data' = resizes data ∧
         bounds <$> st' !! right =
           Some (Some {| bounds_x := bounds_x rb; bounds_y := bounds_y rb;
                         bounds_width := bounds_width lb;
                         bounds_height := bounds_height lb |})
    else if almostEquals (bounds_width lb) (bounds_width rb)
            && almostEquals (bounds_height lb) (bounds_height rb)
    then resizes data' = resizes data ∧
         bounds <$> st' !! right = Some (Some rb)
    else resizes data' =
           Some (default [] (resizes data) ++
                 [{| resize_element := right;
                     fromDimension := {| width := bounds_width lb;
                                         height := bounds_height lb |};
                     toDimension := {| width := bounds_width rb;
                                       height := bounds_height rb |} |}]) ∧
         bounds <$> st' !! right = Some (Some rb).
Proof.
  intros Hl Hr Hlb Hrb.
  destruct (updateElement_blocks left right st data l r Hl Hr)
    as (st1 & data1 & st2 & data2 & st5 & H1 & H2 & HU & _ & Hb & _).
  exists st5, data2. split; [done|].
  pose proof (updatePosition_frame _ _ _ _ _ _ H1) as (Hb1 & _ & _ & _ & _ & _ & Hr1 & _).
  destruct (same_on_lookup bounds st st1 left l Hb1 Hl) as (l1 & Hl1 & Hlb1).
  destruct (same_on_lookup bounds st st1 right r Hb1 Hr) as (r1 & Hr1' & Hrb1).
  rewrite (Hb right), <- Hr1.
  rewrite updateBounds_unfold in H2. rewrite Hl1, Hr1' in H2. simpl in H2.
  rewrite Hlb1, Hrb1, Hlb, Hrb in H2.
  destruct (isValidDimension (asDimension rb)); simpl in *.
  - destruct (almostEquals (bounds_width lb) (bounds_width rb)),
             (almostEquals (bounds_height lb) (bounds_height rb));
      simpl in *; simplify_eq; rewrite Hr1'; simpl; by rewrite Hrb1, Hrb.
  - simplify_eq. by rewrite lookup_alter_eq, Hr1'.
Qed.

(** ** The model factory allocates fresh objects *)

Lemma Schema_ind' (P : @SModelElementSchema num → Prop) :
  (∀ ty i p l, Forall P l → P (Schema ty i p l)) → ∀ s, P s.
Proof.
  intros HP. fix IH 1. intros [ty i p l]. apply HP.
  induction l as [|k l IHl]; constructor; [apply IH | exact IHl].
Qed.

Lemma createElement_unfold (s : @SModelElementSchema num) st :
  createElement s st =
    let r := fresh (dom st) in
    let '(st2, kids) :=
      createChildren r (schema_children s) (<[r := newElement SChildElementClass s]> st) in
    (alter (set_children kids) r st2, r).
Proof.
  destruct s as [ty i p l]. simpl.
  set (r := fresh (dom st)).
  generalize (<[r := newElement SChildElementClass (Schema ty i p l)]> st).
  assert (Hfix : ∀ l' st',
    (fix createChildren (l : list SModelElementSchema) (st : gmap ref SModelElement)
       : gmap ref SModelElement * list ref :=
       match l with
       | [] => (st, [])
       | k :: l' =>
           let '(st', c) := createElement k st in
           let '(st'', cs) := createChildren l' (alter (set_parent (Some r)) c st') in
           (st'', c :: cs)
       end) l' st' = createChildren r l' st').
  { induction l' as [|k l' IHl]; intros st'; simpl; [done|].
    destruct (createElement k st') as [st'' c]. by rewrite IHl. }
  intros st1. by rewrite Hfix.
Qed.

Lemma extends_refl st : extends st st.
Proof. by intros k e. Qed.

Lemma extends_trans st1 st2 st3 : extends st1 st2 → extends st2 st3 → extends st1 st3.
Proof. intros H12 H23 k e Hk. eauto. Qed.

Lemma extends_None st st' k : extends st st' → st' !! k = None → st !! k = None.
Proof.
  intros He Hk. destruct (st !! k) as [e|] eqn:E; [|done].
  apply He in E. congruence.
Qed.

Lemma grows_refl st : grows st st.
Proof. split; [apply extends_refl|]. intros k e c Hk Hk'. congruence. Qed.

Lemma grows_trans st1 st2 st3 : grows st1 st2 → grows st2 st3 → grows st1 st3.
Proof.
  intros [He12 Hc12] [He23 Hc23]. split; [by eapply extends_trans|].
  intros k e c Hk1 Hk3 Hc.
  destruct (st2 !! k) as [e2|] eqn:E2.
  - pose proof (He23 _ _ E2). simplify_eq. eauto.
  - eapply extends_None; [done|]. eauto.
Qed.

Lemma grows_insert_fresh st r e :
  st !! r = None → children e = [] → grows st (<[r := e]> st).
Proof.
  intros Hr Hc. split.
  - intros k e' Hk. rewrite lookup_insert_ne; [done | congruence].
  - intros k e' c Hk Hk' Hin. destruct (decide (r = k)) as [->|Hne].
    + rewrite lookup_insert_eq in Hk'. simplify_eq. rewrite Hc in Hin.
      by apply elem_of_nil in Hin.
    + rewrite lookup_insert_ne in Hk' by done. congruence.
Qed.

Lemma grows_alter_fresh st st' f c :
  grows st st' → st !! c = None → (∀ e, children (f e) = children e) →
  grows st (alter f c st').
Proof.
  intros [He Hc] Hfresh Hf. split.
  - intros k e Hk. rewrite lookup_alter_ne; [eauto | congruence].
  - intros k e c' Hk Hk' Hin. rewrite lookup_alter in Hk'.
    case_decide; [|eauto]. subst.
    destruct (st' !! k) as [e'|] eqn:E'; simplify_eq/=.
    rewrite Hf in Hin. eauto.
Qed.

Lemma grows_set_children st st' r kids :
  grows st st' → st !! r = None → Forall (λ c, st !! c = None) kids →
  grows st (alter (set_children kids) r st').
Proof.
  intros [He Hc] Hfresh Hkids. split.
  - intros k e Hk. rewrite lookup_alter_ne; [eauto | congruence].
  - intros k e c' Hk Hk' Hin. rewrite lookup_alter in Hk'.
    case_decide; [|eauto]. subst.
    destruct (st' !! k) as [e'|] eqn:E'; simplify_eq/=.
    rewrite Forall_forall in Hkids. eauto.
Qed.

Lemma fresh_lookup_None st : st !! fresh (dom st) = None.
Proof. apply not_elem_of_dom, is_fresh. Qed.

Lemma createChildren_grows r (l : list (@SModelElementSchema num)) :
  Forall (λ s, ∀ st st' g, createElement s st = (st', g) → created s st st' g) l →
  ∀ st st' kids, createChildren r l st = (st', kids) →
    grows st st' ∧ Forall (λ c, st !! c = None) kids.
Proof.
  induction 1 as [|k l Hk Hl IH]; intros st st' kids Hc; simpl in Hc.
  - simplify_eq. split; [apply grows_refl | constructor].
  - destruct (createElement k st) as [st1 c] eqn:E1.
    destruct (createChildren r l (alter (set_parent (Some r)) c st1))
      as [st2 cs] eqn:E2. simplify_eq.
    destruct (Hk _ _ _ E1) as (Hg1 & Hc1 & _).
    assert (Hg1' : grows st (alter (set_parent (Some r)) c st1))
      by (by apply grows_alter_fresh).
    destruct (IH _ _ _ E2) as [Hg2 Hcs]. split.
    + by eapply grows_trans.
    + constructor; [done|]. eapply Forall_impl; [exact Hcs|].
      intros c' Hc'. simpl in Hc'. eapply extends_None; [apply Hg1'|done].
Qed.

Lemma createElement_created (s : @SModelElementSchema num) :
  ∀ st st' g, createElement s st = (st', g) → created s st st' g.
Proof.
  induction s as [ty i p l IH] using Schema_ind'. intros st st' g Hc.
  rewrite createElement_unfold in Hc. cbv zeta in Hc.
  change (schema_children (Schema ty i p l)) with l in Hc.
  pose proof (fresh_lookup_None st) as Hr.
  remember (fresh (dom st)) as r eqn:Er. clear Er.
  remember (newElement SChildElementClass (Schema ty i p l)) as new eqn:Enew.
  destruct (createChildren r l (<[r := new]> st)) as [st2 kids] eqn:E2.
  injection Hc as <- <-.
  assert (Hg1 : grows st (<[r := new]> st))
    by (apply grows_insert_fresh; [done | by subst new]).
  destruct (createChildren_grows r l IH _ _ _ E2) as [Hg2 Hkids].
  split; [|split; [done|]].
  - apply grows_set_children; [by eapply grows_trans | done |].
    eapply Forall_impl; [exact Hkids|]. intros c Hc. simpl in Hc.
    eapply extends_None; [apply Hg1 | done].
  - exists (set_children kids new). rewrite lookup_alter_eq.
    destruct Hg2 as [He2 _]. rewrite (He2 r new) by apply lookup_insert_eq.
    by subst new.
Qed.

Lemma asSchema_id fuel st e : schema_id (asSchema fuel st e) = id e.
Proof. by destruct fuel. Qed.


(** ** [parent.add(child)] *)

Lemma add_lookup_child rootRef p g st ge :
  st !! g = Some ge → g ≠ rootRef → g ≠ p →
  SParentElement_add rootRef p g st !! g = Some (set_parent (Some p) ge).
Proof.
  intros Hg Hgr Hgp. unfold SParentElement_add.
  rewrite lookup_alter_ne by done. rewrite lookup_alter_eq.
  rewrite lookup_alter_ne by done. by rewrite Hg.
Qed.

Lemma add_lookup_parent rootRef p g st pe :
  st !! p = Some pe → p ≠ g →
  ∃ pe', SParentElement_add rootRef p g st !! p = Some pe' ∧
         children pe' = children pe ++ [g] ∧ props pe' = props pe ∧
         cls pe' = cls pe ∧ id pe' = id pe ∧ parent pe' = parent pe.
Proof.
  intros Hp Hpg. unfold SParentElement_add.
  rewrite lookup_alter. case_decide; subst.
  - rewrite lookup_alter_ne by done. rewrite lookup_alter_eq, Hp. simpl. eauto 10.
  - rewrite lookup_alter_ne by done. rewrite lookup_alter_eq, Hp. simpl. eauto 10.
Qed.

Lemma add_lookup_other rootRef p g st k :
  k ≠ rootRef → k ≠ p → k ≠ g →
  SParentElement_add rootRef p g st !! k = st !! k.
Proof.
  intros. unfold SParentElement_add. by rewrite !lookup_alter_ne.
Qed.

Lemma add_same_props rootRef p g st : same_on props st (SParentElement_add rootRef p g st).
Proof.
  unfold SParentElement_add.
  eapply same_on_trans; [eapply same_on_trans|]; by apply same_on_alter.
Qed.

(** ** Fades (claim C4) *)


(** ** What a pass writes *)

Lemma only_at_refl r st : is_Some (st !! r) → only_at r st st.
Proof. intros Hr. split; [done | split; [done | exact Hr]]. Qed.

Lemma only_at_trans r st1 st2 st3 :
  only_at r st1 st2 → only_at r st2 st3 → only_at r st1 st3.
Proof.
  intros (H1 & Hi1 & Hr1) (H2 & Hi2 & Hr2). split; [|split; [|done]].
  - intros k Hk. by rewrite H2, H1.
  - by eapply same_on_trans.
Qed.

Lemma only_at_alter r f st :
  (∀ e, index (f e) = index e) → is_Some (st !! r) → only_at r st (alter f r st).
Proof.
  intros Hf Hr. split; [|split; [|done]].
  - intros k Hk. by rewrite lookup_alter_ne.
  - by apply same_on_alter.
Qed.

Ltac block_only_at :=
  repeat case_match; simplify_eq;
  first [ apply only_at_refl; by eexists
        | apply only_at_alter; [done | by eexists] ].

Lemma updatePosition_only_at left right st data st' data' :
  updatePosition left right st data = Some (st', data') → only_at right st st'.
Proof.
  rewrite updatePosition_unfold. intros Hu.
  destruct (st !! left) as [l|]; [|done].
  destruct (st !! right) as [r|] eqn:Hr; [|done]. simpl in Hu. block_only_at.
Qed.

Lemma updateBounds_only_at left right st data st' data' :
  updateBounds left right st data = Some (st', data') → only_at right st st'.
Proof.
  rewrite updateBounds_unfold. intros Hu.
  destruct (st !! left) as [l|]; [|done].
  destruct (st !! right) as [r|] eqn:Hr; [|done]. simpl in Hu. block_only_at.
Qed.

Lemma updateSelected_only_at left right st st' :
  updateSelected left right st = Some st' → only_at right st st'.
Proof.
  unfold updateSelected. intros Hu.
  destruct (st !! left) as [l|]; [|done].
  destruct (st !! right) as [r|] eqn:Hr; [|done]. simpl in Hu. block_only_at.
Qed.

Lemma updateCanvasBounds_only_at left right st st' :
  updateCanvasBounds left right st = Some st' → only_at right st st'.
Proof.
  unfold updateCanvasBounds. intros Hu.
  destruct (st !! left) as [l|]; [|done].
  destruct (st !! right) as [r|] eqn:Hr; [|done]. simpl in Hu. block_only_at.
Qed.

Lemma updateViewport_only_at left right st st' :
  updateViewport left right st = Some st' → only_at right st st'.
Proof.
  unfold updateViewport. intros Hu.
  destruct (st !! left) as [l|]; [|done].
  destruct (st !! right) as [r|] eqn:Hr; [|done]. simpl in Hu.
  case_match; simplify_eq; [|apply only_at_refl; by eexists].
  apply (only_at_trans _ _ (alter (set_scroll (scroll l)) right st));
    (apply only_at_alter; [done|]); [by eexists|].
  rewrite lookup_alter_eq, Hr. by eexists.
Qed.

Lemma updateElement_only_at left right st data st' data' :
  updateElement left right st data = Some (st', data') → only_at right st st'.
Proof.
  unfold updateElement. intros Hu.
  destruct (updatePosition left right st data) as [[st1 d1]|] eqn:H1; [|done].
  simpl in Hu.
  destruct (updateBounds left right st1 d1) as [[st2 d2]|] eqn:H2; [|done].
  simpl in Hu.
  destruct (updateSelected left right st2) as [st3|] eqn:H3; [|done]. simpl in Hu.
  destruct (updateCanvasBounds left right st3) as [st4|] eqn:H4; [|done]. simpl in Hu.
  destruct (updateViewport left right st4) as [st5|] eqn:H5; [|done]. simpl in Hu.
  simplify_eq.
  apply updatePosition_only_at in H1. apply updateBounds_only_at in H2.
  apply updateSelected_only_at in H3. apply updateCanvasBounds_only_at in H4.
  apply updateViewport_only_at in H5.
  eapply only_at_trans; [exact H1|]. eapply only_at_trans; [exact H2|].
  eapply only_at_trans; [exact H3|]. by eapply only_at_trans.
Qed.

Lemma live_mono_refl st : live_mono st st.
Proof. by intros k. Qed.

Lemma live_mono_trans st1 st2 st3 : live_mono st1 st2 → live_mono st2 st3 → live_mono st1 st3.
Proof. intros H12 H23 k Hk. eauto. Qed.

Lemma live_mono_alter f r st : live_mono st (alter f r st).
Proof.
  intros k [e He]. rewrite lookup_alter. case_decide; subst; rewrite He; by eexists.
Qed.

Lemma only_at_live_mono r st st' : only_at r st st' → live_mono st st'.
Proof. intros (_ & Hi & _) k Hk. by eapply same_on_is_Some. Qed.

Lemma extends_live_mono st st' : extends st st' → live_mono st st'.
Proof. intros He k [e Hk]. exists e. eauto. Qed.

Lemma add_live_mono rootRef p g st : live_mono st (SParentElement_add rootRef p g st).
Proof.
  unfold SParentElement_add.
  eapply live_mono_trans; [eapply live_mono_trans|]; apply live_mono_alter.
Qed.

(** The four ways in which one step of the loop of [computeAnimation] ends. *)
Lemma computeStep_inv newRootRef (m : Match ref) st data st' data' :
  computeStep newRootRef m st data = Some (st', data') →
  (∃ l r, left m = Some l ∧ right m = Some r ∧
          updateElement l r st data = Some (st', data')) ∨
  (∃ r re, right m = Some r ∧ st !! r = Some re ∧
           st' = alter (set_opacity (Some zero)) r st ∧
           data' = push_fade {| fade_element := r; fade_type := FadeIn |} data) ∨
  (∃ l le nr pid p pe st1 leftCopy,
     left m = Some l ∧ st !! l = Some le ∧ st !! newRootRef = Some nr ∧
     index nr !! pid = Some p ∧ st !! p = Some pe ∧
     createElement (asSchema (size st) st le) st = (st1, leftCopy) ∧
     st' = SParentElement_add newRootRef p leftCopy st1 ∧
     data' = push_fade {| fade_element := leftCopy; fade_type := FadeOut |} data) ∨
  (st' = st ∧ data' = data).
Proof.
  unfold computeStep. intros Hs.
  destruct (left m) as [l|], (right m) as [r|].
  - left. eauto.
  - destruct (st !! l) as [le|] eqn:Hle; [|done]. simpl in Hs.
    destruct (instanceofSChildElement (cls le)); [|simplify_eq; by eauto 10].
    destruct (isFadeable le); [|simplify_eq; by eauto 10].
    destruct (leftParentId m) as [pid|]; [|simplify_eq; by eauto 10].
    destruct (st !! newRootRef) as [nr|] eqn:Hnr; [|done]. simpl in Hs.
    destruct (index nr !! id le); [simplify_eq; by eauto 10|].
    destruct (index nr !! pid) as [p|] eqn:Hp; [|simplify_eq; by eauto 10].
    destruct (st !! p) as [pe|] eqn:Hpe; [|done]. simpl in Hs.
    destruct (instanceofSParentElement (cls pe)); [|simplify_eq; by eauto 10].
    destruct (createElement (asSchema (size st) st le) st) as [st1 g] eqn:E.
    simplify_eq. right. right. left.
    exists l, le, nr, pid, p, pe, st1, g. by repeat split.
  - destruct (st !! r) as [re|] eqn:Hre; [|done]. simpl in Hs.
    destruct (isFadeable re); simplify_eq; [|by eauto 10].
    right. left. by exists r, re.
  - simplify_eq. by eauto 10.
Qed.

Lemma computeStep_live newRootRef (m : Match ref) st data st' data' :
  computeStep newRootRef m st data = Some (st', data') → live_mono st st'.
Proof.
  intros Hs. apply computeStep_inv in Hs
    as [(l & r & _ & _ & Hu) | [(r & re & _ & _ & -> & _) |
        [(l & le & nr & pid & p & pe & st1 & g & _ & _ & _ & _ & _ & E & -> & _) |
         [-> _]]]].
  - eapply only_at_live_mono, updateElement_only_at, Hu.
  - apply live_mono_alter.
  - destruct (createElement_created _ _ _ _ E) as ([He _] & _).
    eapply live_mono_trans; [by apply extends_live_mono | apply add_live_mono].
  - apply live_mono_refl.
Qed.

(** ** Selection of the animation (claim C1) *)

Lemma resizes_live_mono st st' data :
  live_mono st st' → resizes_live st data → resizes_live st' data.
Proof.
  intros Hm Hl. eapply Forall_impl; [exact Hl|]. intros rz. apply Hm.
Qed.

Lemma updateElement_resizes left right st data st' data' :
  updateElement left right st data = Some (st', data') →
  resizes_live st data → resizes_live st data'.
Proof.
  unfold updateElement. intros Hu Hlive.
  destruct (updatePosition left right st data) as [[st1 d1]|] eqn:H1; [|done].
  simpl in Hu.
  destruct (updateBounds left right st1 d1) as [[st2 d2]|] eqn:H2; [|done].
  simpl in Hu.
  assert (d2 = data') as -> by (by simplify_option_eq).
  pose proof (updatePosition_frame _ _ _ _ _ _ H1) as (_&_&_&_&_&_& Hr1 & _).
  pose proof (updatePosition_only_at _ _ _ _ _ _ H1) as (_ & _ & Hright).
  clear Hu. rewrite updateBounds_unfold in H2.
  destruct (st1 !! left) as [l|]; [|done].
  destruct (st1 !! right) as [r|]; [|done]. simpl in H2.
  unfold resizes_live in *.
  repeat case_match; simplify_eq; simpl; rewrite ?Hr1; try done.
  apply Forall_app. split; [done|]. by constructor.
Qed.

Lemma computeStep_resizes newRootRef (m : Match ref) st data st' data' :
  computeStep newRootRef m st data = Some (st', data') →
  resizes_live st data → resizes_live st' data'.
Proof.
  intros Hs Hlive. pose proof (computeStep_live _ _ _ _ _ _ Hs) as Hmono.
  eapply resizes_live_mono; [exact Hmono|].
  apply computeStep_inv in Hs
    as [(l & r & _ & _ & Hu) | [(r & re & _ & _ & _ & ->) |
        [(l & le & nr & pid & p & pe & st1 & g & _ & _ & _ & _ & _ & _ & _ & ->) |
         [_ ->]]]]; [|done..].
  by eapply updateElement_resizes.
Qed.

Lemma computeLoop_resizes newRootRef (matchResult : list (string * Match ref)) :
  ∀ st data st' data',
    computeLoop newRootRef matchResult st data = Some (st', data') →
    resizes_live st data → resizes_live st' data'.
Proof.
  induction matchResult as [|[i m] rest IH]; intros st data st' data' Hl Hlive;
    simpl in Hl.
  - by simplify_eq.
  - destruct (computeStep newRootRef m st data) as [[st1 d1]|] eqn:E; [|done].
    simpl in Hl. eauto using computeStep_resizes.
Qed.

Lemma resizesMap_total st (l : list (@ResolvedElementResize num)) :
  Forall (λ rz, is_Some (st !! resize_element rz)) l →
  ∀ m, is_Some (resizesMap st l m).
Proof.
  induction 1 as [|rz l [e He] _ IH]; intros m; simpl; [by eexists|].
  rewrite He. simpl. apply IH.
Qed.

(** C1. When the loop of [computeAnimation] has collected its animation
    data: with no non-empty job sequence [computeAnimation] returns the new
    root itself; with exactly one it returns the fade, move or resize
    animation of that sequence; with two or more it returns a
    [CompoundAnimation] with as many components as there are non-empty
    sequences. *)
Theorem computeAnimation_selection newRootRef (matchResult : list (string * Match ref))
    context st st' data :
  computeLoop newRootRef (forIn matchResult) st emptyAnimationData = Some (st', data) →
  ∃ result,
    computeAnimation newRootRef matchResult context st = Some (st', result) ∧
    (nonEmptyCount data = 0 → result = inl newRootRef) ∧
    (nonEmptyCount data = 1 →
       (nonEmpty (Some (fades data)) = true ∧
        result = inr (FadeAnimation newRootRef (fades data) context true)) ∨
       (nonEmpty (moves data) = true ∧
        result = inr (MoveAnimation newRootRef (movesMap (default [] (moves data)))
                        context false)) ∨
       (nonEmpty (resizes data) = true ∧
        ∃ rm, resizesMap st' (default [] (resizes data)) ∅ = Some rm ∧
              result = inr (ResizeAnimation newRootRef rm context false))) ∧
    (2 ≤ nonEmptyCount data →
       ∃ animations,
         result = inr (CompoundAnimation newRootRef context animations) ∧
         length animations = nonEmptyCount data).
Proof.
  intros Hloop.
  assert (Hlive : resizes_live st' data).
  { eapply computeLoop_resizes; [exact Hloop|]. constructor. }
  destruct (resizesMap_total st' _ Hlive ∅) as [rm Hrm].
  unfold computeAnimation, createAnimations, nonEmptyCount. rewrite Hloop. simpl.
  rewrite Hrm.
  destruct (fades data) as [|f fs], (nonEmpty (moves data)), (nonEmpty (resizes data));
    cbn [nonEmpty app mbind option_bind mret option_ret];
    (eexists; split; [reflexivity|]);
    (split; [|split]); intros Hc; cbn in Hc; try (exfalso; lia); clear Hc;
    first [ reflexivity
          | left; split; reflexivity
          | right; left; split; reflexivity
          | right; right; split; [reflexivity|]; eexists; split; reflexivity
          | eexists; split; reflexivity ].
Qed.

(** ** [convertToMatchResult] (claim C5) *)

Lemma convertMatch_eq st leftRoot rightRoot lr rr m :
  st !! leftRoot = Some lr → st !! rightRoot = Some rr →
  convertMatch st leftRoot rightRoot m = Some (directiveKey m, converted lr rr m).
Proof.
  intros Hl Hr. unfold convertMatch, directiveKey, converted.
  destruct m as [[l|] [r|] lp rp]; simpl; rewrite ?Hl, ?Hr; done.
Qed.

Lemma assignOwn_keys i (m : Match ref) (result : list (string * Match ref)) j :
  j ∈ (assignOwn i m result).*1 ↔ j = i ∨ j ∈ result.*1.
Proof.
  induction result as [|[k n] rest IH]; simpl.
  - rewrite list_elem_of_singleton. split; [by left | intros [?|Hn]; [done|]].
    by apply elem_of_nil in Hn.
  - case_decide; subst; simpl; rewrite !elem_of_cons; [tauto|].
    rewrite IH. tauto.
Qed.

Lemma assignOwn_entries i (m : Match ref) (result : list (string * Match ref)) j c :
  (j, c) ∈ assignOwn i m result → (j = i ∧ c = m) ∨ (j, c) ∈ result.
Proof.
  induction result as [|[k n] rest IH]; simpl.
  - rewrite list_elem_of_singleton. intros [= -> ->]. by left.
  - case_decide; subst; rewrite !elem_of_cons.
    + intros [[= -> ->]|Hin]; [by left | right; by right].
    + intros [[= -> ->]|Hin]; [right; by left |].
      destruct (IH Hin) as [?|?]; [by left | right; by right].
Qed.

Lemma assignOwn_NoDup i (m : Match ref) (result : list (string * Match ref)) :
  NoDup result.*1 → NoDup (assignOwn i m result).*1.
Proof.
  induction result as [|[k n] rest IH]; simpl; intros Hnd.
  - apply NoDup_singleton.
  - apply NoDup_cons in Hnd as [Hk Hrest]. case_decide; subst; simpl.
    + by apply NoDup_cons.
    + apply NoDup_cons. split; [|by apply IH].
      rewrite assignOwn_keys. intros [?|?]; [congruence | done].
Qed.

(** The two cases of an assignment to an object that has no own property
    [__proto__]. *)
Lemma assign_proto (m : Match ref) (result : list (string * Match ref)) :
  "__proto__" ∉ result.*1 → assign "__proto__" m result = result.
Proof. intros Hn. unfold assign. by rewrite decide_True. Qed.

Lemma assign_other i (m : Match ref) (result : list (string * Match ref)) :
  i ≠ "__proto__" → assign i m result = assignOwn i m result.
Proof. intros Hne. unfold assign. rewrite decide_False; [done|]. by intros [? _]. Qed.

Lemma convertLoop_spec st leftRoot rightRoot lr rr
    (ms : list (Match (@SModelElementSchema num))) :
  st !! leftRoot = Some lr → st !! rightRoot = Some rr →
  ∀ acc, "__proto__" ∉ acc.*1 → ∃ result,
    convertLoop st leftRoot rightRoot ms acc = Some result ∧
    (NoDup acc.*1 → NoDup result.*1) ∧
    ("__proto__" ∉ result.*1) ∧
    (∀ i, i ∈ result.*1 ↔
       i ∈ acc.*1 ∨ (i ≠ "__proto__" ∧ ∃ m, m ∈ ms ∧ directiveKey m = Some i)) ∧
    (∀ i c, (i, c) ∈ result →
       (i, c) ∈ acc ∨ ∃ m, m ∈ ms ∧ directiveKey m = Some i ∧ c = converted lr rr m).
Proof.
  intros Hl Hr. induction ms as [|m ms IH]; intros acc Hproto; simpl.
  - exists acc. split; [done|]. split; [done|]. split; [done|]. split.
    + intros i. split; [by left | intros [?|(_ & m & Hm & _)]; [done|]].
      by apply elem_of_nil in Hm.
    + intros i c Hin. by left.
  - rewrite (convertMatch_eq _ _ _ lr rr) by done. simpl.
    destruct (directiveKey m) as [k|] eqn:Hk.
    + destruct (decide (k = "__proto__")) as [->|Hne].
      * rewrite assign_proto by done.
        destruct (IH acc Hproto) as (result & -> & Hnd & Hp & Hkeys & Hent).
        exists result. split; [done|]. split; [done|]. split; [done|]. split.
        -- intros i. rewrite Hkeys. split.
           ++ intros [?|(Hi & m' & Hm' & Hk')]; [by left|right].
              split; [done|]. exists m'. split; [by right | done].
           ++ intros [?|(Hi & m' & Hm' & Hk')]; [by left|].
              apply elem_of_cons in Hm' as [->|Hm']; [congruence|]. right. eauto.
        -- intros i c Hin. destruct (Hent i c Hin) as [Ha|(m' & Hm' & Hk' & ->)];
             [by left|]. right. exists m'. split; [by right | done].
      * rewrite assign_other by done.
        assert (Hproto' : "__proto__" ∉ (assignOwn k (converted lr rr m) acc).*1).
        { rewrite assignOwn_keys. intros [?|?]; [congruence|done]. }
        destruct (IH _ Hproto') as (result & -> & Hnd & Hp & Hkeys & Hent).
        exists result. split; [done|]. split; [|split; [done|split]].
        -- intros Hacc. by apply Hnd, assignOwn_NoDup.
        -- intros i. rewrite Hkeys, assignOwn_keys. split.
           ++ intros [[->|?]|(Hi & m' & Hm' & Hk')]; [right|by left|right].
              ** split; [done|]. exists m. split; [by left | done].
              ** split; [done|]. exists m'. split; [by right | done].
           ++ intros [?|(Hi & m' & Hm' & Hk')]; [left; by right|].
              apply elem_of_cons in Hm' as [->|Hm']; [left; left; congruence|].
              right. eauto.
        -- intros i c Hin. destruct (Hent i c Hin) as [Ha|(m' & Hm' & Hk' & ->)].
           ++ apply assignOwn_entries in Ha as [[-> ->]|?]; [right|by left].
              exists m. split; [by left | done].
           ++ right. exists m'. split; [by right | done].
    + destruct (IH acc Hproto) as (result & -> & Hnd & Hp & Hkeys & Hent).
      exists result. split; [done|]. split; [done|]. split; [done|]. split.
      * intros i. rewrite Hkeys. split.
        -- intros [?|(Hi & m' & Hm' & Hk')]; [by left|right].
           split; [done|]. exists m'. split; [by right | done].
        -- intros [?|(Hi & m' & Hm' & Hk')]; [by left|].
           apply elem_of_cons in Hm' as [->|Hm']; [congruence|]. right. eauto.
      * intros i c Hin. destruct (Hent i c Hin) as [Ha|(m' & Hm' & Hk' & ->)];
          [by left|]. right. exists m'. split; [by right | done].
Qed.

(** C5, as amended.  On two live roots, and for directives none of which is
    keyed by the name [__proto__], [convertToMatchResult] returns a match
    result whose keys are pairwise distinct and are exactly the keys of the
    directives: for each directive that names a side, the identifier of its
    new side if it has one, else the identifier of its old side.  Every
    keyed match is the conversion of such a directive, and it has at least
    one side defined when the identifiers that the directives name resolve in
    the index of their root. *)
Theorem convertToMatchResult_keys (ms : list (Match (@SModelElementSchema num)))
    leftRoot rightRoot st lr rr :
  st !! leftRoot = Some lr → st !! rightRoot = Some rr →
  Forall (λ m, directiveKey m ≠ Some "__proto__") ms →
  ∃ result,
    convertToMatchResult ms leftRoot rightRoot st = Some result ∧
    NoDup result.*1 ∧
    (∀ i, i ∈ result.*1 ↔ ∃ m, m ∈ ms ∧ directiveKey m = Some i) ∧
    (∀ i c, (i, c) ∈ result →
       ∃ m, m ∈ ms ∧ directiveKey m = Some i ∧ c = converted lr rr m) ∧
    (directivesResolve lr rr ms →
       ∀ i c, (i, c) ∈ result → is_Some (left c) ∨ is_Some (right c)).
Proof.
  intros Hl Hr Hplain. unfold convertToMatchResult.
  destruct (convertLoop_spec st leftRoot rightRoot lr rr ms Hl Hr [])
    as (result & -> & Hnd & _ & Hkeys & Hent); [apply not_elem_of_nil|].
  assert (Hent' : ∀ i c, (i, c) ∈ result →
    ∃ m, m ∈ ms ∧ directiveKey m = Some i ∧ c = converted lr rr m).
  { intros i c Hin. destruct (Hent i c Hin) as [Hn|?]; [|done].
    by apply elem_of_nil in Hn. }
  exists result. split; [done|]. split; [apply Hnd, NoDup_nil; done|]. split; [|split; [done|]].
  - intros i. rewrite Hkeys. split.
    + intros [Hn|[_ ?]]; [|done]. by apply elem_of_nil in Hn.
    + intros (m & Hm & Hk). right. split; [|by exists m].
      intros ->. rewrite Forall_forall in Hplain. by apply (Hplain m Hm).
  - intros Hres i c Hin. destruct (Hent' i c Hin) as (m & Hm & Hk & ->).
    destruct (Hres m Hm) as [Hleft Hright]. unfold directiveKey in Hk.
    destruct m as [l r lp rp]; simpl in *. destruct r as [r|].
    + right. simpl. by apply Hright.
    + destruct l as [l|]; [|done]. left. simpl. by apply Hleft.
Qed.

(** ** The instantaneous update (claim C6) *)

(** C6. The constructor of the command makes an undefined [animate] flag
    true and keeps a defined one.  When the flag is false, or the two roots
    have different identifiers, [performUpdate] returns the new root itself
    and the store differs only in the canvas bounds of the new root, which
    are then those of the old root: every other property of the new root
    reads as before, no other object is written, and no animation is
    started. *)
Theorem performUpdate_instantaneous (a : @UpdateModelAction num) oldRootRef newRootRef
    context st o n :
  st !! oldRootRef = Some o → st !! newRootRef = Some n →
  animate a = Some false ∨ id o ≠ id n →
  animate (action (UpdateModelCommand_new a)) = Some (default true (animate a)) ∧
  ∃ st' n',
    performUpdate (action (UpdateModelCommand_new a)) oldRootRef newRootRef context st
      = Some (st', ResultRoot newRootRef) ∧
    st' !! newRootRef = Some n' ∧
    canvasBounds n' = canvasBounds o ∧
    structure n' = structure n ∧
    position n' = position n ∧ bounds n' = bounds n ∧ selected n' = selected n ∧
    scroll n' = scroll n ∧ zoom n' = zoom n ∧
    ∀ k, k ≠ newRootRef → st' !! k = st !! k.
Proof.
  intros Ho Hn Hcase. split; [by destruct a as [? ? [[]|]]|].
  exists (alter (set_canvasBounds (canvasBounds o)) newRootRef st),
    (set_canvasBounds (canvasBounds o) n).
  split; [|split; [|do 7 (split; [done|])]].
  - unfold performUpdate. rewrite Ho, Hn. simpl.
    destruct Hcase as [Ha|Hid].
    + unfold UpdateModelCommand_new. simpl. rewrite Ha. simpl.
      rewrite Ha. by rewrite bool_decide_eq_false_2.
    + rewrite (bool_decide_eq_false_2 (id o = id n)) by done.
      by rewrite andb_false_r.
  - by rewrite lookup_alter_eq, Hn.
  - intros k Hk. by rewrite lookup_alter_ne.
Qed.

(** ** Unresolved parent identifiers (claim C7) *)

(** C7, as amended.  In [applyMatches], when the parent identifier of the
    new side of a directive is absent, is not in the index of the root, or
    resolves to an object that is not a parent element, the created element
    is appended to the children of the root, with the root as its parent,
    and the step does not fail.  In [computeAnimation], when the parent
    identifier of a removed element is not in the index of the new root or
    resolves to an object that is not a parent element, the step leaves the
    store and the animation data as they are: no copy is created or
    attached and no fade-out is queued; it does not fail either. *)
Theorem unresolved_parent :
  (∀ rootRef (m : Match (@SModelElementSchema num)) s st re,
     right m = Some s → st !! rootRef = Some re →
     rightParentId m ≫= (λ pid, index re !! pid) = None ∨
       (∃ p pe, rightParentId m ≫= (λ pid, index re !! pid) = Some p ∧
                st !! p = Some pe ∧ instanceofSParentElement (cls pe) = false) →
     ∃ st' element ee re',
       applyMatchRight rootRef m st = Some st' ∧
       st !! element = None ∧ st' !! element = Some ee ∧
       id ee = schema_id s ∧ parent ee = Some rootRef ∧
       st' !! rootRef = Some re' ∧ children re' = children re ++ [element]) ∧
  (∀ newRootRef (m : Match ref) st (data : @UpdateAnimationData num) l le nr pid,
     left m = Some l → right m = None → leftParentId m = Some pid →
     st !! l = Some le → st !! newRootRef = Some nr →
     index nr !! pid = None ∨
       (∃ p pe, index nr !! pid = Some p ∧ st !! p = Some pe ∧
                instanceofSParentElement (cls pe) = false) →
     computeStep newRootRef m st data = Some (st, data)).
Proof.
  split.
  - intros rootRef m s st re Hright Hroot Hunres.
    unfold applyMatchRight. rewrite Hright.
    destruct (createElement s st) as [st2 g] eqn:E.
    destruct (createElement_created _ _ _ _ E)
      as ([Hext _] & Hg & ge & Hge & _ & Hgid & _ & _).
    rewrite (Hext _ _ Hroot). simpl.
    assert (g ≠ rootRef) by congruence.
    destruct (add_lookup_parent rootRef rootRef g st2 re (Hext _ _ Hroot))
      as (re' & Hre' & Hkids & _); [done|].
    exists (SParentElement_add rootRef rootRef g st2), g,
      (set_parent (Some rootRef) ge), re'.
    rewrite (add_lookup_child rootRef rootRef g st2 ge) by done.
    destruct Hunres as [->|(p & pe & -> & Hpe & Hcls)].
    + by repeat split.
    + rewrite (Hext _ _ Hpe). simpl. rewrite Hcls. by repeat split.
  - intros newRootRef m st data l le nr pid Hl Hr Hpid Hle Hnr Hunres.
    unfold computeStep. rewrite Hl, Hr, Hle. simpl. rewrite Hpid.
    destruct (instanceofSChildElement (cls le)); [|done].
    destruct (isFadeable le); [|done].
    rewrite Hnr. simpl. destruct (index nr !! id le); [done|].
    destruct Hunres as [->|(p & pe & -> & -> & Hcls)]; [done|].
    simpl. by rewrite Hcls.
Qed.

(** ** The frame of a pass (claim C10) *)

Lemma subtree_fresh st st' :
  fresh_closed st st' →
  ∀ fuel g k, st !! g = None → k ∈ subtree fuel st' g → st !! k = None.
Proof.
  intros Hc. induction fuel as [|f IH]; intros g k Hg Hk; simpl in Hk.
  - by apply elem_of_nil in Hk.
  - apply elem_of_cons in Hk as [->|Hk]; [done|].
    destruct (st' !! g) as [e|] eqn:E; [|by apply elem_of_nil in Hk].
    apply list_elem_of_In, in_flat_map in Hk as (c & Hc' & Hk).
    apply list_elem_of_In in Hc', Hk. eauto.
Qed.

Lemma indexAdd_lookup st rs : ∀ (idx : gmap string ref) i k,
  indexAdd st rs idx !! i = Some k → idx !! i = Some k ∨ k ∈ rs.
Proof.
  unfold indexAdd. induction rs as [|r rs IH]; intros idx i k Hl; cbn in Hl.
  - by left.
  - apply IH in Hl as [Hl|Hl]; [|right; by right].
    destruct (st !! r) as [e|]; [|by left].
    rewrite lookup_insert in Hl. case_decide; simplify_eq; [right; by left | by left].
Qed.

Lemma fresh_closed_alter_old st st' f r :
  is_Some (st !! r) → fresh_closed st st' → fresh_closed st (alter f r st').
Proof.
  intros [e0 Hr] Hc k e c Hk Hk' Hin. rewrite lookup_alter_ne in Hk' by congruence.
  eauto.
Qed.

Lemma fresh_closed_alter_keep st st' f r :
  (∀ e, children (f e) = children e) → fresh_closed st st' →
  fresh_closed st (alter f r st').
Proof.
  intros Hf Hc k e c Hk Hk' Hin. rewrite lookup_alter in Hk'.
  case_decide; [|eauto]. subst.
  destruct (st' !! k) as [e'|] eqn:E'; simplify_eq/=. rewrite Hf in Hin. eauto.
Qed.

Lemma unchanged_refl P st : unchanged P st st.
Proof. by intros k e. Qed.

Lemma unchanged_trans P st1 st2 st3 :
  unchanged P st1 st2 → unchanged P st2 st3 → unchanged P st1 st3.
Proof. intros H12 H23 k e HP Hk. eauto. Qed.

Lemma only_at_frame P newRootRef r st st' :
  only_at r st st' → ¬ P r → protects P newRootRef st →
  unchanged P st st' ∧ protects P newRootRef st'.
Proof.
  intros Hat HPr (Hlive & Hroot & Hidx).
  pose proof (only_at_live_mono _ _ _ Hat) as Hmono.
  destruct Hat as (Hne & Hi & _). split; [|split; [|split]].
  - intros k e HP Hk. rewrite Hne; [done | congruence].
  - intros k HP. eauto.
  - done.
  - intros nr' i k Hnr' Hik. specialize (Hi newRootRef). rewrite Hnr' in Hi.
    destruct (st !! newRootRef) as [nr|] eqn:Hnr; simplify_eq/=.
    eapply Hidx; [done|]. by rewrite <- Hi.
Qed.

Lemma add_frame P newRootRef p g st st1 nr i0 :
  protects P newRootRef st → grows st st1 → st !! g = None →
  st !! newRootRef = Some nr → index nr !! i0 = Some p → is_Some (st !! p) →
  unchanged P st (SParentElement_add newRootRef p g st1) ∧
  protects P newRootRef (SParentElement_add newRootRef p g st1).
Proof.
  intros (Hlive & Hroot & Hidx) [Hext Hclosed] Hg Hnr Hp Hplive.
  assert (HPp : ¬ P p) by eauto.
  assert (HPg : ¬ P g).
  { intros HP. destruct (Hlive _ HP) as [? ?]. congruence. }
  split; [|split; [|split]].
  - intros k e HP Hk. rewrite add_lookup_other by congruence. eauto.
  - intros k HP. apply add_live_mono, (extends_live_mono _ _ Hext). eauto.
  - done.
  - intros nr' i k Hnr' Hik. unfold SParentElement_add in Hnr'.
    set (st2 := alter (set_parent (Some p)) g
                  (alter (λ e, set_children (children e ++ [g]) e) p st1)) in *.
    assert (Hc2 : fresh_closed st st2).
    { apply fresh_closed_alter_keep; [done|]. by apply fresh_closed_alter_old. }
    assert (Hi2 : index <$> st2 !! newRootRef = Some (index nr)).
    { unfold st2. rewrite !alter_lookup_proj by done. by rewrite (Hext _ _ Hnr). }
    rewrite lookup_alter_eq in Hnr'.
    destruct (st2 !! newRootRef) as [nr2|] eqn:Hnr2; simplify_eq/=.
    apply indexAdd_lookup in Hik as [Hik|Hik].
    + rewrite Hi2 in Hik. eauto.
    + intros HP. destruct (Hlive _ HP) as [e He].
      unfold descendants in Hik.
      pose proof (subtree_fresh st st2 Hc2 _ _ _ Hg Hik). congruence.
Qed.

Lemma computeStep_frame P newRootRef (m : Match ref) st data st' data' :
  protects P newRootRef st → (∀ r, right m = Some r → ¬ P r) →
  computeStep newRootRef m st data = Some (st', data') →
  unchanged P st st' ∧ protects P newRootRef st'.
Proof.
  intros Hprot Hright Hs. apply computeStep_inv in Hs
    as [(l & r & _ & Hr & Hu) | [(r & re & Hr & Hre & -> & _) |
        [(l & le & nr & pid & p & pe & st1 & g & _ & _ & Hnr & Hp & Hpe & E & -> & _) |
         [-> _]]]].
  - eapply only_at_frame; [by eapply updateElement_only_at | eauto | done].
  - eapply only_at_frame; [|eauto|done].
    apply only_at_alter; [done | by eexists].
  - destruct (createElement_created _ _ _ _ E) as (Hgrows & Hg & _).
    eapply add_frame; eauto.
  - split; [apply unchanged_refl | done].
Qed.

Lemma computeLoop_frame P newRootRef (matchResult : list (string * Match ref)) :
  ∀ st data st' data',
    protects P newRootRef st →
    (∀ i m r, (i, m) ∈ matchResult → right m = Some r → ¬ P r) →
    computeLoop newRootRef matchResult st data = Some (st', data') →
    unchanged P st st'.
Proof.
  induction matchResult as [|[i m] rest IH]; intros st data st' data' Hprot Hright Hl;
    simpl in Hl.
  - simplify_eq. apply unchanged_refl.
  - destruct (computeStep newRootRef m st data) as [[st1 d1]|] eqn:E; [|done].
    simpl in Hl.
    destruct (computeStep_frame P newRootRef m st data st1 d1 Hprot) as [Hu Hp1];
      [intros r; apply (Hright i m r); by left | done |].
    eapply unchanged_trans; [exact Hu|].
    eapply IH; [exact Hp1 | | exact Hl].
    intros i' m' r' Hin. apply (Hright i' m' r'). by right.
Qed.

Lemma ModelMatcher_right st oldRootRef newRootRef n matchResult :
  st !! newRootRef = Some n →
  ModelMatcher_match st oldRootRef newRootRef = Some matchResult →
  ∀ i m r, (i, m) ∈ matchResult → right m = Some r → index n !! i = Some r.
Proof.
  intros Hn Hm i m r Hin Hr. unfold ModelMatcher_match in Hm.
  destruct (st !! oldRootRef) as [o|]; [|done]. rewrite Hn in Hm. simpl in Hm.
  simplify_eq. apply elem_of_map_to_list in Hin. rewrite lookup_merge in Hin.
  destruct (index o !! i), (index n !! i); simplify_eq/=; done.
Qed.

Lemma insertIndexed_elem_of k (e : string * Match ref) l x :
  x ∈ (insertIndexed k e l).*2 ↔ x = e ∨ x ∈ l.*2.
Proof.
  induction l as [|[k' e'] l IH]; simpl.
  - rewrite list_elem_of_singleton. split; [by left | intros [?|Hn]; [done|]].
    by apply elem_of_nil in Hn.
  - destruct (k <? k')%N; simpl; rewrite !elem_of_cons; [done|].
    rewrite IH. tauto.
Qed.

(** [for ... in] visits exactly the properties of the object. *)
Lemma forIn_elem_of (result : list (string * Match ref)) x :
  x ∈ forIn result ↔ x ∈ result.
Proof.
  unfold forIn. rewrite elem_of_app.
  induction result as [|e rest IH]; simpl.
  - split; [intros [Hn|Hn]; by apply elem_of_nil in Hn | intros Hn; by left].
  - rewrite elem_of_cons, <- IH. destruct (arrayIndex e.1); simpl.
    + rewrite insertIndexed_elem_of. tauto.
    + rewrite elem_of_cons. tauto.
Qed.

Lemma convertToMatchResult_right (ms : list (Match (@SModelElementSchema num)))
    leftRoot rightRoot st lr rr result :
  st !! leftRoot = Some lr → st !! rightRoot = Some rr →
  convertToMatchResult ms leftRoot rightRoot st = Some result →
  ∀ i m r, (i, m) ∈ result → right m = Some r → ∃ j, index rr !! j = Some r.
Proof.
  intros Hl Hr Hc i m r Hin Hright. unfold convertToMatchResult in Hc.
  destruct (convertLoop_spec st leftRoot rightRoot lr rr ms Hl Hr [])
    as (result' & Hres & _ & _ & _ & Hent); [apply not_elem_of_nil|].
  rewrite Hres in Hc. simplify_eq.
  destruct (Hent i m Hin) as [Hn|(d & _ & _ & ->)]; [by apply elem_of_nil in Hn|].
  simpl in Hright. destruct (right d) as [s|]; [|done]. simpl in Hright. eauto.
Qed.

Lemma computeAnimation_loop newRootRef (matchResult : list (string * Match ref))
    context st st' result :
  computeAnimation newRootRef matchResult context st = Some (st', result) →
  ∃ data,
    computeLoop newRootRef (forIn matchResult) st emptyAnimationData = Some (st', data).
Proof.
  unfold computeAnimation. intros Hc.
  destruct (computeLoop newRootRef (forIn matchResult) st emptyAnimationData)
    as [[st1 data]|]; [|done]. simpl in Hc.
  destruct (createAnimations data newRootRef context st1) as [[|? [|? ?]]|];
    simplify_eq/=; eauto.
Qed.

(** What a pass writes: every object of the store that is neither the new
    root nor held by the index of the new root is left as it is. *)
Lemma performUpdate_writes (a : @UpdateModelAction num) oldRootRef newRootRef
    context st st' result o n :
  st !! oldRootRef = Some o → st !! newRootRef = Some n →
  performUpdate a oldRootRef newRootRef context st = Some (st', result) →
  ∀ k e, st !! k = Some e → k ≠ newRootRef → (∀ i, index n !! i ≠ Some k) →
         st' !! k = Some e.
Proof.
  intros Ho Hn Hp k e Hk Hkn Hki. unfold performUpdate in Hp. rewrite Ho, Hn in Hp.
  simpl in Hp. case_match.
  - set (P := λ k' : ref, k' = k).
    assert (Hprot : protects P newRootRef st).
    { split; [|split].
      - intros k' ->. by eexists.
      - unfold P. congruence.
      - intros nr i k' Hnr Hik ->. simplify_eq. by eapply Hki. }
    destruct (match matches a with
              | Some ms => convertToMatchResult ms oldRootRef newRootRef st
              | None => ModelMatcher_match st oldRootRef newRootRef
              end) as [matchResult|] eqn:Hmr; [|done]. simpl in Hp.
    destruct (computeAnimation newRootRef matchResult context st)
      as [[st1 aor]|] eqn:Hca; [|done]. simpl in Hp.
    assert (st1 = st') as -> by (destruct aor; by simplify_eq).
    destruct (computeAnimation_loop _ _ _ _ _ _ Hca) as [data Hloop].
    eapply (computeLoop_frame P); [exact Hprot | | exact Hloop | done | done].
    intros i m r Hin Hr ->. apply (proj1 (forIn_elem_of _ _)) in Hin.
    destruct (matches a) as [ms|].
    + destruct (convertToMatchResult_right ms oldRootRef newRootRef st o n
                  matchResult Ho Hn Hmr i m k Hin Hr) as [j Hj].
      by eapply Hki.
    + eapply Hki. by eapply ModelMatcher_right.
  - simplify_eq. by rewrite lookup_alter_ne.
Qed.

(** C10. A pass [performUpdate(oldRoot, newRoot)] leaves unchanged every
    object of the store that is neither the new root nor held by the index
    of the new root: what it writes is an element of the new tree or an
    object it has created itself.  In particular, when the old tree shares
    no object with the new one, the old root and every element that the
    index of the old root holds are, after the pass, exactly as before. *)
Theorem performUpdate_frame (a : @UpdateModelAction num) oldRootRef newRootRef
    context st st' result o n :
  st !! oldRootRef = Some o → st !! newRootRef = Some n →
  performUpdate a oldRootRef newRootRef context st = Some (st', result) →
  (∀ k e, st !! k = Some e → k ≠ newRootRef → (∀ i, index n !! i ≠ Some k) →
          st' !! k = Some e) ∧
  (oldRootRef ≠ newRootRef →
   (∀ i, index n !! i ≠ Some oldRootRef) →
   (∀ i j k, index o !! i = Some k → k ≠ newRootRef ∧ index n !! j ≠ Some k) →
   st' !! oldRootRef = Some o ∧
   ∀ i k e, index o !! i = Some k → st !! k = Some e → st' !! k = Some e).
Proof.
  intros Ho Hn Hp.
  pose proof (performUpdate_writes a oldRootRef newRootRef context st st' result
                o n Ho Hn Hp) as Hframe.
  split; [exact Hframe|].
  intros Hne Hold Hdisj. split.
  - by apply Hframe.
  - intros i k e Hik Hk. apply Hframe; [done | |].
    + by destruct (Hdisj i i k Hik).
    + intros j. by destruct (Hdisj i j k Hik).
Qed.

(** ** [undo] and [redo] *)

Lemma alter_fixed f k st e : st !! k = Some e → f e = e → alter f k st = st.
Proof.
  intros Hk Hf. apply map_eq. intros j. rewrite lookup_alter.
  case_decide; [|done]. subst. rewrite Hk. simpl. by rewrite Hf.
Qed.

Lemma set_canvasBounds_same e : set_canvasBounds (canvasBounds e) e = e.
Proof. by destruct e as [? ? ? ? ? ? []]. Qed.

Lemma set_canvasBounds_twice v e :
  set_canvasBounds v (set_canvasBounds v e) = set_canvasBounds v e.
Proof. done. Qed.

(** Once the command holds its two roots, [undo] is [performUpdate] with the
    roots swapped and [redo] is [performUpdate] with the roots as in
    [execute]; both are passes over the store as it is when they are
    called. *)
Lemma undo_redo_performUpdate (c : @UpdateModelCommand num) context st o n :
  oldRoot c = Some o → newRoot c = Some n →
  undo c context st = performUpdate (action c) n o context st ∧
  redo c context st = performUpdate (action c) o n context st.
Proof. intros Ho Hn. unfold undo, redo. by rewrite Ho, Hn. Qed.

(** An update that is not animated, undone and redone: the three passes
    return the root they were given as the new one, and after the first pass
    the store does not change any more. *)
Lemma instantaneous_undo_redo (c : @UpdateModelCommand num) context st oldRootRef
    newRootRef o n :
  oldRoot c = Some oldRootRef → newRoot c = Some newRootRef →
  st !! oldRootRef = Some o → st !! newRootRef = Some n →
  animate (action c) ≠ Some true ∨ id o ≠ id n →
  ∃ st1,
    performUpdate (action c) oldRootRef newRootRef context st
      = Some (st1, ResultRoot newRootRef) ∧
    undo c context st1 = Some (st1, ResultRoot oldRootRef) ∧
    redo c context st1 = Some (st1, ResultRoot newRootRef).
Proof.
  intros Hco Hcn Ho Hn Hcase.
  assert (Hcond : ∀ i j : string, i = id o → j = id n →
            bool_decide (animate (action c) = Some true) && bool_decide (i = j) = false).
  { intros i j -> ->. destruct Hcase as [Ha|Hid].
    - by rewrite bool_decide_eq_false_2.
    - rewrite (bool_decide_eq_false_2 (id o = id n)) by done. apply andb_false_r. }
  assert (Hcond' : ∀ i j : string, i = id n → j = id o →
            bool_decide (animate (action c) = Some true) && bool_decide (i = j) = false).
  { intros i j -> ->. destruct Hcase as [Ha|Hid].
    - by rewrite bool_decide_eq_false_2.
    - rewrite (bool_decide_eq_false_2 (id n = id o)) by congruence.
      apply andb_false_r. }
  set (st1 := alter (set_canvasBounds (canvasBounds o)) newRootRef st).
  assert (Hn1 : st1 !! newRootRef = Some (set_canvasBounds (canvasBounds o) n)).
  { unfold st1. by rewrite lookup_alter_eq, Hn. }
  assert (Ho1 : st1 !! oldRootRef = Some o).
  { unfold st1. destruct (decide (newRootRef = oldRootRef)) as [->|Hne].
    - rewrite lookup_alter_eq, Ho. simpl. by rewrite set_canvasBounds_same.
    - by rewrite lookup_alter_ne. }
  exists st1. split; [|split].
  - unfold performUpdate. rewrite Ho, Hn. simpl. by rewrite Hcond.
  - rewrite (proj1 (undo_redo_performUpdate c context st1 _ _ Hco Hcn)).
    unfold performUpdate. rewrite Hn1, Ho1. simpl. rewrite Hcond' by done.
    by rewrite (alter_fixed
                  (set_canvasBounds (canvasBounds (set_canvasBounds (canvasBounds o) n)))
                  _ _ o Ho1 (set_canvasBounds_same o)).
  - rewrite (proj2 (undo_redo_performUpdate c context st1 _ _ Hco Hcn)).
    unfold performUpdate. rewrite Ho1, Hn1. simpl. rewrite Hcond by done.
    by rewrite (alter_fixed _ _ _ _ Hn1 (set_canvasBounds_twice _ n)).
Qed.

(** ** [execute] works on a copy *)

Lemma isolated_refl st : isolated st st.
Proof. split; [apply extends_refl|]. intros k e Hk Hk'. congruence. Qed.

Lemma isolated_insert_fresh b st r e :
  isolated b st → st !! r = None →
  children e = [] → parent e = None → index e = ∅ →
  isolated b (<[r := e]> st).
Proof.
  intros [Hext Hiso] Hr Hc Hp Hi. split.
  - intros k e' Hk. rewrite lookup_insert_ne; [by apply Hext|].
    intros ->. apply Hext in Hk. congruence.
  - intros k e' Hk Hk'. destruct (decide (r = k)) as [->|Hne].
    + rewrite lookup_insert_eq in Hk'. simplify_eq. rewrite Hc, Hp, Hi.
      split; [|split].
      * intros c Hin. by apply elem_of_nil in Hin.
      * done.
      * intros i r'. by rewrite lookup_empty.
    + rewrite lookup_insert_ne in Hk' by done. eauto.
Qed.

(** An object that [b] does not hold may be rewritten, as long as it then
    refers only to objects that [b] does not hold. *)
Lemma isolated_alter b st f r :
  isolated b st → b !! r = None →
  (∀ e, st !! r = Some e →
     (∀ c, c ∈ children (f e) → b !! c = None) ∧
     (∀ p, parent (f e) = Some p → b !! p = None) ∧
     (∀ i r', index (f e) !! i = Some r' → b !! r' = None)) →
  isolated b (alter f r st).
Proof.
  intros [Hext Hiso] Hr Hf. split.
  - intros k e Hk. rewrite lookup_alter_ne; [by apply Hext | congruence].
  - intros k e Hk Hk'. rewrite lookup_alter in Hk'. case_decide; [|eauto].
    subst. destruct (st !! k) as [e'|] eqn:E'; simplify_eq/=. eauto.
Qed.

Lemma isolated_None b st k : isolated b st → st !! k = None → b !! k = None.
Proof. intros [Hext _]. by apply extends_None. Qed.

Lemma createChildren_isolated b r (l : list (@SModelElementSchema num)) :
  Forall (λ s, ∀ st st' g, isolated b st → createElement s st = (st', g) →
                 isolated b st' ∧ b !! g = None) l →
  b !! r = None →
  ∀ st st' kids, isolated b st → createChildren r l st = (st', kids) →
    isolated b st' ∧ Forall (λ c, b !! c = None) kids.
Proof.
  intros Hall Hr. induction Hall as [|k l Hk Hl IH]; intros st st' kids Hiso Hc;
    simpl in Hc.
  - simplify_eq. split; [done | constructor].
  - destruct (createElement k st) as [st1 c] eqn:E1.
    destruct (createChildren r l (alter (set_parent (Some r)) c st1))
      as [st2 cs] eqn:E2. simplify_eq.
    destruct (Hk _ _ _ Hiso E1) as [Hiso1 Hc1].
    assert (Hiso1' : isolated b (alter (set_parent (Some r)) c st1)).
    { apply isolated_alter; [done | done |]. intros e He.
      destruct Hiso1 as [_ Hrefs]. destruct (Hrefs c e Hc1 He) as (Hch & _ & Hix).
      split; [exact Hch | split; [|exact Hix]]. simpl. by intros p [= <-]. }
    destruct (IH _ _ _ Hiso1' E2) as [Hiso2 Hcs]. split; [done|].
    by constructor.
Qed.

Lemma createElement_isolated b (s : @SModelElementSchema num) :
  ∀ st st' g, isolated b st → createElement s st = (st', g) →
    isolated b st' ∧ b !! g = None.
Proof.
  induction s as [ty i p l IH] using Schema_ind'. intros st st' g Hiso Hc.
  rewrite createElement_unfold in Hc. cbv zeta in Hc.
  change (schema_children (Schema ty i p l)) with l in Hc.
  pose proof (fresh_lookup_None st) as Hr.
  remember (fresh (dom st)) as r eqn:Er. clear Er.
  remember (newElement SChildElementClass (Schema ty i p l)) as new eqn:Enew.
  destruct (createChildren r l (<[r := new]> st)) as [st2 kids] eqn:E2.
  injection Hc as <- <-.
  assert (Hbr : b !! r = None) by (by eapply isolated_None).
  assert (Hiso1 : isolated b (<[r := new]> st))
    by (apply isolated_insert_fresh; [done | done | by subst new..]).
  destruct (createChildren_isolated b r l IH Hbr _ _ _ Hiso1 E2) as [Hiso2 Hkids].
  split; [|done].
  apply isolated_alter; [done | done |]. intros e He.
  destruct Hiso2 as [_ Hrefs]. destruct (Hrefs r e Hbr He) as (_ & Hpa & Hix).
  split; [|split; [exact Hpa | exact Hix]].
  simpl. intros c Hin. rewrite Forall_forall in Hkids. eauto.
Qed.

Lemma indexRemove_lookup st rs : ∀ (idx : gmap string ref) i k,
  indexRemove st rs idx !! i = Some k → idx !! i = Some k.
Proof.
  unfold indexRemove. induction rs as [|r rs IH]; intros idx i k Hl; cbn in Hl.
  - done.
  - apply IH in Hl. destruct (st !! r) as [e|]; [|done].
    rewrite lookup_delete in Hl. by case_decide.
Qed.

Lemma remove_first_subseteq (c : ref) l x : x ∈ remove_first c l → x ∈ l.
Proof.
  induction l as [|c' l IH]; simpl; [done|].
  case_decide; rewrite !elem_of_cons; [by right|]. intros [->|Hin]; [by left|].
  right. by apply IH.
Qed.

(** The children-closure that [subtree_fresh] needs, from [isolated]. *)
Lemma isolated_fresh_closed b st : isolated b st → fresh_closed b st.
Proof.
  intros [_ Hrefs] k e c Hk Hk' Hin.
  destruct (Hrefs k e Hk Hk') as (Hc & _). by apply Hc.
Qed.

Lemma add_isolated b rootRef p g st :
  isolated b st → b !! rootRef = None → b !! p = None → b !! g = None →
  isolated b (SParentElement_add rootRef p g st).
Proof.
  intros Hiso Hroot Hp Hg. unfold SParentElement_add.
  set (st1 := alter (λ e, set_children (children e ++ [g]) e) p st).
  assert (Hiso1 : isolated b st1).
  { apply isolated_alter; [done | done |]. intros e He.
    destruct Hiso as [_ Hrefs]. destruct (Hrefs p e Hp He) as (Hch & Hpa & Hix).
    split; [|split; [exact Hpa | exact Hix]].
    simpl. intros c Hin. apply elem_of_app in Hin as [Hin|Hin]; [eauto|].
    apply list_elem_of_singleton in Hin. by subst. }
  set (st2 := alter (set_parent (Some p)) g st1).
  assert (Hiso2 : isolated b st2).
  { apply isolated_alter; [done | done |]. intros e He.
    destruct Hiso1 as [_ Hrefs]. destruct (Hrefs g e Hg He) as (Hch & _ & Hix).
    split; [exact Hch | split; [|exact Hix]]. simpl. by intros q [= <-]. }
  apply isolated_alter; [done | done |]. intros e He.
  pose proof Hiso2 as [_ Hrefs]. destruct (Hrefs rootRef e Hroot He) as (Hch & Hpa & Hix).
  split; [exact Hch | split; [exact Hpa|]].
  simpl. intros i r Hir. apply indexAdd_lookup in Hir as [Hir|Hir]; [eauto|].
  unfold descendants in Hir.
  eapply subtree_fresh; [by apply isolated_fresh_closed | exact Hg | exact Hir].
Qed.

Lemma remove_isolated b rootRef p c st :
  isolated b st → b !! rootRef = None → b !! p = None → b !! c = None →
  isolated b (SParentElement_remove rootRef p c st).
Proof.
  intros Hiso Hroot Hp Hc. unfold SParentElement_remove.
  set (st1 := alter (λ e, set_children (remove_first c (children e)) e) p st).
  assert (Hiso1 : isolated b st1).
  { apply isolated_alter; [done | done |]. intros e He.
    destruct Hiso as [_ Hrefs]. destruct (Hrefs p e Hp He) as (Hch & Hpa & Hix).
    split; [|split; [exact Hpa | exact Hix]].
    simpl. intros x Hin. apply remove_first_subseteq in Hin. eauto. }
  set (st2 := alter (set_parent None) c st1).
  assert (Hiso2 : isolated b st2).
  { apply isolated_alter; [done | done |]. intros e He.
    destruct Hiso1 as [_ Hrefs]. destruct (Hrefs c e Hc He) as (Hch & _ & Hix).
    split; [exact Hch | split; [|exact Hix]]. simpl. done. }
  apply isolated_alter; [done | done |]. intros e He.
  pose proof Hiso2 as [_ Hrefs]. destruct (Hrefs rootRef e Hroot He) as (Hch & Hpa & Hix).
  split; [exact Hch | split; [exact Hpa|]].
  simpl. intros i r Hir. apply indexRemove_lookup in Hir. eauto.
Qed.

Lemma createRoot_isolated b (s : @SModelElementSchema num) st st' n :
  isolated b st → createRoot s st = (st', n) → isolated b st' ∧ b !! n = None.
Proof.
  intros Hiso Hc. unfold createRoot in Hc. cbv zeta in Hc.
  pose proof (fresh_lookup_None st) as Hr.
  remember (fresh (dom st)) as r eqn:Er. clear Er.
  remember (newElement _ s) as new eqn:Enew.
  destruct (createChildren r (schema_children s) (<[r := new]> st)) as [st2 kids] eqn:E2.
  injection Hc as <- <-.
  assert (Hbr : b !! r = None) by (by eapply isolated_None).
  assert (Hiso1 : isolated b (<[r := new]> st)).
  { apply isolated_insert_fresh; [done | done | subst new; by destruct s..]. }
  assert (Hall : Forall (λ s, ∀ st st' g, isolated b st → createElement s st = (st', g) →
                   isolated b st' ∧ b !! g = None) (schema_children s)).
  { apply Forall_forall. intros k _. apply createElement_isolated. }
  destruct (createChildren_isolated b r _ Hall Hbr _ _ _ Hiso1 E2) as [Hiso2 Hkids].
  split; [|done].
  set (st3 := alter (set_children kids) r st2).
  assert (Hiso3 : isolated b st3).
  { apply isolated_alter; [done | done |]. intros e He.
    destruct Hiso2 as [_ Hrefs]. destruct (Hrefs r e Hbr He) as (_ & Hpa & Hix).
    split; [|split; [exact Hpa | exact Hix]].
    simpl. intros c Hin. rewrite Forall_forall in Hkids. eauto. }
  apply isolated_alter; [done | done |]. intros e He.
  pose proof Hiso3 as [_ Hrefs]. destruct (Hrefs r e Hbr He) as (Hch & Hpa & _).
  split; [exact Hch | split; [exact Hpa|]].
  simpl. intros i r' Hir. apply indexAdd_lookup in Hir as [Hir|Hir].
  - by rewrite lookup_empty in Hir.
  - unfold descendants in Hir.
    eapply subtree_fresh; [by apply isolated_fresh_closed | exact Hbr | exact Hir].
Qed.

Lemma applyMatch_isolated b rootRef (m : Match (@SModelElementSchema num)) st st' :
  isolated b st → b !! rootRef = None →
  applyMatch rootRef m st = Some st' → isolated b st'.
Proof.
  intros Hiso Hroot Ha. unfold applyMatch in Ha.
  destruct (applyMatchLeft rootRef m st) as [st1|] eqn:E1; [|done]. simpl in Ha.
  assert (Hiso1 : isolated b st1).
  { unfold applyMatchLeft in E1. destruct (left m) as [l|]; [|by simplify_eq].
    destruct (st !! rootRef) as [r|] eqn:Hr; [|done]. simpl in E1.
    destruct (index r !! schema_id l) as [element|] eqn:Hel; [|by simplify_eq].
    destruct (st !! element) as [e|] eqn:He; [|done]. simpl in E1.
    destruct (instanceofSChildElement (cls e)); [|by simplify_eq].
    destruct (parent e) as [p|] eqn:Hp; [|done]. simpl in E1. simplify_eq.
    pose proof Hiso as [_ Hrefs].
    destruct (Hrefs rootRef r Hroot Hr) as (_ & _ & Hix).
    assert (Hbe : b !! element = None) by eauto.
    destruct (Hrefs element e Hbe He) as (_ & Hpa & _).
    apply remove_isolated; eauto. }
  unfold applyMatchRight in Ha. destruct (right m) as [rs|]; [|by simplify_eq].
  destruct (createElement rs st1) as [st2 g] eqn:E2.
  destruct (createElement_isolated b rs _ _ _ Hiso1 E2) as [Hiso2 Hg].
  destruct (st2 !! rootRef) as [r|] eqn:Hr; [|done]. simpl in Ha.
  pose proof Hiso2 as [_ Hrefs].
  destruct (Hrefs rootRef r Hroot Hr) as (_ & _ & Hix).
  destruct (rightParentId m ≫= λ pid, index r !! pid) as [p|] eqn:Hp.
  - assert (Hbp : b !! p = None).
    { destruct (rightParentId m) as [pid|]; [|done]. simpl in Hp. eauto. }
    destruct (st2 !! p) as [pe|]; [|done]. simpl in Ha.
    destruct (instanceofSParentElement (cls pe)); simplify_eq;
      by apply add_isolated.
  - simplify_eq. by apply add_isolated.
Qed.

Lemma applyMatches_isolated b rootRef (ms : list (Match (@SModelElementSchema num))) :
  ∀ st st', isolated b st → b !! rootRef = None →
    applyMatches rootRef ms st = Some st' → isolated b st'.
Proof.
  induction ms as [|m ms IH]; intros st st' Hiso Hroot Ha; simpl in Ha.
  - by simplify_eq.
  - destruct (applyMatch rootRef m st) as [st1|] eqn:E; [|done]. simpl in Ha.
    eauto using applyMatch_isolated.
Qed.

(** A pass on a new tree that is isolated from the objects of [b] leaves
    the objects of [b] as they are. *)
Lemma performUpdate_isolated b (a : @UpdateModelAction num) oldRootRef newRootRef
    context st st' result :
  isolated b st → b !! newRootRef = None →
  performUpdate a oldRootRef newRootRef context st = Some (st', result) →
  extends b st'.
Proof.
  intros [Hext Hrefs] Hn Hp k e Hk.
  destruct (st !! oldRootRef) as [o|] eqn:Ho;
    [|unfold performUpdate in Hp; by rewrite Ho in Hp].
  destruct (st !! newRootRef) as [n|] eqn:Hnr;
    [|unfold performUpdate in Hp; by rewrite Ho, Hnr in Hp].
  apply (performUpdate_writes a oldRootRef newRootRef context st st' result o n
           Ho Hnr Hp); [by apply Hext | congruence |].
  intros i Hik. destruct (Hrefs newRootRef n Hn Hnr) as (_ & _ & Hix).
  apply Hix in Hik. congruence.
Qed.

(** [execute] builds the new tree from objects of its own: every object that
    the store held before is, after [execute], exactly as it was.  The old
    tree is left as an unmodified snapshot. *)
Lemma execute_extends (c : @UpdateModelCommand num) context st st' c' result :
  execute c context st = Some (st', c', result) → extends st st'.
Proof.
  unfold execute. intros He.
  destruct (match action_newRoot (action c) with
            | Some s => Some (createRoot s st)
            | None =>
                cr ← st !! root context;
                let '(st0, n) := createRoot (asSchema (size st) st cr) st in
                match matches (action c) with
                | Some ms => st' ← applyMatches n ms st0; Some (st', n)
                | None => Some (st0, n)
                end
            end) as [[st1 n]|] eqn:E1; [|done]. simpl in He.
  destruct (performUpdate (action c) (root context) n context st1)
    as [[st2 res]|] eqn:E2; [|done]. simpl in He. simplify_eq.
  assert (Hiso : isolated st st1 ∧ st !! n = None).
  { destruct (action_newRoot (action c)) as [s|].
    - simplify_eq. destruct (createRoot s st) as [st1' n'] eqn:Ec. simplify_eq.
      eapply createRoot_isolated; [apply isolated_refl | done].
    - destruct (st !! root context) as [cr|]; [|done]. simpl in E1.
      destruct (createRoot (asSchema (size st) st cr) st) as [st0 n0] eqn:Ec.
      destruct (createRoot_isolated st _ _ _ _ (isolated_refl st) Ec) as [Hiso0 Hn0].
      destruct (matches (action c)) as [ms|]; [|by simplify_eq].
      destruct (applyMatches n0 ms st0) as [st0'|] eqn:Ea; [|done]. simpl in E1.
      simplify_eq. split; [|done]. by eapply applyMatches_isolated. }
  destruct Hiso as [Hiso Hn]. by eapply performUpdate_isolated.
Qed.

(** ** More on [updateElement] *)

Lemma updateElement_inv left right st data st' data' :
  updateElement left right st data = Some (st', data') →
  ∃ st1 data1 st2 st3 st4,
    updatePosition left right st data = Some (st1, data1) ∧
    updateBounds left right st1 data1 = Some (st2, data') ∧
    updateSelected left right st2 = Some st3 ∧
    updateCanvasBounds left right st3 = Some st4 ∧
    updateViewport left right st4 = Some st'.
Proof.
  unfold updateElement. intros Hu.
  destruct (updatePosition left right st data) as [[st1 data1]|] eqn:H1; [|done].
  simpl in Hu.
  destruct (updateBounds left right st1 data1) as [[st2 data2]|] eqn:H2; [|done].
  simpl in Hu.
  destruct (updateSelected left right st2) as [st3|] eqn:H3; [|done]. simpl in Hu.
  destruct (updateCanvasBounds left right st3) as [st4|] eqn:H4; [|done]. simpl in Hu.
  destruct (updateViewport left right st4) as [st5|] eqn:H5; [|done]. simpl in Hu.
  simplify_eq. exists st1, data1, st2, st3, st4. by repeat split.
Qed.

Lemma updatePosition_same_on {A} (proj : @SModelElement num → A)
    left right st data st' data' :
  (∀ v e, proj (set_position v e) = proj e) →
  updatePosition left right st data = Some (st', data') → same_on proj st st'.
Proof.
  intros Hp. rewrite updatePosition_unfold. intros Hu.
  destruct (st !! left) as [l|]; [|done]. destruct (st !! right) as [r|]; [|done].
  simpl in Hu. repeat case_match; simplify_eq;
    first [apply same_on_refl | by apply same_on_alter].
Qed.

Lemma updateBounds_same_on {A} (proj : @SModelElement num → A)
    left right st data st' data' :
  (∀ v e, proj (set_bounds v e) = proj e) →
  updateBounds left right st data = Some (st', data') → same_on proj st st'.
Proof.
  intros Hp. rewrite updateBounds_unfold. intros Hu.
  destruct (st !! left) as [l|]; [|done]. destruct (st !! right) as [r|]; [|done].
  simpl in Hu. repeat case_match; simplify_eq;
    first [apply same_on_refl | by apply same_on_alter].
Qed.

Lemma updateSelected_same_on {A} (proj : @SModelElement num → A) left right st st' :
  (∀ v e, proj (set_selected v e) = proj e) →
  updateSelected left right st = Some st' → same_on proj st st'.
Proof.
  intros Hp. unfold updateSelected. intros Hu.
  destruct (st !! left) as [l|]; [|done]. destruct (st !! right) as [r|]; [|done].
  simpl in Hu. case_match; simplify_eq;
    first [apply same_on_refl | by apply same_on_alter].
Qed.

Lemma updateCanvasBounds_same_on {A} (proj : @SModelElement num → A) left right st st' :
  (∀ v e, proj (set_canvasBounds v e) = proj e) →
  updateCanvasBounds left right st = Some st' → same_on proj st st'.
Proof.
  intros Hp. unfold updateCanvasBounds. intros Hu.
  destruct (st !! left) as [l|]; [|done]. destruct (st !! right) as [r|]; [|done].
  simpl in Hu. case_match; simplify_eq;
    first [apply same_on_refl | by apply same_on_alter].
Qed.

Lemma updateViewport_same_on {A} (proj : @SModelElement num → A) left right st st' :
  (∀ v e, proj (set_scroll v e) = proj e) → (∀ v e, proj (set_zoom v e) = proj e) →
  updateViewport left right st = Some st' → same_on proj st st'.
Proof.
  intros Hs Hz. unfold updateViewport. intros Hu.
  destruct (st !! left) as [l|]; [|done]. destruct (st !! right) as [r|]; [|done].
  simpl in Hu. case_match; simplify_eq; [|apply same_on_refl].
  eapply same_on_trans; by apply same_on_alter.
Qed.

Lemma updateElement_same_on {A} (proj : @SModelElement num → A)
    left right st data st' data' :
  kept_by_updates proj →
  updateElement left right st data = Some (st', data') → same_on proj st st'.
Proof.
  intros (Hp & Hb & Hs & Hc & Hsc & Hz) Hu.
  apply updateElement_inv in Hu as (st1 & data1 & st2 & st3 & st4 & H1 & H2 & H3 & H4 & H5).
  apply (same_on_trans _ _ st1); [by eapply updatePosition_same_on|].
  apply (same_on_trans _ _ st2); [by eapply updateBounds_same_on|].
  apply (same_on_trans _ _ st3); [by eapply updateSelected_same_on|].
  apply (same_on_trans _ _ st4); [by eapply updateCanvasBounds_same_on|].
  by eapply updateViewport_same_on.
Qed.

Lemma updateElement_fades left right st data st' data' :
  updateElement left right st data = Some (st', data') → fades data' = fades data.
Proof.
  intros Hu.
  apply updateElement_inv in Hu as (st1 & data1 & st2 & st3 & st4 & H1 & H2 & _).
  apply updatePosition_frame in H1 as (_ & _ & _ & _ & _ & _ & _ & Hf1).
  apply updateBounds_frame in H2 as (_ & _ & _ & _ & _ & _ & _ & Hf2).
  congruence.
Qed.

(** The two objects at the start of the third block: the properties that the
    first two blocks do not write are as at the start. *)
Lemma updateElement_before_selected left right st data st1 data1 st2 data2 l r :
  st !! left = Some l → st !! right = Some r →
  updatePosition left right st data = Some (st1, data1) →
  updateBounds left right st1 data1 = Some (st2, data2) →
  ∃ l2 r2, st2 !! left = Some l2 ∧ st2 !! right = Some r2 ∧
    (selected l2, canvasBounds l2, scroll l2, zoom l2, cls l2) =
      (selected l, canvasBounds l, scroll l, zoom l, cls l) ∧
    (selected r2, canvasBounds r2, scroll r2, zoom r2, cls r2) =
      (selected r, canvasBounds r, scroll r, zoom r, cls r).
Proof.
  intros Hl Hr H1 H2.
  set (proj := λ e : @SModelElement num,
         (selected e, canvasBounds e, scroll e, zoom e, cls e)).
  assert (Hs : same_on proj st st2).
  { apply (same_on_trans _ _ st1).
    - by eapply updatePosition_same_on.
    - by eapply updateBounds_same_on. }
  destruct (same_on_lookup proj st st2 left l Hs Hl) as (l2 & Hl2 & Hpl).
  destruct (same_on_lookup proj st st2 right r Hs Hr) as (r2 & Hr2 & Hpr).
  by exists l2, r2.
Qed.

(** X7. Selection is carried over: after [updateElement] on two live
    objects that both have a selection flag, the new element has the flag of
    the old one, whatever the first two blocks did; when one of them has no
    flag, the new element is left with what it had. *)
Theorem updateElement_selected left right st data l r :
  st !! left = Some l → st !! right = Some r →
  ∃ st' data', updateElement left right st data = Some (st', data') ∧
    selected <$> st' !! right =
      Some (if isSelectable l && isSelectable r then selected l else selected r).
Proof.
  intros Hl Hr.
  destruct (updateElement_blocks left right st data l r Hl Hr)
    as (st1 & data1 & st2 & data2 & st5 & H1 & H2 & Hu & _).
  exists st5, data2. split; [done|].
  destruct (updateElement_before_selected _ _ _ _ _ _ _ _ _ _ Hl Hr H1 H2)
    as (l2 & r2 & Hl2 & Hr2 & Hpl & Hpr).
  apply updateElement_inv in Hu as (st1' & data1' & st2' & st3 & st4 & H1' & H2' & H3 & H4 & H5).
  simplify_eq.
  assert (H35 : same_on selected st3 st5).
  { apply (same_on_trans _ _ st4).
    - by eapply updateCanvasBounds_same_on.
    - by eapply updateViewport_same_on. }
  rewrite H35. unfold updateSelected in H3. rewrite Hl2, Hr2 in H3. simpl in H3.
  unfold isSelectable in *.
  replace (selected l2) with (selected l) in H3 by congruence.
  replace (selected r2) with (selected r) in H3 by congruence.
  destruct (bool_decide (is_Some (selected l)) && bool_decide (is_Some (selected r)));
    simplify_eq.
  - by rewrite lookup_alter_eq, Hr2.
  - rewrite Hr2. simpl. congruence.
Qed.

(** X8. The state of the root is carried over: after [updateElement] on two
    live objects, the new one has the canvas bounds of the old one when both
    are roots, and its scroll and zoom when both are viewport roots;
    otherwise it keeps its own. *)
Theorem updateElement_root_state left right st data l r :
  st !! left = Some l → st !! right = Some r →
  ∃ st' data', updateElement left right st data = Some (st', data') ∧
    canvasBounds <$> st' !! right =
      Some (if instanceofSModelRoot (cls l) && instanceofSModelRoot (cls r)
            then canvasBounds l else canvasBounds r) ∧
    scroll <$> st' !! right =
      Some (if instanceofViewportRootElement (cls l) && instanceofViewportRootElement (cls r)
            then scroll l else scroll r) ∧
    zoom <$> st' !! right =
      Some (if instanceofViewportRootElement (cls l) && instanceofViewportRootElement (cls r)
            then zoom l else zoom r).
Proof.
  intros Hl Hr.
  destruct (updateElement_blocks left right st data l r Hl Hr)
    as (st1 & data1 & st2 & data2 & st5 & H1 & H2 & Hu & _).
  exists st5, data2. split; [done|].
  destruct (updateElement_before_selected _ _ _ _ _ _ _ _ _ _ Hl Hr H1 H2)
    as (l2 & r2 & Hl2 & Hr2 & Hpl & Hpr).
  apply updateElement_inv in Hu as (st1' & data1' & st2' & st3 & st4 & H1' & H2' & H3 & H4 & H5).
  simplify_eq.
  set (proj := λ e : @SModelElement num, (canvasBounds e, scroll e, zoom e, cls e)).
  assert (H23 : same_on proj st2 st3) by by eapply updateSelected_same_on.
  destruct (same_on_lookup proj st2 st3 left l2 H23 Hl2) as (l3 & Hl3 & Hpl3).
  destruct (same_on_lookup proj st2 st3 right r2 H23 Hr2) as (r3 & Hr3 & Hpr3).
  unfold proj in Hpl3, Hpr3.
  assert (H34 : same_on (λ e : @SModelElement num, (scroll e, zoom e, cls e)) st3 st4)
    by by eapply updateCanvasBounds_same_on.
  unfold updateCanvasBounds in H4. rewrite Hl3, Hr3 in H4. simpl in H4.
  replace (cls l3) with (cls l) in H4 by congruence.
  replace (cls r3) with (cls r) in H4 by congruence.
  replace (canvasBounds l3) with (canvasBounds l) in H4 by congruence.
  set (proj' := λ e : @SModelElement num, (scroll e, zoom e, cls e)).
  destruct (same_on_lookup proj' st3 st4 left l3 H34 Hl3) as (l4 & Hl4 & Hpl4).
  destruct (same_on_lookup proj' st3 st4 right r3 H34 Hr3) as (r4 & Hr4 & Hpr4).
  assert (H45 : same_on canvasBounds st4 st5) by by eapply updateViewport_same_on.
  unfold proj' in Hpl4, Hpr4.
  split.
  { rewrite H45.
    destruct (instanceofSModelRoot (cls l) && instanceofSModelRoot (cls r)); simplify_eq.
    - by rewrite lookup_alter_eq, Hr3.
    - rewrite Hr3. simpl. congruence. }
  unfold updateViewport in H5. rewrite Hl4, Hr4 in H5. simpl in H5.
  replace (cls l4) with (cls l) in H5 by congruence.
  replace (cls r4) with (cls r) in H5 by congruence.
  replace (scroll l4) with (scroll l) in H5 by congruence.
  replace (zoom l4) with (zoom l) in H5 by congruence.
  destruct (instanceofViewportRootElement (cls l) && instanceofViewportRootElement (cls r));
    simplify_eq.
  - rewrite !lookup_alter_eq, Hr4. done.
  - rewrite Hr4. simpl. split; congruence.
Qed.

(** X9. [updateElement] writes the new element only, and of it only the
    position, the bounds, the selection flag, the canvas bounds, the scroll
    and the zoom: every other object is as it was, no object changes its
    class, type, identifier, parent, children, index or opacity, and no fade
    is queued. *)
Theorem updateElement_untouched left right st data st' data' :
  updateElement left right st data = Some (st', data') →
  (∀ k, k ≠ right → st' !! k = st !! k) ∧
  same_on structure st st' ∧
  fades data' = fades data.
Proof.
  intros Hu. split; [|split].
  - by apply updateElement_only_at in Hu as [Hk _].
  - by eapply updateElement_same_on.
  - by eapply updateElement_fades.
Qed.

(** ** The jobs that the loop of [computeAnimation] queues *)

Lemma kept_refl {A} (proj : @SModelElement num → A) st : kept proj st st.
Proof. intros k e Hk. by exists e. Qed.

Lemma kept_trans {A} (proj : @SModelElement num → A) st1 st2 st3 :
  kept proj st1 st2 → kept proj st2 st3 → kept proj st1 st3.
Proof.
  intros H12 H23 k e Hk. destruct (H12 k e Hk) as (e2 & Hk2 & Hp2).
  destruct (H23 k e2 Hk2) as (e3 & Hk3 & Hp3). exists e3. split; [done|congruence].
Qed.

Lemma kept_alter {A} (proj : @SModelElement num → A) f r st :
  (∀ e, proj (f e) = proj e) → kept proj st (alter f r st).
Proof.
  intros Hf k e Hk. destruct (decide (k = r)) as [->|Hne].
  - exists (f e). by rewrite lookup_alter_eq, Hk.
  - exists e. by rewrite lookup_alter_ne.
Qed.

Lemma kept_extends {A} (proj : @SModelElement num → A) st st' :
  extends st st' → kept proj st st'.
Proof. intros He k e Hk. exists e. split; [by apply He|done]. Qed.

Lemma kept_same_on {A} (proj : @SModelElement num → A) st st' :
  same_on proj st st' → kept proj st st'.
Proof. intros Hs k e Hk. by apply (same_on_lookup proj st st'). Qed.

Lemma kept_live_mono {A} (proj : @SModelElement num → A) st st' :
  kept proj st st' → live_mono st st'.
Proof. intros Hk k [e He]. destruct (Hk k e He) as (e' & He' & _). by exists e'. Qed.

Lemma kept_lookup {A} (proj : @SModelElement num → A) st st' k :
  kept proj st st' → is_Some (st !! k) → proj <$> st' !! k = proj <$> st !! k.
Proof.
  intros Hk [e He]. destruct (Hk k e He) as (e' & He' & Hp).
  rewrite He, He'. simpl. by rewrite Hp.
Qed.

Lemma add_kept {A} (proj : @SModelElement num → A) rootRef p g st :
  (∀ v e, proj (set_children v e) = proj e) →
  (∀ v e, proj (set_parent v e) = proj e) →
  (∀ v e, proj (set_index v e) = proj e) →
  kept proj st (SParentElement_add rootRef p g st).
Proof.
  intros Hc Hp Hi. unfold SParentElement_add.
  eapply kept_trans; [|by apply kept_alter].
  eapply kept_trans; [|by apply kept_alter].
  by apply kept_alter.
Qed.

(** The four ways in which one step of the loop ends, with what each way
    tells about the match. *)
Lemma computeStep_cases newRootRef (m : Match ref) st data st' data' :
  computeStep newRootRef m st data = Some (st', data') →
  (∃ l r, left m = Some l ∧ right m = Some r ∧
          updateElement l r st data = Some (st', data')) ∨
  (∃ r re, left m = None ∧ right m = Some r ∧ st !! r = Some re ∧
           st' = alter (set_opacity (Some zero)) r st ∧
           data' = push_fade {| fade_element := r; fade_type := FadeIn |} data) ∨
  (∃ l le nr p pe st1 leftCopy,
     left m = Some l ∧ right m = None ∧ st !! l = Some le ∧
     st !! newRootRef = Some nr ∧ st !! p = Some pe ∧
     createElement (asSchema (size st) st le) st = (st1, leftCopy) ∧
     st' = SParentElement_add newRootRef p leftCopy st1 ∧
     data' = push_fade {| fade_element := leftCopy; fade_type := FadeOut |} data) ∨
  (st' = st ∧ data' = data).
Proof.
  unfold computeStep. intros Hs.
  destruct (left m) as [l|], (right m) as [r|].
  - left. eauto.
  - destruct (st !! l) as [le|] eqn:Hle; [|done]. simpl in Hs.
    destruct (instanceofSChildElement (cls le)); [|simplify_eq; by eauto 10].
    destruct (isFadeable le); [|simplify_eq; by eauto 10].
    destruct (leftParentId m) as [pid|]; [|simplify_eq; by eauto 10].
    destruct (st !! newRootRef) as [nr|] eqn:Hnr; [|done]. simpl in Hs.
    destruct (index nr !! id le); [simplify_eq; by eauto 10|].
    destruct (index nr !! pid) as [p|] eqn:Hp; [|simplify_eq; by eauto 10].
    destruct (st !! p) as [pe|] eqn:Hpe; [|done]. simpl in Hs.
    destruct (instanceofSParentElement (cls pe)); [|simplify_eq; by eauto 10].
    destruct (createElement (asSchema (size st) st le) st) as [st1 g] eqn:E.
    simplify_eq. right. right. left.
    exists l, le, nr, p, pe, st1, g. by repeat split.
  - destruct (st !! r) as [re|] eqn:Hre; [|done]. simpl in Hs.
    destruct (isFadeable re); simplify_eq; [|by eauto 10].
    right. left. by exists r, re.
  - simplify_eq. by eauto 10.
Qed.

(** Attaching an object that [st] does not hold leaves the objects of [st]
    with their parents. *)
Lemma add_kept_fresh {A} (proj : @SModelElement num → A) rootRef p g st st1 :
  (∀ v e, proj (set_children v e) = proj e) →
  (∀ v e, proj (set_index v e) = proj e) →
  extends st st1 → st !! g = None →
  kept proj st (SParentElement_add rootRef p g st1).
Proof.
  intros Hc Hi Hext Hg k e Hk.
  assert (Hne : k ≠ g) by congruence.
  assert (Hp : proj <$> SParentElement_add rootRef p g st1 !! k = Some (proj e)).
  { unfold SParentElement_add. rewrite alter_lookup_proj by done.
    rewrite lookup_alter_ne by done. rewrite alter_lookup_proj by done.
    by rewrite (Hext _ _ Hk). }
  destruct (SParentElement_add rootRef p g st1 !! k) as [e'|]; [|done].
  exists e'. split; [done|]. by simplify_eq/=.
Qed.

Lemma computeStep_kept {A} (proj : @SModelElement num → A) newRootRef (m : Match ref)
    st data st' data' :
  kept_by_updates proj →
  (∀ v e, proj (set_opacity v e) = proj e) →
  (∀ v e, proj (set_children v e) = proj e) →
  (∀ v e, proj (set_index v e) = proj e) →
  computeStep newRootRef m st data = Some (st', data') → kept proj st st'.
Proof.
  intros Hu Ho Hc Hi Hs. apply computeStep_cases in Hs
    as [(l & r & _ & _ & Hs) | [(r & re & _ & _ & _ & -> & _) |
        [(l & le & nr & p & pe & st1 & g & _ & _ & _ & _ & _ & E & -> & _) |
         [-> _]]]].
  - apply kept_same_on. by eapply updateElement_same_on.
  - by apply kept_alter.
  - destruct (createElement_created _ _ _ _ E) as ([He _] & Hg & _).
    by apply add_kept_fresh.
  - apply kept_refl.
Qed.

Lemma computeLoop_kept {A} (proj : @SModelElement num → A) newRootRef
    (entries : list (string * Match ref)) :
  kept_by_updates proj →
  (∀ v e, proj (set_opacity v e) = proj e) →
  (∀ v e, proj (set_children v e) = proj e) →
  (∀ v e, proj (set_index v e) = proj e) →
  ∀ st data st' data',
    computeLoop newRootRef entries st data = Some (st', data') → kept proj st st'.
Proof.
  intros Hu Ho Hc Hi.
  induction entries as [|[i m] rest IH]; intros st data st' data' Hl; simpl in Hl.
  - simplify_eq. apply kept_refl.
  - destruct (computeStep newRootRef m st data) as [[st1 d1]|] eqn:E; [|done].
    simpl in Hl. eapply kept_trans; [by eapply computeStep_kept | by eapply IH].
Qed.

Lemma placement_kept_by_updates : kept_by_updates (@placement num).
Proof. by repeat split. Qed.

Ltac no_job :=
  exists []; rewrite app_nil_r; split; [done|]; split; [simpl; lia | constructor].

(** The jobs of one matched pair: at most one move and at most one resize,
    both for the new element. *)
Lemma updateElement_jobs left right st data st' data' :
  updateElement left right st data = Some (st', data') →
  ∃ ms rs,
    default [] (moves data') = default [] (moves data) ++ ms ∧
    default [] (resizes data') = default [] (resizes data) ++ rs ∧
    length ms ≤ 1 ∧ length rs ≤ 1 ∧
    Forall (λ mv, move_element mv = right ∧ id <$> st !! right = Some (elementId mv)) ms ∧
    Forall (λ rz, resize_element rz = right) rs.
Proof.
  intros Hu.
  apply updateElement_inv in Hu as (st1 & data1 & st2 & st3 & st4 & H1 & H2 & _).
  pose proof (updatePosition_frame _ _ _ _ _ _ H1) as (_ & _ & _ & _ & _ & _ & Hr1 & _).
  pose proof (updateBounds_frame _ _ _ _ _ _ H2) as (_ & _ & _ & _ & _ & _ & Hm2 & _).
  assert (Hms : ∃ ms, default [] (moves data1) = default [] (moves data) ++ ms ∧
            length ms ≤ 1 ∧
            Forall (λ mv, move_element mv = right ∧
                          id <$> st !! right = Some (elementId mv)) ms).
  { rewrite updatePosition_unfold in H1.
    destruct (st !! left) as [l|]; [|done].
    destruct (st !! right) as [r|] eqn:Hr; [|done]. simpl in H1.
    destruct (position l) as [leftPos|], (position r) as [rightPos|];
      try (simplify_eq; no_job).
    case_match; simplify_eq; [|no_job].
    eexists [_]. simpl. split; [done|]. split; [lia|].
    by apply Forall_singleton. }
  assert (Hrs : ∃ rs, default [] (resizes data') = default [] (resizes data1) ++ rs ∧
            length rs ≤ 1 ∧ Forall (λ rz, resize_element rz = right) rs).
  { rewrite updateBounds_unfold in H2.
    destruct (st1 !! left) as [l|]; [|done].
    destruct (st1 !! right) as [r|] eqn:Hr; [|done]. simpl in H2.
    destruct (bounds l) as [lb|], (bounds r) as [rb|];
      try (simplify_eq; no_job).
    case_match; simplify_eq; [no_job|].
    case_match; simplify_eq; [|no_job].
    eexists [_]. simpl. split; [done|]. split; [lia|].
    by apply Forall_singleton. }
  destruct Hms as (ms & Hms & Hlm & Hfm). destruct Hrs as (rs & Hrs & Hlr & Hfr).
  exists ms, rs. rewrite Hm2, Hms, Hrs, Hr1. by repeat split.
Qed.

Lemma fadeFrom_mono (entries entries' : list (string * Match ref)) st0 st1 st2 st3 f :
  (∀ x, x ∈ entries → x ∈ entries') →
  live_mono st0 st1 → kept id st2 st3 →
  fadeFrom entries st1 st2 f → fadeFrom entries' st0 st3 f.
Proof.
  intros Hsub H01 H23 [Hlive Hf]. split; [by eapply kept_live_mono|].
  destruct (fade_type f).
  - destruct Hf as (i & m & Hin & Hl & Hr). exists i, m. eauto.
  - destruct Hf as (Hfresh & i & m & l & Hin & Hl & Hr & Hid). split.
    + destruct (st0 !! fade_element f) eqn:E; [|done].
      destruct (H01 (fade_element f)) as [? ?]; [by eexists|congruence].
    + exists i, m, l. split; [by apply Hsub|]. split; [done|]. split; [done|].
      rewrite (kept_lookup id st2 st3 _ H23 Hlive).
      assert (Hl2 : is_Some (st2 !! l)).
      { destruct Hlive as [e He]. rewrite He in Hid. simpl in Hid.
        destruct (st2 !! l); [by eexists|done]. }
      by rewrite (kept_lookup id st2 st3 _ H23 Hl2).
Qed.

Lemma moveFrom_mono (entries entries' : list (string * Match ref)) st2 st3 mv :
  (∀ x, x ∈ entries → x ∈ entries') → kept id st2 st3 →
  moveFrom entries st2 mv → moveFrom entries' st3 mv.
Proof.
  intros Hsub H23 [Hid (i & m & Hin & Hl & Hr)]. split.
  - rewrite (kept_lookup id st2 st3 _ H23); [done|].
    destruct (st2 !! move_element mv); [by eexists|done].
  - exists i, m. eauto.
Qed.

Lemma resizeFrom_mono (entries entries' : list (string * Match ref)) st2 st3 rz :
  (∀ x, x ∈ entries → x ∈ entries') → live_mono st2 st3 →
  resizeFrom entries st2 rz → resizeFrom entries' st3 rz.
Proof.
  intros Hsub H23 [Hlive (i & m & Hin & Hl & Hr)]. split; [by apply H23|].
  exists i, m. eauto.
Qed.

Lemma id_kept_by_updates : kept_by_updates (@id num).
Proof. by repeat split. Qed.

Lemma computeStep_kept_id newRootRef (m : Match ref) st data st' data' :
  computeStep newRootRef m st data = Some (st', data') → kept id st st'.
Proof. by apply computeStep_kept; [apply id_kept_by_updates|..]. Qed.

Lemma computeLoop_kept_id newRootRef (entries : list (string * Match ref))
    st data st' data' :
  computeLoop newRootRef entries st data = Some (st', data') → kept id st st'.
Proof. by apply computeLoop_kept; [apply id_kept_by_updates|..]. Qed.

(** The jobs of one step. *)
Lemma computeStep_jobs newRootRef i (m : Match ref) st data st' data' :
  computeStep newRootRef m st data = Some (st', data') →
  ∃ fs ms rs,
    fades data' = fades data ++ fs ∧
    default [] (moves data') = default [] (moves data) ++ ms ∧
    default [] (resizes data') = default [] (resizes data) ++ rs ∧
    length fs + length ms ≤ 1 ∧ length fs + length rs ≤ 1 ∧
    Forall (fadeFrom [(i, m)] st st') fs ∧
    Forall (moveFrom [(i, m)] st') ms ∧
    Forall (resizeFrom [(i, m)] st') rs.
Proof.
  intros Hs. pose proof (computeStep_kept_id _ _ _ _ _ _ Hs) as Hkept.
  apply computeStep_cases in Hs
    as [(l & r & Hl & Hr & Hu) | [(r & re & Hl & Hr & Hre & -> & ->) |
        [(l & le & nr & p & pe & st1 & g & Hl & Hr & Hle & Hnr & Hpe & E & -> & ->) |
         [-> ->]]]].
  - destruct (updateElement_jobs _ _ _ _ _ _ Hu) as (ms & rs & Hms & Hrs & Hlm & Hlr & Hfm & Hfr).
    pose proof (updateElement_only_at _ _ _ _ _ _ Hu) as (_ & _ & Hlive).
    exists [], ms, rs. rewrite app_nil_r.
    split; [by eapply updateElement_fades|]. split; [done|]. split; [done|].
    split; [simpl; lia|]. split; [simpl; lia|]. split; [constructor|]. split.
    + eapply Forall_impl; [exact Hfm|]. intros mv [Hmv Hid]. split.
      * rewrite Hmv, (kept_lookup id st st' _ Hkept) by done. done.
      * exists i, m. rewrite Hmv, Hl. split; [by left|]. split; [by eexists|done].
    + eapply Forall_impl; [exact Hfr|]. intros rz Hrz. split.
      * rewrite Hrz. by eapply kept_live_mono.
      * exists i, m. rewrite Hrz, Hl. split; [by left|]. split; [by eexists|done].
  - exists [{| fade_element := r; fade_type := FadeIn |}], [], [].
    rewrite !app_nil_r. split; [done|]. split; [done|]. split; [done|].
    split; [simpl; lia|]. split; [simpl; lia|].
    split; [|split; constructor]. apply Forall_singleton. split; simpl.
    + rewrite lookup_alter_eq, Hre. by eexists.
    + exists i, m. split; [by left|done].
  - destruct (createElement_created _ _ _ _ E)
      as ([Hext _] & Hg & ge & Hge & _ & Hgid & _ & _).
    rewrite asSchema_id in Hgid.
    exists [{| fade_element := g; fade_type := FadeOut |}], [], [].
    rewrite !app_nil_r. split; [done|]. split; [done|]. split; [done|].
    split; [simpl; lia|]. split; [simpl; lia|].
    split; [|split; constructor]. apply Forall_singleton.
    assert (Hk1 : kept id st1 (SParentElement_add newRootRef p g st1))
      by by apply add_kept.
    assert (Hg1 : is_Some (st1 !! g)) by by eexists.
    assert (Hl1 : is_Some (st1 !! l)) by (exists le; by apply Hext).
    split; simpl.
    + by eapply kept_live_mono.
    + split; [done|]. exists i, m, l. split; [by left|]. split; [done|]. split; [done|].
      rewrite (kept_lookup id _ _ _ Hk1 Hg1), (kept_lookup id _ _ _ Hk1 Hl1).
      rewrite Hge, (Hext _ _ Hle). simpl. by rewrite Hgid.
  - exists [], [], []. rewrite !app_nil_r. repeat split; try done; try constructor.
    all: simpl; lia.
Qed.

(** X10. The jobs that the loop of [computeAnimation] queues: earlier jobs
    are kept, in order; an entry adds at most one fade, or else at most one
    move and at most one resize.  A move or a resize is for the new element
    of an entry with both sides, and a move carries the identifier that its
    element has at the end; a fade-in is for the new element of an entry
    without an old one; a fade-out is for an object that did not exist
    before the loop and has the identifier of the old element of an entry
    without a new one.  The elements of all jobs are live at the end. *)
Theorem computeLoop_jobs newRootRef (entries : list (string * Match ref))
    st data st' data' :
  computeLoop newRootRef entries st data = Some (st', data') →
  ∃ fs ms rs,
    fades data' = fades data ++ fs ∧
    default [] (moves data') = default [] (moves data) ++ ms ∧
    default [] (resizes data') = default [] (resizes data) ++ rs ∧
    length fs + length ms ≤ length entries ∧
    length fs + length rs ≤ length entries ∧
    Forall (fadeFrom entries st st') fs ∧
    Forall (moveFrom entries st') ms ∧
    Forall (resizeFrom entries st') rs.
Proof.
  revert st data st' data'.
  induction entries as [|[i m] rest IH]; intros st data st' data' Hl; simpl in Hl.
  - simplify_eq. exists [], [], []. rewrite !app_nil_r.
    repeat split; try done; constructor.
  - destruct (computeStep newRootRef m st data) as [[st1 d1]|] eqn:E; [|done].
    simpl in Hl.
    destruct (computeStep_jobs _ i _ _ _ _ _ E)
      as (fs1 & ms1 & rs1 & Hf1 & Hm1 & Hr1 & Hlm1 & Hlr1 & Hff1 & Hfm1 & Hfr1).
    destruct (IH _ _ _ _ Hl)
      as (fs2 & ms2 & rs2 & Hf2 & Hm2 & Hr2 & Hlm2 & Hlr2 & Hff2 & Hfm2 & Hfr2).
    pose proof (computeLoop_kept_id _ _ _ _ _ _ Hl) as Hkept.
    pose proof (computeStep_live _ _ _ _ _ _ E) as Hlive.
    exists (fs1 ++ fs2), (ms1 ++ ms2), (rs1 ++ rs2).
    rewrite Hf2, Hf1, Hm2, Hm1, Hr2, Hr1, !app_assoc, !length_app. simpl.
    split; [done|]. split; [done|]. split; [done|].
    split; [lia|]. split; [lia|].
    split; [|split]; apply Forall_app; split.
    + eapply Forall_impl; [exact Hff1|]. intros f.
      apply fadeFrom_mono; [|apply live_mono_refl|done].
      intros x ->%list_elem_of_singleton. by left.
    + eapply Forall_impl; [exact Hff2|]. intros f.
      apply fadeFrom_mono; [|done|apply kept_refl].
      intros x Hx. by right.
    + eapply Forall_impl; [exact Hfm1|]. intros mv.
      apply moveFrom_mono; [|done].
      intros x ->%list_elem_of_singleton. by left.
    + eapply Forall_impl; [exact Hfm2|]. intros mv.
      apply moveFrom_mono; [|apply kept_refl].
      intros x Hx. by right.
    + eapply Forall_impl; [exact Hfr1|]. intros rz.
      apply resizeFrom_mono; [|by eapply kept_live_mono].
      intros x ->%list_elem_of_singleton. by left.
    + eapply Forall_impl; [exact Hfr2|]. intros rz.
      apply resizeFrom_mono; [|apply live_mono_refl].
      intros x Hx. by right.
Qed.

(** ** The maps of [createAnimations] *)

Lemma last_filter_cons {A} (P : A → Prop) `{∀ x, Decision (P x)} (x : A) (l : list A) :
  last (filter P (x :: l)) =
    match last (filter P l) with
    | Some y => Some y
    | None => if decide (P x) then Some x else None
    end.
Proof.
  rewrite filter_cons. destruct (decide (P x)); [|by destruct (last (filter P l))].
  rewrite last_cons. by destruct (last (filter P l)).
Qed.

Lemma movesMap_foldl (l : list (@ResolvedElementMove num)) :
  ∀ (m : gmap string (@ResolvedElementMove num)) i,
    foldl (λ m mv, <[elementId mv := mv]> m) m l !! i =
      match last (filter (λ mv, elementId mv = i) l) with
      | Some mv => Some mv
      | None => m !! i
      end.
Proof.
  induction l as [|mv l IH]; intros m i; [done|].
  cbn [foldl]. rewrite IH, last_filter_cons.
  destruct (last (filter (λ mv0, elementId mv0 = i) l)); [done|].
  destruct (decide (elementId mv = i)) as [<-|Hne].
  - by rewrite lookup_insert_eq.
  - by rewrite lookup_insert_ne.
Qed.

Lemma resizesMap_lookup st (l : list (@ResolvedElementResize num)) :
  Forall (λ rz, is_Some (st !! resize_element rz)) l →
  ∀ m : gmap string (@ResolvedElementResize num), ∃ rm,
    resizesMap st l m = Some rm ∧
    ∀ i, rm !! i =
      match last (filter (λ rz, id <$> st !! resize_element rz = Some i) l) with
      | Some rz => Some rz
      | None => m !! i
      end.
Proof.
  induction 1 as [|rz l [e He] Hl IH]; intros m.
  - by exists m.
  - cbn [resizesMap]. rewrite He. simpl.
    destruct (IH (<[id e := rz]> m)) as (rm & Hrm & Hlookup).
    exists rm. split; [done|]. intros i. rewrite Hlookup, last_filter_cons.
    destruct (last (filter (λ rz0, id <$> st !! resize_element rz0 = Some i) l));
      [done|].
    rewrite He. simpl. destruct (decide (Some (id e) = Some i)) as [Heq|Hne].
    + simplify_eq. by rewrite lookup_insert_eq.
    + rewrite lookup_insert_ne; [done|congruence].
Qed.

(** X11. The maps that [createAnimations] hands to the move and the resize
    animation: an identifier is mapped to the last job queued for an element
    with that identifier, so that of two jobs for one identifier the later
    one wins, and an identifier without a job has no entry.  A move is filed
    under the identifier it carries, a resize under the identifier its
    element has when the map is built; the resize map is built whenever the
    elements of all resizes are live. *)
Theorem createAnimations_maps st (ml : list (@ResolvedElementMove num))
    (rl : list (@ResolvedElementResize num)) :
  Forall (λ rz, is_Some (st !! resize_element rz)) rl →
  (∀ i, movesMap ml !! i = last (filter (λ mv, elementId mv = i) ml)) ∧
  ∃ rm, resizesMap st rl ∅ = Some rm ∧
    ∀ i, rm !! i = last (filter (λ rz, id <$> st !! resize_element rz = Some i) rl).
Proof.
  intros Hlive. split.
  - intros i. unfold movesMap. rewrite movesMap_foldl, lookup_empty.
    by destruct (last _).
  - destruct (resizesMap_lookup st rl Hlive ∅) as (rm & Hrm & Hlookup).
    exists rm. split; [done|]. intros i. rewrite Hlookup, lookup_empty.
    by destruct (last _).
Qed.

(** ** The content of a converted match result *)

Lemma assignOwn_elem_of i (m : Match ref) (result : list (string * Match ref)) j c :
  NoDup result.*1 →
  (j, c) ∈ assignOwn i m result ↔ (j = i ∧ c = m) ∨ (j ≠ i ∧ (j, c) ∈ result).
Proof.
  induction result as [|[k n] rest IH]; simpl; intros Hnd.
  - rewrite list_elem_of_singleton. split.
    + intros ?. left. by simplify_eq.
    + intros [[-> ->]|[_ Hin]]; [done|by apply elem_of_nil in Hin].
  - apply NoDup_cons in Hnd as [Hk Hnd].
    destruct (decide (k = i)) as [->|Hne].
    + rewrite !elem_of_cons. split.
      * intros [?|Hin]; [left; by simplify_eq|].
        right. split; [|by right]. intros ->. apply Hk.
        apply list_elem_of_fmap. by exists (i, c).
      * intros [[-> ->]|[Hji [?|Hin]]]; [by left|by simplify_eq|by right].
    + rewrite !elem_of_cons, IH by done. split.
      * intros [?|[[-> ->]|[Hji Hin]]]; simplify_eq; eauto.
      * intros [[-> ->]|[Hji [?|Hin]]]; eauto.
Qed.

Lemma convertLoop_last st leftRoot rightRoot lr rr
    (ms : list (Match (@SModelElementSchema num))) :
  st !! leftRoot = Some lr → st !! rightRoot = Some rr →
  ∀ acc, NoDup acc.*1 → "__proto__" ∉ acc.*1 → ∃ result,
    convertLoop st leftRoot rightRoot ms acc = Some result ∧
    ∀ i c, (i, c) ∈ result ↔
      match last (filter (λ m, directiveKey m = Some i) ms) with
      | Some m => i ≠ "__proto__" ∧ c = converted lr rr m
      | None => (i, c) ∈ acc
      end.
Proof.
  intros Hl Hr. induction ms as [|m ms IH]; intros acc Hnd Hproto.
  - by exists acc.
  - cbn [convertLoop]. rewrite (convertMatch_eq st leftRoot rightRoot lr rr m Hl Hr).
    simpl.
    set (acc' := match directiveKey m with
                 | Some i => assign i (converted lr rr m) acc
                 | None => acc
                 end).
    assert (Hacc' : NoDup acc'.*1 ∧ "__proto__" ∉ acc'.*1).
    { unfold acc'. destruct (directiveKey m) as [k|]; [|done].
      destruct (decide (k = "__proto__")) as [->|Hne].
      - by rewrite assign_proto.
      - rewrite assign_other by done. split; [by apply assignOwn_NoDup|].
        rewrite assignOwn_keys. intros [?|?]; [congruence|done]. }
    destruct Hacc' as [Hnd' Hproto'].
    destruct (IH acc' Hnd' Hproto') as (result & Hres & Hin).
    exists result. split; [done|].
    intros i c. rewrite Hin, last_filter_cons.
    destruct (last (filter (λ m0, directiveKey m0 = Some i) ms)); [done|].
    unfold acc'. destruct (decide (directiveKey m = Some i)) as [Hk|Hk].
    + rewrite Hk. destruct (decide (i = "__proto__")) as [->|Hne].
      * rewrite assign_proto by done. split; [|by intros [? _]].
        intros Hic. destruct Hproto. apply list_elem_of_fmap. by exists ("__proto__", c).
      * rewrite assign_other, assignOwn_elem_of by done. split.
        -- by intros [[_ ->]|[? _]].
        -- intros [_ ->]. by left.
    + destruct (directiveKey m) as [k|]; [|done].
      destruct (decide (k = "__proto__")) as [->|Hne]; [by rewrite assign_proto|].
      rewrite assign_other, assignOwn_elem_of by done.
      split; [|by right; split; [congruence|]].
      intros [[-> _]|[_ ?]]; [congruence|done].
Qed.

(** X12. When several directives are stored under one key, the last of them
    wins: on two live roots, and for directives none of which is keyed by
    the name [__proto__], the match that [convertToMatchResult] returns for a
    key is the conversion of the last directive with that key, and the
    earlier ones leave no trace. *)
Theorem convertToMatchResult_last_wins (ms : list (Match (@SModelElementSchema num)))
    leftRoot rightRoot st lr rr :
  st !! leftRoot = Some lr → st !! rightRoot = Some rr →
  Forall (λ m, directiveKey m ≠ Some "__proto__") ms →
  ∃ result,
    convertToMatchResult ms leftRoot rightRoot st = Some result ∧
    ∀ i c, (i, c) ∈ result ↔
      ∃ m, last (filter (λ m, directiveKey m = Some i) ms) = Some m ∧
           c = converted lr rr m.
Proof.
  intros Hl Hr Hplain.
  destruct (convertLoop_last st leftRoot rightRoot lr rr ms Hl Hr [])
    as (result & Hres & Hin); [constructor|apply not_elem_of_nil|].
  exists result. split; [done|].
  intros i c. rewrite Hin.
  destruct (last (filter (λ m, directiveKey m = Some i) ms)) as [m|] eqn:E.
  - split; [intros [? ->]; by exists m|].
    intros (m' & [= <-] & ->). split; [|done]. intros ->.
    apply last_Some_elem_of, list_elem_of_filter in E as [Hk Hm].
    rewrite Forall_forall in Hplain. by apply (Hplain m Hm).
  - split; [by intros ?%elem_of_nil | by intros (m' & ? & _)].
Qed.

(** ** What [applyMatches] leaves alone *)

Lemma restructured_refl st : restructured st st.
Proof. intros k e Hk. by exists e. Qed.

Lemma restructured_trans st1 st2 st3 :
  restructured st1 st2 → restructured st2 st3 → restructured st1 st3.
Proof.
  intros H12 H23 k e Hk. destruct (H12 k e Hk) as (e2 & Hk2 & Hc2 & Hp2).
  destruct (H23 k e2 Hk2) as (e3 & Hk3 & Hc3 & Hp3).
  exists e3. split; [done|]. split; [congruence|].
  intros Hcls. rewrite Hp3, Hp2; [done..|].
  unfold content in Hc2. by replace (cls e2) with (cls e) by congruence.
Qed.

Lemma restructured_extends st st' : extends st st' → restructured st st'.
Proof. intros He k e Hk. exists e. split; [by apply He|done]. Qed.

Lemma restructured_alter f r st :
  (∀ e, content (f e) = content e) →
  (∀ e, st !! r = Some e → instanceofSChildElement (cls e) = false →
        parent (f e) = parent e) →
  restructured st (alter f r st).
Proof.
  intros Hc Hp k e Hk. destruct (decide (k = r)) as [->|Hne].
  - exists (f e). rewrite lookup_alter_eq, Hk. split; [done|]. split; [done|]. eauto.
  - exists e. by rewrite lookup_alter_ne.
Qed.

(** Attaching a child element. *)
Lemma add_restructured rootRef p g st ge :
  st !! g = Some ge → instanceofSChildElement (cls ge) = true →
  restructured st (SParentElement_add rootRef p g st).
Proof.
  intros Hg Hcls. unfold SParentElement_add.
  set (st1 := alter (λ e, set_children (children e ++ [g]) e) p st).
  set (st2 := alter (set_parent (Some p)) g st1).
  apply (restructured_trans _ st1); [by apply restructured_alter|].
  apply (restructured_trans _ st2); [|by apply restructured_alter].
  apply restructured_alter; [done|].
  intros e He Hce. unfold st1 in He. destruct (decide (g = p)) as [->|Hne].
  - rewrite lookup_alter_eq, Hg in He. simplify_eq/=. congruence.
  - rewrite lookup_alter_ne in He by done. congruence.
Qed.

(** Detaching a child element. *)
Lemma remove_restructured rootRef p c st ce :
  st !! c = Some ce → instanceofSChildElement (cls ce) = true →
  restructured st (SParentElement_remove rootRef p c st).
Proof.
  intros Hc Hcls. unfold SParentElement_remove.
  set (st1 := alter (λ e, set_children (remove_first c (children e)) e) p st).
  set (st2 := alter (set_parent None) c st1).
  apply (restructured_trans _ st1); [by apply restructured_alter|].
  apply (restructured_trans _ st2); [|by apply restructured_alter].
  apply restructured_alter; [done|].
  intros e He Hce. unfold st1 in He. destruct (decide (c = p)) as [->|Hne].
  - rewrite lookup_alter_eq, Hc in He. simplify_eq/=. congruence.
  - rewrite lookup_alter_ne in He by done. congruence.
Qed.

Lemma applyMatchLeft_restructured rootRef (m : Match (@SModelElementSchema num)) st st' :
  applyMatchLeft rootRef m st = Some st' → restructured st st'.
Proof.
  unfold applyMatchLeft. intros Ha.
  destruct (left m) as [l|]; [|simplify_eq; apply restructured_refl].
  destruct (st !! rootRef) as [r|]; [|done]. simpl in Ha.
  destruct (index r !! schema_id l) as [element|];
    [|simplify_eq; apply restructured_refl].
  destruct (st !! element) as [e|] eqn:He; [|done]. simpl in Ha.
  destruct (instanceofSChildElement (cls e)) eqn:Hcls;
    [|simplify_eq; apply restructured_refl].
  destruct (parent e) as [p|]; [|done]. simpl in Ha. simplify_eq.
  by eapply remove_restructured.
Qed.

Lemma applyMatchRight_restructured rootRef (m : Match (@SModelElementSchema num)) st st' :
  applyMatchRight rootRef m st = Some st' → restructured st st'.
Proof.
  unfold applyMatchRight. intros Ha.
  destruct (right m) as [rs|]; [|simplify_eq; apply restructured_refl].
  destruct (createElement rs st) as [st2 g] eqn:E.
  destruct (createElement_created _ _ _ _ E)
    as ([Hext _] & Hg & ge & Hge & Hcls & _).
  assert (Hchild : instanceofSChildElement (cls ge) = true) by by rewrite Hcls.
  apply (restructured_trans _ st2); [by apply restructured_extends|].
  destruct (st2 !! rootRef) as [r|]; [|done]. simpl in Ha.
  destruct (rightParentId m ≫= (λ pid, index r !! pid)) as [p|].
  - destruct (st2 !! p) as [pe|]; [|done]. simpl in Ha.
    destruct (instanceofSParentElement (cls pe)); simplify_eq;
      by eapply add_restructured.
  - simplify_eq. by eapply add_restructured.
Qed.

Lemma applyMatches_restructured rootRef (ms : list (Match (@SModelElementSchema num))) :
  ∀ st st', applyMatches rootRef ms st = Some st' → restructured st st'.
Proof.
  induction ms as [|m ms IH]; intros st st' Ha; simpl in Ha.
  - simplify_eq. apply restructured_refl.
  - unfold applyMatch in Ha.
    destruct (applyMatchLeft rootRef m st) as [st1|] eqn:E1; [|done]. simpl in Ha.
    destruct (applyMatchRight rootRef m st1) as [st2|] eqn:E2; [|done]. simpl in Ha.
    apply (restructured_trans _ st1); [by eapply applyMatchLeft_restructured|].
    apply (restructured_trans _ st2); [by eapply applyMatchRight_restructured|].
    by apply IH.
Qed.

(** X13. The directives of [applyMatches] only restructure the tree: every
    object that existed before is still there, with its class, type,
    identifier and properties; and an object that is not a child element,
    such as the root, keeps its parent, so that the root is neither detached
    nor attached anywhere, also when a directive names it. *)
Theorem applyMatches_restructures rootRef (ms : list (Match (@SModelElementSchema num)))
    st st' :
  applyMatches rootRef ms st = Some st' →
  ∀ k e, st !! k = Some e →
    ∃ e', st' !! k = Some e' ∧ content e' = content e ∧
          (instanceofSChildElement (cls e) = false → parent e' = parent e).
Proof. apply applyMatches_restructured. Qed.

(** X14. In [applyMatches], when the parent identifier of the new side of a
    directive resolves, in the index of the root, to a parent element, the
    created element is a fresh child element with the identifier and the
    properties of the schema; it is appended to the children of that parent
    and has it as its parent; no other object that existed gains or loses a
    child. *)
Theorem applyMatchRight_resolved rootRef (m : Match (@SModelElementSchema num))
    s st re pid p pe :
  right m = Some s → st !! rootRef = Some re →
  rightParentId m = Some pid → index re !! pid = Some p →
  st !! p = Some pe → instanceofSParentElement (cls pe) = true →
  ∃ st' element ee pe',
    applyMatchRight rootRef m st = Some st' ∧
    st !! element = None ∧ st' !! element = Some ee ∧
    cls ee = SChildElementClass ∧ id ee = schema_id s ∧ props ee = schema_props s ∧
    parent ee = Some p ∧
    st' !! p = Some pe' ∧ children pe' = children pe ++ [element] ∧
    ∀ k e, st !! k = Some e → k ≠ p →
      ∃ e', st' !! k = Some e' ∧ children e' = children e.
Proof.
  intros Hright Hroot Hpid Hp Hpe Hcls.
  unfold applyMatchRight. rewrite Hright.
  destruct (createElement s st) as [st2 g] eqn:E.
  destruct (createElement_created _ _ _ _ E)
    as ([Hext _] & Hg & ge & Hge & Hgcls & Hgid & Hgprops & _).
  rewrite (Hext _ _ Hroot). simpl. rewrite Hpid. simpl. rewrite Hp.
  rewrite (Hext _ _ Hpe). simpl. rewrite Hcls.
  assert (g ≠ rootRef) by congruence. assert (g ≠ p) by congruence.
  destruct (add_lookup_parent rootRef p g st2 pe (Hext _ _ Hpe))
    as (pe' & Hpe' & Hkids & _); [done|].
  exists (SParentElement_add rootRef p g st2), g, (set_parent (Some p) ge), pe'.
  rewrite (add_lookup_child rootRef p g st2 ge) by done.
  do 9 (split; [done|]).
  intros k e Hk Hkp. assert (k ≠ g) by congruence.
  assert (Hc : children <$> SParentElement_add rootRef p g st2 !! k = Some (children e)).
  { unfold SParentElement_add. rewrite !alter_lookup_proj by done.
    rewrite lookup_alter_ne by done. by rewrite (Hext _ _ Hk). }
  destruct (SParentElement_add rootRef p g st2 !! k) as [e'|]; [|done].
  exists e'. split; [done|]. by simplify_eq/=.
Qed.

(** ** What a pass returns and what it keeps *)

Lemma createAnimations_shape (data : @UpdateAnimationData num) rootRef context st l :
  createAnimations data rootRef context st = Some l →
  length l ≤ 3 ∧ Forall (singleFor rootRef context) l.
Proof.
  unfold createAnimations. intros Hc.
  destruct (nonEmpty (resizes data)).
  - destruct (resizesMap st (default [] (resizes data)) ∅) as [rm|]; [|done].
    destruct (nonEmpty (Some (fades data))), (nonEmpty (moves data));
      injection Hc as <-; (split; [cbn; lia | by repeat constructor]).
  - destruct (nonEmpty (Some (fades data))), (nonEmpty (moves data));
      injection Hc as <-; (split; [cbn; lia | by repeat constructor]).
Qed.

Lemma computeAnimation_shape newRootRef (matchResult : list (string * Match ref))
    context st st' result :
  computeAnimation newRootRef matchResult context st = Some (st', result) →
  match result with
  | inl r => r = newRootRef
  | inr a => animationFor newRootRef context a
  end.
Proof.
  unfold computeAnimation. intros Hc.
  destruct (computeLoop newRootRef (forIn matchResult) st emptyAnimationData)
    as [[st1 data]|]; [|done]. simpl in Hc.
  destruct (createAnimations data newRootRef context st1) as [l|] eqn:E; [|done].
  simpl in Hc. apply createAnimations_shape in E as [Hlen Hall].
  destruct l as [|a [|b l]]; simplify_eq.
  - done.
  - rewrite Forall_singleton in Hall. destruct a; first [exact Hall | destruct Hall].
  - simpl. split; [done|]. split; [done|]. split; [|done]. simpl in *. lia.
Qed.

(** X15. What a pass returns: the new root it was given, or an animation on
    that root in the context it was given, which is a fade, a move or a
    resize animation or a compound of two or three of them, never a nested
    compound; a fade is constructed with the flag [true], a move and a
    resize with [false].  It never returns the old root, and it starts an
    animation only when the action asks for one and the two roots have the
    same identifier. *)
Theorem performUpdate_result (a : @UpdateModelAction num) oldRootRef newRootRef
    context st st' result :
  performUpdate a oldRootRef newRootRef context st = Some (st', result) →
  match result with
  | ResultRoot r => r = newRootRef
  | ResultStarted animation =>
      animationFor newRootRef context animation ∧
      animate a = Some true ∧
      id <$> st !! oldRootRef = id <$> st !! newRootRef
  end.
Proof.
  unfold performUpdate. intros Hp.
  destruct (st !! oldRootRef) as [o|]; [|done].
  destruct (st !! newRootRef) as [n|]; [|done]. simpl in Hp.
  destruct (bool_decide (animate a = Some true)) eqn:Ha;
    [|simpl in Hp; by simplify_eq].
  destruct (bool_decide (id o = id n)) eqn:Hid; [|simpl in Hp; by simplify_eq].
  simpl in Hp. apply bool_decide_eq_true_1 in Ha, Hid.
  destruct (match matches a with
            | Some ms => convertToMatchResult ms oldRootRef newRootRef st
            | None => ModelMatcher_match st oldRootRef newRootRef
            end) as [matchResult|]; [|done]. simpl in Hp.
  destruct (computeAnimation newRootRef matchResult context st)
    as [[st1 [r|an]]|] eqn:E; simpl in Hp; simplify_eq;
    apply computeAnimation_shape in E; [done|].
  simpl. by rewrite Hid.
Qed.

Lemma performUpdate_kept {A} (proj : @SModelElement num → A)
    (a : @UpdateModelAction num) oldRootRef newRootRef context st st' result :
  kept_by_updates proj →
  (∀ v e, proj (set_opacity v e) = proj e) →
  (∀ v e, proj (set_children v e) = proj e) →
  (∀ v e, proj (set_index v e) = proj e) →
  performUpdate a oldRootRef newRootRef context st = Some (st', result) →
  kept proj st st'.
Proof.
  intros Hu Ho Hc Hi Hp. unfold performUpdate in Hp.
  destruct (st !! oldRootRef) as [o|]; [|done].
  destruct (st !! newRootRef) as [n|]; [|done]. simpl in Hp.
  destruct (bool_decide (animate a = Some true) && bool_decide (id o = id n)).
  - destruct (match matches a with
              | Some ms => convertToMatchResult ms oldRootRef newRootRef st
              | None => ModelMatcher_match st oldRootRef newRootRef
              end) as [matchResult|]; [|done]. simpl in Hp.
    destruct (computeAnimation newRootRef matchResult context st)
      as [[st1 r]|] eqn:E; [|done]. simpl in Hp.
    assert (st1 = st') as -> by (destruct r; by simplify_eq).
    apply computeAnimation_loop in E as [data E].
    by eapply computeLoop_kept.
  - simplify_eq. apply kept_alter. intros e. apply Hu.
Qed.

(** X16. A pass never deletes an object and never changes what an object is
    or where it is attached: every object that the store holds before
    [performUpdate] is held after it with the same class, type tag,
    identifier and parent.  What a pass attaches or re-parents are objects
    of its own making. *)
Theorem performUpdate_keeps_placement (a : @UpdateModelAction num) oldRootRef newRootRef
    context st st' result :
  performUpdate a oldRootRef newRootRef context st = Some (st', result) →
  ∀ k e, st !! k = Some e →
    ∃ e', st' !! k = Some e' ∧ placement e' = placement e.
Proof.
  intros Hp.
  by apply (performUpdate_kept placement a oldRootRef newRootRef context st st' result
              placement_kept_by_updates).
Qed.

(** ** What [execute] records, and undoing an update that is not animated *)

(** The root that the factory makes. *)
Lemma createRoot_root (s : @SModelElementSchema num) st st1 n :
  createRoot s st = (st1, n) →
  st !! n = None ∧
  ∃ ne, st1 !! n = Some ne ∧ instanceofSModelRoot (cls ne) = true ∧
        id ne = schema_id s ∧ props ne = schema_props s ∧ parent ne = None.
Proof.
  intros Hc. unfold createRoot in Hc. cbv zeta in Hc.
  pose proof (fresh_lookup_None st) as Hr.
  remember (fresh (dom st)) as r eqn:Er. clear Er.
  remember (newElement _ s) as new eqn:Enew.
  destruct (createChildren r (schema_children s) (<[r := new]> st)) as [st2 kids] eqn:E2.
  injection Hc as <- <-. split; [done|].
  assert (Hall : Forall (λ s, ∀ st st' g, createElement s st = (st', g) →
                   created s st st' g) (schema_children s)).
  { apply Forall_forall. intros k _. apply createElement_created. }
  destruct (createChildren_grows r _ Hall _ _ _ E2) as [[He2 _] _].
  eexists. rewrite !lookup_alter_eq, (He2 r new) by apply lookup_insert_eq.
  split; [done|]. subst new. destruct s as [ty i p l]. simpl.
  split; [|done]. by destruct (_ && _).
Qed.

Lemma root_not_child (c : ElementClass) :
  instanceofSModelRoot c = true → instanceofSChildElement c = false.
Proof. by destruct c. Qed.

(** The two steps of [execute]: the new root is built from fresh objects,
    then the pass runs. *)
Lemma execute_inv (c : @UpdateModelCommand num) context st st' c' result :
  execute c context st = Some (st', c', result) →
  ∃ st1 n ne,
    isolated st st1 ∧ st !! n = None ∧
    st1 !! n = Some ne ∧ instanceofSModelRoot (cls ne) = true ∧ parent ne = None ∧
    Some (id ne) = match action_newRoot (action c) with
                   | Some s => Some (schema_id s)
                   | None => id <$> st !! root context
                   end ∧
    performUpdate (action c) (root context) n context st1 = Some (st', result) ∧
    c' = {| action := action c; oldRoot := Some (root context); newRoot := Some n |}.
Proof.
  unfold execute. intros He.
  destruct (match action_newRoot (action c) with
            | Some s => Some (createRoot s st)
            | None =>
                cr ← st !! root context;
                let '(st0, n) := createRoot (asSchema (size st) st cr) st in
                match matches (action c) with
                | Some ms => st' ← applyMatches n ms st0; Some (st', n)
                | None => Some (st0, n)
                end
            end) as [[st1 n]|] eqn:E1; [|done]. simpl in He.
  destruct (performUpdate (action c) (root context) n context st1)
    as [[st2 res]|] eqn:E2; [|done]. simpl in He. simplify_eq.
  destruct (action_newRoot (action c)) as [s|].
  - simplify_eq. destruct (createRoot s st) as [st1' n'] eqn:Ec. simplify_eq.
    destruct (createRoot_isolated st _ _ _ _ (isolated_refl st) Ec) as [Hiso _].
    destruct (createRoot_root _ _ _ _ Ec) as (Hn & ne & Hne & Hcls & Hid & _ & Hpar).
    exists st1, n, ne. rewrite Hid. by do 7 (split; [done|]).
  - destruct (st !! root context) as [cr|]; [|done]. simpl in E1.
    destruct (createRoot (asSchema (size st) st cr) st) as [st0 n0] eqn:Ec.
    destruct (createRoot_isolated st _ _ _ _ (isolated_refl st) Ec) as [Hiso0 Hn0].
    destruct (createRoot_root _ _ _ _ Ec) as (Hn & ne & Hne & Hcls & Hid & _ & Hpar).
    rewrite asSchema_id in Hid.
    destruct (matches (action c)) as [ms|].
    + destruct (applyMatches n0 ms st0) as [st0'|] eqn:Ea; [|done]. simpl in E1.
      simplify_eq.
      destruct (applyMatches_restructured _ _ _ _ Ea _ _ Hne) as (ne' & Hne' & Hc' & Hp').
      unfold content in Hc'.
      exists st1, n, ne'. split; [by eapply applyMatches_isolated|].
      split; [done|]. split; [done|].
      split; [by replace (cls ne') with (cls ne) by congruence|].
      split; [rewrite Hp'; [done | by apply root_not_child]|].
      split; [simpl; f_equal; congruence|]. done.
    + simplify_eq. exists st1, n, ne. simpl. rewrite Hid. by do 7 (split; [done|]).
Qed.

(** X17. What [execute] leaves behind: every object that the store held is
    exactly as it was, so that the old tree is an unmodified snapshot; the
    command records the context root as the old root and, as the new root, an
    object that did not exist before.  The new root is a root without a
    parent; it has the identifier of the schema of the action or, without
    one, of the context root.  The result is the new root or an animation on
    the new root. *)
Theorem execute_snapshot (c : @UpdateModelCommand num) context st st' c' result :
  execute c context st = Some (st', c', result) →
  extends st st' ∧
  action c' = action c ∧ oldRoot c' = Some (root context) ∧
  ∃ n ne,
    newRoot c' = Some n ∧ st !! n = None ∧ st' !! n = Some ne ∧
    instanceofSModelRoot (cls ne) = true ∧ parent ne = None ∧
    Some (id ne) = match action_newRoot (action c) with
                   | Some s => Some (schema_id s)
                   | None => id <$> st !! root context
                   end ∧
    match result with
    | ResultRoot r => r = n
    | ResultStarted animation => animationFor n context animation
    end.
Proof.
  intros He. split; [by eapply execute_extends|].
  apply execute_inv in He
    as (st1 & n & ne & Hiso & Hn & Hne & Hcls & Hpar & Hid & Hp & ->).
  split; [done|]. split; [done|].
  destruct (performUpdate_kept placement _ _ _ _ _ _ _ placement_kept_by_updates
              ltac:(done) ltac:(done) ltac:(done) Hp n ne Hne) as (ne' & Hne' & Hpl).
  unfold placement in Hpl.
  exists n, ne'. split; [done|]. split; [done|]. split; [done|].
  split; [by replace (cls ne') with (cls ne) by congruence|].
  split; [congruence|].
  split; [rewrite <- Hid; f_equal; congruence|].
  unfold performUpdate in Hp.
  destruct (st1 !! root context) as [o|]; [|done]. rewrite Hne in Hp. simpl in Hp.
  destruct (bool_decide (animate (action c) = Some true) && bool_decide (id o = id ne)).
  - destruct (match matches (action c) with
              | Some ms => convertToMatchResult ms (root context) n st1
              | None => ModelMatcher_match st1 (root context) n
              end) as [matchResult|]; [|done]. simpl in Hp.
    destruct (computeAnimation n matchResult context st1)
      as [[st2 [r|an]]|] eqn:E; simpl in Hp; simplify_eq;
      by apply computeAnimation_shape in E.
  - by simplify_eq.
Qed.

(** X18. Undoing and redoing an update that was not animated: when the
    action does not ask for an animation, or gives a schema whose identifier
    differs from that of the context root, [execute] returns the new root;
    after it [undo] returns the old root and [redo] the new root, and neither
    changes the store. *)
Theorem execute_undo_redo (c : @UpdateModelCommand num) context st st' c' result :
  execute c context st = Some (st', c', result) →
  animate (action c) ≠ Some true ∨
    (∃ s o, action_newRoot (action c) = Some s ∧ st !! root context = Some o ∧
            schema_id s ≠ id o) →
  ∃ n, newRoot c' = Some n ∧ result = ResultRoot n ∧
       undo c' context st' = Some (st', ResultRoot (root context)) ∧
       redo c' context st' = Some (st', ResultRoot n).
Proof.
  intros He Hcase.
  apply execute_inv in He
    as (st1 & n & ne & [Hext _] & Hn & Hne & Hcls & Hpar & Hid & Hp & ->).
  destruct (st1 !! root context) as [o|] eqn:Ho;
    [|unfold performUpdate in Hp; by rewrite Ho in Hp].
  set (c' := {| action := action c; oldRoot := Some (root context); newRoot := Some n |}).
  destruct (instantaneous_undo_redo c' context st1 (root context) n o ne)
    as (stx & Hp' & Hundo & Hredo); [done..| |].
  { destruct Hcase as [Ha|(s & o' & Hs & Ho' & Hne')]; [by left|]. right.
    rewrite Hs in Hid. rewrite (Hext _ _ Ho') in Ho. congruence. }
  simpl in Hp'. rewrite Hp in Hp'. simplify_eq. by exists n.
Qed.

(** ** Removals that queue no fade *)

(** X20. A removal is passed over in silence: for a match with only an old
    element, when that element is not a child element, is not Fadeable,
    comes without a parent identifier, or has an identifier that the index of
    the new root still holds (the element was matched elsewhere), the step
    leaves the store and the animation data as they are: no copy is made and
    no fade-out is queued. *)
Theorem computeStep_skips newRootRef (m : Match ref) st data l le :
  left m = Some l → right m = None → st !! l = Some le →
  instanceofSChildElement (cls le) = false ∨ isFadeable le = false ∨
    leftParentId m = None ∨
    (∃ nr k, st !! newRootRef = Some nr ∧ index nr !! id le = Some k) →
  computeStep newRootRef m st data = Some (st, data).
Proof.
  intros Hl Hr Hle Hcase. unfold computeStep. rewrite Hl, Hr, Hle. simpl.
  destruct (instanceofSChildElement (cls le)); [|done].
  destruct (isFadeable le); [|done].
  destruct (leftParentId m) as [pid|]; [|done].
  destruct Hcase as [?|[?|[?|(nr & k & Hnr & Hk)]]]; [done..|].
  rewrite Hnr. simpl. by rewrite Hk.
Qed.

End Properties.

(** ** Event listeners on a VNode (claim C9) *)

Section VNodeProperties.
Context {Listener : Type}.

(** The test [if (on[event])] by cases: an own entry, an inherited name,
    neither. *)
Lemma on_unfold (vnode : VNode Listener) (event : string)
    (listener : Listener) (element : ref) :
  on vnode event listener element =
    let '(v, d, o) := getOn vnode in
    match o !! event with
    | Some _ =>
        Thrown v ("EventListener for " +:+ event +:+ " already registered on VNode")
    | None =>
        if inheritedName event
        then Thrown v ("EventListener for " +:+ event +:+ " already registered on VNode")
        else Returned (set_data_on (<[event := ListenerWithArgs listener element]> o) v d)
    end.
Proof.
  unfold on. destruct (getOn vnode) as [[v d] o].
  destruct (o !! event) as [x|].
  - rewrite bool_decide_eq_true_2; [done|by eexists].
  - rewrite bool_decide_eq_false_2; [done|]. by intros [? ?].
Qed.

(** C9. When the node already has an entry for the event, [on] throws and
    leaves the node as it is: the entry is neither replaced nor is the call
    silently ignored.  When it has none, [on] returns, the node then holds
    the new listener with its element for that event, and the entries for
    all other events are as before; but for an event whose name a plain
    object inherits from [Object.prototype], where the test finds the
    inherited value: then [on] throws as well and registers nothing. *)
Theorem on_duplicate_throws (vnode : VNode Listener) (event : string)
    (listener : Listener) (element : ref) :
  match registered vnode event with
  | Some _ =>
      on vnode event listener element =
        Thrown vnode ("EventListener for " +:+ event +:+ " already registered on VNode")
  | None =>
      ∃ vnode',
        (∀ event', event' ≠ event → registered vnode' event' = registered vnode event') ∧
        if inheritedName event
        then on vnode event listener element =
               Thrown vnode' ("EventListener for " +:+ event +:+
                              " already registered on VNode") ∧
             registered vnode' event = None
        else on vnode event listener element = Returned vnode' ∧
             registered vnode' event = Some (ListenerWithArgs listener element)
  end.
Proof.
  rewrite on_unfold. unfold registered, getOn, getData.
  destruct vnode as [s [[da dc [o|]]|]]; simpl.
  - destruct (o !! event) eqn:E; [done|].
    destruct (inheritedName event); eexists; (split; [|split; [done|]]); simpl.
    + done.
    + done.
    + intros event' Hne. by rewrite lookup_insert_ne.
    + by rewrite lookup_insert_eq.
  - rewrite lookup_empty.
    destruct (inheritedName event); eexists; (split; [|split; [done|]]); simpl.
    + intros event' _. by rewrite lookup_empty.
    + by rewrite lookup_empty.
    + intros event' Hne. by rewrite lookup_insert_ne, lookup_empty.
    + by rewrite lookup_insert_eq.
  - rewrite lookup_empty.
    destruct (inheritedName event); eexists; (split; [|split; [done|]]); simpl.
    + intros event' _. by rewrite lookup_empty.
    + by rewrite lookup_empty.
    + intros event' Hne. by rewrite lookup_insert_ne, lookup_empty.
    + by rewrite lookup_insert_eq.
Qed.

(** ** Attributes and classes of a VNode *)

Implicit Types (vnode source target : VNode Listener).

Lemma assignProperty_lookup {V} (name : string) (value : V) (o : gmap string V) name' :
  assignProperty name value o !! name' =
    if decide (name' = name)
    then (if decide (name = "__proto__" ∧ o !! name = None) then None else Some value)
    else o !! name'.
Proof.
  unfold assignProperty. destruct (decide (name' = name)) as [->|Hne].
  - destruct (o !! name) as [x|] eqn:E.
    + rewrite lookup_insert_eq, decide_False; [done|]. by intros [_ ?].
    + destruct (decide (name = "__proto__")) as [Hp|Hp].
      * by rewrite E, decide_True.
      * rewrite lookup_insert_eq, decide_False; [done|]. by intros [? _].
  - destruct (o !! name); [by rewrite lookup_insert_ne|].
    destruct (decide (name = "__proto__")); [done|by rewrite lookup_insert_ne].
Qed.

Lemma assignProperty_lookup_eq {V} (name : string) (value : V) (o : gmap string V) :
  assignProperty name value o !! name =
    if decide (name = "__proto__" ∧ o !! name = None) then None else Some value.
Proof. by rewrite assignProperty_lookup, decide_True. Qed.

Lemma assignProperty_lookup_ne {V} (name : string) (value : V) (o : gmap string V) name' :
  name' ≠ name → assignProperty name value o !! name' = o !! name'.
Proof. intros Hne. by rewrite assignProperty_lookup, decide_False. Qed.

Lemma assignProperty_commute {V} (a b : string) (x y : V) (o : gmap string V) :
  a ≠ b →
  assignProperty a x (assignProperty b y o) = assignProperty b y (assignProperty a x o).
Proof.
  intros Hne. apply map_eq. intros k.
  destruct (decide (k = a)) as [->|Ha]; [|destruct (decide (k = b)) as [->|Hb]].
  - rewrite assignProperty_lookup_eq, (assignProperty_lookup_ne b) by done.
    by rewrite (assignProperty_lookup_ne b), assignProperty_lookup_eq by done.
  - rewrite (assignProperty_lookup_ne a) by done.
    rewrite !assignProperty_lookup_eq. by rewrite (assignProperty_lookup_ne a) by done.
  - by rewrite !assignProperty_lookup_ne by done.
Qed.

Lemma assignProperty_twice {V} (a : string) (x : V) (o : gmap string V) :
  assignProperty a x (assignProperty a x o) = assignProperty a x o.
Proof.
  apply map_eq. intros k. destruct (decide (k = a)) as [->|Ha].
  - rewrite !assignProperty_lookup_eq.
    destruct (decide (a = "__proto__" ∧ o !! a = None)) as [[Hp Hn]|Hn].
    + by rewrite decide_True.
    + rewrite decide_False; [done|]. by intros [_ ?].
  - by rewrite !assignProperty_lookup_ne by done.
Qed.

Lemma setAttr_attrOf vnode (name value : string) name' :
  attrOf (setAttr vnode name value) name' =
    if decide (name' = name)
    then (if decide (name = "__proto__" ∧ attrOf vnode name = None)
          then None else Some value)
    else attrOf vnode name'.
Proof.
  unfold setAttr, getAttrs, getData, attrOf.
  destruct vnode as [s [[[a|] c o]|]]; simpl; rewrite assignProperty_lookup; done.
Qed.

Lemma setAttr_frame vnode (name value : string) :
  (∀ c, classOf (setAttr vnode name value) c = classOf vnode c) ∧
  (∀ event, registered (setAttr vnode name value) event = registered vnode event) ∧
  sel (setAttr vnode name value) = sel vnode.
Proof.
  unfold setAttr, getAttrs, getData, classOf, registered.
  by destruct vnode as [s [[[a|] c o]|]].
Qed.

(** X1. [setAttr] makes the attribute read back the value it was given and
    leaves every other attribute, every class and every listener of the node
    as it was; a node without [data] or without [data.attrs] gets them.  The
    one name that does not read back is [__proto__], on a node that has no
    own attribute of that name: the assignment is then ignored. *)
Theorem setAttr_lookup vnode (name value : string) :
  attrOf (setAttr vnode name value) name =
    (if decide (name = "__proto__" ∧ attrOf vnode name = None)
     then None else Some value) ∧
  (∀ name', name' ≠ name → attrOf (setAttr vnode name value) name' = attrOf vnode name') ∧
  (∀ c, classOf (setAttr vnode name value) c = classOf vnode c) ∧
  (∀ event, registered (setAttr vnode name value) event = registered vnode event) ∧
  sel (setAttr vnode name value) = sel vnode.
Proof.
  split; [|split; [|apply setAttr_frame]].
  - by rewrite setAttr_attrOf, decide_True.
  - intros name' Hne. by rewrite setAttr_attrOf, decide_False.
Qed.

Lemma setClass_classOf vnode (name : string) (value : bool) name' :
  classOf (setClass vnode name value) name' =
    if decide (name' = name)
    then (if decide (name = "__proto__" ∧ classOf vnode name = None)
          then None else Some value)
    else classOf vnode name'.
Proof.
  unfold setClass, getClass, getData, classOf.
  destruct vnode as [s [[a [c|] o]|]]; simpl; rewrite assignProperty_lookup; done.
Qed.

Lemma setClass_frame vnode (name : string) (value : bool) :
  (∀ a, attrOf (setClass vnode name value) a = attrOf vnode a) ∧
  (∀ event, registered (setClass vnode name value) event = registered vnode event) ∧
  sel (setClass vnode name value) = sel vnode.
Proof.
  unfold setClass, getClass, getData, attrOf, registered.
  by destruct vnode as [s [[a [c|] o]|]].
Qed.

(** X2. [setClass] makes the class read back the flag it was given and
    leaves every other class, every attribute and every listener of the node
    as it was.  The one name that does not read back is [__proto__], on a
    node that has no own class of that name: the assignment is then
    ignored. *)
Theorem setClass_lookup vnode (name : string) (value : bool) :
  classOf (setClass vnode name value) name =
    (if decide (name = "__proto__" ∧ classOf vnode name = None)
     then None else Some value) ∧
  (∀ name', name' ≠ name → classOf (setClass vnode name value) name' = classOf vnode name') ∧
  (∀ a, attrOf (setClass vnode name value) a = attrOf vnode a) ∧
  (∀ event, registered (setClass vnode name value) event = registered vnode event) ∧
  sel (setClass vnode name value) = sel vnode.
Proof.
  split; [|split; [|apply setClass_frame]].
  - by rewrite setClass_classOf, decide_True.
  - intros name' Hne. by rewrite setClass_classOf, decide_False.
Qed.

(** X3. Attributes, classes and listeners are independent parts of a node:
    [setAttr] and [setClass] give the same node in either order, and [on]
    ends the same way, returning or throwing, whether an attribute or a
    class is set before it or after it. *)
Theorem setAttr_setClass_on_commute vnode (name value cname : string) (flag : bool)
    (event : string) (listener : Listener) (element : ref) :
  setClass (setAttr vnode name value) cname flag =
    setAttr (setClass vnode cname flag) name value ∧
  on (setAttr vnode name value) event listener element =
    mapCompletion (λ v, setAttr v name value) (on vnode event listener element) ∧
  on (setClass vnode cname flag) event listener element =
    mapCompletion (λ v, setClass v cname flag) (on vnode event listener element).
Proof.
  rewrite !on_unfold.
  unfold setAttr, setClass, getAttrs, getClass, getOn, getData.
  destruct vnode as [s [[[a|] [c|] [o|]]|]]; simpl;
    rewrite ?lookup_empty; repeat split; try done;
    first [ destruct (o !! event); [done|]; by destruct (inheritedName event)
          | by destruct (inheritedName event) ].
Qed.

Lemma copy_classOf (l : list string) target c :
  classOf (foldl (λ t c, setClass t c true) target l) c =
    if decide (c ∈ l)
    then (if decide (c = "__proto__" ∧ classOf target c = None) then None else Some true)
    else classOf target c.
Proof.
  revert target. induction l as [|c' l IH]; intros target.
  - rewrite decide_False; [done|]. apply not_elem_of_nil.
  - cbn [foldl]. rewrite IH.
    assert (Hiff : (c = "__proto__" ∧ classOf (setClass target c' true) c = None) ↔
                   (c = "__proto__" ∧ classOf target c = None)).
    { rewrite setClass_classOf. destruct (decide (c = c')) as [->|Hne]; [|done].
      destruct (decide (c' = "__proto__" ∧ classOf target c' = None)) as [[Hp Hn]|Hn];
        [done|]. split; [by intros [_ ?] | intros Hc; by destruct Hn]. }
    rewrite (decide_ext _ _ _ _ Hiff).
    destruct (decide (c ∈ l)) as [Hl|Hl].
    + by rewrite (decide_True (P := c ∈ c' :: l)) by by right.
    + rewrite setClass_classOf. destruct (decide (c = c')) as [->|Hne].
      * by rewrite (decide_True (P := c' ∈ c' :: l)) by by left.
      * rewrite (decide_False (P := c ∈ c' :: l)); [done|].
        rewrite elem_of_cons. by intros [?|?].
Qed.

Lemma copy_frame (l : list string) target :
  (∀ a, attrOf (foldl (λ t c, setClass t c true) target l) a = attrOf target a) ∧
  (∀ event, registered (foldl (λ t c, setClass t c true) target l) event =
            registered target event) ∧
  sel (foldl (λ t c, setClass t c true) target l) = sel target.
Proof.
  revert target. induction l as [|c' l IH]; intros target; simpl; [done|].
  destruct (IH (setClass target c' true)) as (Ha & Ho & Hs).
  destruct (setClass_frame target c' true) as (Ha' & Ho' & Hs').
  split; [|split].
  - intros a. by rewrite Ha.
  - intros event. by rewrite Ho.
  - by rewrite Hs.
Qed.

Lemma setClass_true_commute target (a b : string) :
  setClass (setClass target a true) b true = setClass (setClass target b true) a true.
Proof.
  destruct (decide (a = b)) as [->|Hne]; [done|].
  unfold setClass, getClass, getData.
  destruct target as [s [[at' [c|] o]|]]; simpl; unfold set_data_class; simpl;
    do 4 f_equal; by apply assignProperty_commute.
Qed.

Lemma copy_Permutation (l l' : list string) target :
  l ≡ₚ l' →
  foldl (λ t c, setClass t c true) target l = foldl (λ t c, setClass t c true) target l'.
Proof.
  intros Hp. revert target. induction Hp; intros target; simpl.
  - done.
  - apply IHHp.
  - by rewrite setClass_true_commute.
  - by rewrite IHHp1.
Qed.

Lemma setClass_true_twice target (a : string) :
  setClass (setClass target a true) a true = setClass target a true.
Proof.
  unfold setClass, getClass, getData.
  destruct target as [s [[at' [c|] o]|]]; simpl; unfold set_data_class; simpl;
    do 4 f_equal; by apply assignProperty_twice.
Qed.

Lemma copy_setClass (l : list string) target (a : string) :
  foldl (λ t c, setClass t c true) (setClass target a true) l =
    setClass (foldl (λ t c, setClass t c true) target l) a true.
Proof.
  revert target. induction l as [|c l IH]; intros target; simpl; [done|].
  by rewrite <- IH, setClass_true_commute.
Qed.

Lemma copy_absorb (l : list string) target (a : string) :
  a ∈ l →
  setClass (foldl (λ t c, setClass t c true) target l) a true =
    foldl (λ t c, setClass t c true) target l.
Proof.
  revert target. induction l as [|c l IH]; intros target Hin.
  - by apply elem_of_nil in Hin.
  - apply elem_of_cons in Hin as [->|Hin]; simpl.
    + by rewrite copy_setClass, setClass_true_twice.
    + by apply IH.
Qed.

Lemma copy_again (l l' : list string) target :
  l' ⊆ l →
  foldl (λ t c, setClass t c true) (foldl (λ t c, setClass t c true) target l) l' =
    foldl (λ t c, setClass t c true) target l.
Proof.
  induction l' as [|a l' IH]; intros Hsub; simpl; [done|].
  rewrite copy_absorb; [|apply Hsub; by left].
  apply IH. intros x Hx. apply Hsub. by right.
Qed.

(** X4. [copyClassesFromVNode] turns on, in the target, every key of the
    class object of the source, also the keys whose flag in the source is
    [false]; the one exception is a key [__proto__] of the source when the
    target has no own class of that name: that assignment is ignored.  The
    other classes of the target keep their flags, and its attributes and
    listeners are untouched.  The source keeps its classes, attributes and
    listeners.  The order in which the keys are visited does not matter. *)
Theorem copyClassesFromVNode_classes source target :
  let '(source', target') := copyClassesFromVNode source target in
  (∀ c, classOf target' c =
        match classOf source c with
        | Some _ =>
            if decide (c = "__proto__" ∧ classOf target c = None)
            then None else Some true
        | None => classOf target c
        end) ∧
  (∀ a, attrOf target' a = attrOf target a) ∧
  (∀ event, registered target' event = registered target event) ∧
  (∀ c, classOf source' c = classOf source c) ∧
  (∀ a, attrOf source' a = attrOf source a) ∧
  (∀ event, registered source' event = registered source event) ∧
  (∀ keys, keys ≡ₚ (map_to_list (getClass source).2).*1 →
           foldl (λ t c, setClass t c true) target keys = target').
Proof.
  unfold copyClassesFromVNode.
  destruct (getClass source) as [[s d] classList] eqn:Hg. simpl.
  assert (Hcl : ∀ c, classList !! c = classOf source c ∧ classOf s c = classOf source c).
  { intros c. unfold getClass, getData, classOf in *.
    destruct source as [ss [[a [cl|] o]|]]; simpl in *; simplify_eq; simpl;
      by rewrite ?lookup_empty. }
  split; [|split; [|split; [|split; [|split; [|split]]]]].
  - intros c. rewrite copy_classOf. destruct (Hcl c) as [<- _].
    destruct (classList !! c) as [b|] eqn:E.
    + rewrite (decide_True (P := c ∈ _)); [done|].
      apply list_elem_of_fmap. exists (c, b). split; [done|].
      by apply elem_of_map_to_list.
    + rewrite (decide_False (P := c ∈ _)); [done|].
      intros ([c' b] & -> & Hin%elem_of_map_to_list)%list_elem_of_fmap.
      simpl in E. congruence.
  - apply copy_frame.
  - apply copy_frame.
  - intros c. apply Hcl.
  - intros a. unfold getClass, getData, attrOf in *.
    by destruct source as [ss [[a' [cl|] o]|]]; simpl in *; simplify_eq.
  - intros event. unfold getClass, getData, registered in *.
    by destruct source as [ss [[a' [cl|] o]|]]; simpl in *; simplify_eq.
  - intros keys Hp. by apply copy_Permutation.
Qed.

(** X5. [copyClassesFromElement] turns on, in the target, the tokens of the
    class list of the element; the one exception is a token [__proto__]
    when the target has no own class of that name: that assignment is
    ignored.  A class of the target that is no token keeps its flag, and the
    attributes and listeners of the target are untouched.  Order and
    repetition of the tokens do not matter. *)
Theorem copyClassesFromElement_classes (classList : list string) target :
  (∀ c, classOf (copyClassesFromElement classList target) c =
        if decide (c ∈ classList)
        then (if decide (c = "__proto__" ∧ classOf target c = None)
              then None else Some true)
        else classOf target c) ∧
  (∀ a, attrOf (copyClassesFromElement classList target) a = attrOf target a) ∧
  (∀ event, registered (copyClassesFromElement classList target) event =
            registered target event) ∧
  (∀ classList', classList' ≡ₚ classList →
     copyClassesFromElement classList' target = copyClassesFromElement classList target) ∧
  copyClassesFromElement (classList ++ classList) target =
    copyClassesFromElement classList target.
Proof.
  unfold copyClassesFromElement.
  split; [|split; [|split; [|split]]].
  - intros c. apply copy_classOf.
  - apply copy_frame.
  - apply copy_frame.
  - intros classList' Hp. by apply copy_Permutation.
  - rewrite foldl_app. by apply copy_again.
Qed.

(** X6. Listeners for two different events, neither registered yet and
    neither with a name that a plain object inherits from
    [Object.prototype], can be added in either order: both calls return, the
    node is the same at the end, it holds both listeners with their
    elements, and its attributes and classes are as before. *)
Theorem on_distinct_events vnode (event1 event2 : string)
    (listener1 listener2 : Listener) (element1 element2 : ref) :
  event1 ≠ event2 →
  registered vnode event1 = None → inheritedName event1 = false →
  registered vnode event2 = None → inheritedName event2 = false →
  ∃ v1 v2 v12,
    on vnode event1 listener1 element1 = Returned v1 ∧
    on v1 event2 listener2 element2 = Returned v12 ∧
    on vnode event2 listener2 element2 = Returned v2 ∧
    on v2 event1 listener1 element1 = Returned v12 ∧
    registered v12 event1 = Some (ListenerWithArgs listener1 element1) ∧
    registered v12 event2 = Some (ListenerWithArgs listener2 element2) ∧
    (∀ a, attrOf v12 a = attrOf vnode a) ∧
    (∀ c, classOf v12 c = classOf vnode c).
Proof.
  intros Hne H1 Hi1 H2 Hi2.
  assert (Hstep : ∀ (v : VNode Listener) event listener element,
            registered v event = None → inheritedName event = false →
            ∃ v', on v event listener element = Returned v' ∧
                  registered v' event = Some (ListenerWithArgs listener element) ∧
                  (∀ event', event' ≠ event → registered v' event' = registered v event') ∧
                  (∀ a, attrOf v' a = attrOf v a) ∧ (∀ c, classOf v' c = classOf v c) ∧
                  v' = {| sel := sel v;
                          data := Some
                            {| data_attrs := data v ≫= data_attrs;
                               data_class := data v ≫= data_class;
                               data_on := Some (<[event := ListenerWithArgs listener element]>
                                                  (default ∅ (data v ≫= data_on))) |} |}).
  { intros v event listener element Hreg Hinh. rewrite on_unfold.
    unfold registered, getOn, getData, attrOf, classOf in *.
    destruct v as [s [[a c [o|]]|]]; simpl in *; rewrite ?lookup_empty, ?Hreg, Hinh;
      eexists; (split; [done|]); simpl; rewrite lookup_insert_eq;
      (split; [done|]); (split; [|done]);
      intros event' Hne'; by rewrite lookup_insert_ne, ?lookup_empty. }
  destruct (Hstep vnode event1 listener1 element1 H1 Hi1)
    as (v1 & Hv1 & Hr11 & Hr1 & Ha1 & Hc1 & E1).
  destruct (Hstep vnode event2 listener2 element2 H2 Hi2)
    as (v2 & Hv2 & Hr22 & Hr2 & Ha2 & Hc2 & E2).
  assert (H12 : registered v1 event2 = None) by (rewrite Hr1; [done|congruence]).
  assert (H21 : registered v2 event1 = None) by by rewrite Hr2.
  destruct (Hstep v1 event2 listener2 element2 H12 Hi2)
    as (v12 & Hv12 & Hr122 & Hr12 & Ha12 & Hc12 & E12).
  destruct (Hstep v2 event1 listener1 element1 H21 Hi1)
    as (v21 & Hv21 & Hr211 & Hr21 & Ha21 & Hc21 & E21).
  assert (v21 = v12) as ->.
  { rewrite E21, E12, E2, E1. simpl. by rewrite insert_insert_ne. }
  exists v1, v2, v12. split; [done|]. split; [done|]. split; [done|]. split; [done|].
  split; [by rewrite Hr12, Hr11|]. split; [done|]. split.
  - intros a. by rewrite Ha12, Ha1.
  - intros c. by rewrite Hc12, Hc1.
Qed.

End VNodeProperties.

(** ** The set-model command *)

Section SetModelProperties.
Context {GModelRoot : Type}.

(** X19. After [execute], every [undo] returns the root that [execute] was
    called on and every [redo] returns the root of the action, whatever
    root the call is given and however the calls are interleaved; the
    command does not change.  [execute] itself returns the root of the
    action, and executing again replaces the recorded old root.  Before
    [execute] has run, [undo] and [redo] return no root. *)
Theorem SetModel_undo_redo (a : SetModel.SetModelAction GModelRoot)
    (element element' : GModelRoot) (calls : list (SetModel.Call GModelRoot)) :
  let c0 := SetModel.SetModelCommand_new a in
  let c := (SetModel.execute c0 element).1 in
  (SetModel.execute c0 element).2 = Some (SetModel.action_newRoot a) ∧
  SetModel.run calls c =
    (c, (λ call, match call with
                 | SetModel.Undo _ => Some element
                 | SetModel.Redo _ => Some (SetModel.action_newRoot a)
                 end) <$> calls) ∧
  (SetModel.execute c element').1 = (SetModel.execute c0 element').1 ∧
  SetModel.run calls c0 = (c0, (λ _, None) <$> calls).
Proof.
  intros c0 c. split; [done|]. split; [|split; [done|]].
  - induction calls as [|[e|e] calls IH]; [done|..]; simpl; by rewrite IH.
  - induction calls as [|[e|e] calls IH]; [done|..]; simpl; by rewrite IH.
Qed.

End SetModelProperties.

(** * The theorems at the example *)

Lemma updateElement_move_witness :
  ∃ st' data', updateElement 2 5 exStore emptyAnimationData = Some (st', data') ∧
    moves data' =
      Some [{| move_element := 5%positive; elementId := "n1";
               fromPosition := {| x := 0%float; y := 0%float |};
               toPosition := {| x := 10%float; y := 0%float |} |}] ∧
    position <$> st' !! 5%positive = Some (Some {| x := 0%float; y := 0%float |}).
Proof.
  exact (updateElement_move 2 5 exStore emptyAnimationData exOldN1 exNewN1
           {| x := 0%float; y := 0%float |} {| x := 10%float; y := 0%float |}
           eq_refl eq_refl eq_refl eq_refl).
Defined.

Lemma updateElement_resize_witness :
  ∃ st' data', updateElement 2 5 exStore emptyAnimationData = Some (st', data') ∧
    resizes data' = None ∧
    bounds <$> st' !! 5%positive =
      Some (Some {| bounds_x := 10%float; bounds_y := 0%float;
                    bounds_width := 10%float; bounds_height := 10%float |}).
Proof.
  exact (updateElement_resize 2 5 exStore emptyAnimationData exOldN1 exNewN1
           {| bounds_x := 0%float; bounds_y := 0%float;
              bounds_width := 10%float; bounds_height := 10%float |}
           {| bounds_x := 10%float; bounds_y := 0%float;
              bounds_width := (-1)%float; bounds_height := (-1)%float |}
           eq_refl eq_refl eq_refl eq_refl).
Defined.

Lemma computeAnimation_selection_witness :
  ∃ animations,
    computeAnimation 4 exMatchResult exContext exStore =
      Some (exCollected.1, inr (CompoundAnimation 4 exContext animations)) ∧
    length animations = 2.
Proof.
  assert (Hloop : computeLoop 4 (forIn exMatchResult) exStore emptyAnimationData
                  = Some (exCollected.1, exCollected.2))
    by (vm_compute; reflexivity).
  destruct (computeAnimation_selection 4 exMatchResult exContext exStore
              exCollected.1 exCollected.2 Hloop)
    as (result & Hc & _ & _ & Hmany).
  destruct Hmany as (animations & -> & Hlen); [vm_compute; lia|].
  exists animations. split; [exact Hc | exact Hlen].
Defined.


Lemma convertToMatchResult_keys_witness :
  ∃ result,
    convertToMatchResult [exRename] 1 4 exStore = Some result ∧
    NoDup result.*1 ∧
    (∀ i, i ∈ result.*1 ↔ ∃ m, m ∈ [exRename] ∧ directiveKey m = Some i) ∧
    (∀ i c, (i, c) ∈ result →
       ∃ m, m ∈ [exRename] ∧ directiveKey m = Some i ∧
            c = converted exOldRoot exNewRoot m) ∧
    (directivesResolve exOldRoot exNewRoot [exRename] →
       ∀ i c, (i, c) ∈ result → is_Some (left c) ∨ is_Some (right c)).
Proof.
  apply (convertToMatchResult_keys [exRename] 1 4 exStore exOldRoot exNewRoot
           eq_refl eq_refl).
  repeat constructor. discriminate.
Defined.

Lemma convertToMatchResult_counterexample :
  (∃ result, convertToMatchResult [exRename] 1 4 exStore = Some result ∧
             ¬ keysAreAllIdentifiers [exRename] result) ∧
  (∃ result, convertToMatchResult [exUnknown] 1 4 exStore = Some result ∧
             ¬ everyMatchHasASide result).
Proof.
  split.
  - eexists. split; [vm_compute; reflexivity|]. intros Hkeys.
    destruct (Hkeys "n2") as [_ Hin].
    assert (Hn2 : ∃ m s, m ∈ [exRename] ∧ (left m = Some s ∨ right m = Some s) ∧
                         schema_id s = "n2").
    { exists exRename, (exSchema "n2"). split; [by left|]. split; [by left | done]. }
    apply Hin in Hn2. simpl in Hn2.
    apply elem_of_cons in Hn2 as [Hn2|Hn2]; [discriminate|].
    by apply elem_of_nil in Hn2.
  - eexists. split; [vm_compute; reflexivity|]. intros Hside.
    destruct (Hside "n9" {| left := None; right := None;
                            leftParentId := Some "graph"; rightParentId := None |})
      as [[? Hl]|[? Hr]]; [by left | discriminate | discriminate].
Qed.

Lemma performUpdate_instantaneous_witness :
  animate (action (UpdateModelCommand_new exActionNoAnimation)) = Some false ∧
  ∃ st' n',
    performUpdate (action (UpdateModelCommand_new exActionNoAnimation)) 1 4
      exContext exStore = Some (st', ResultRoot 4%positive) ∧
    st' !! 4%positive = Some n' ∧
    canvasBounds n' = canvasBounds exOldRoot ∧
    structure n' = structure exNewRoot ∧
    position n' = position exNewRoot ∧ bounds n' = bounds exNewRoot ∧
    selected n' = selected exNewRoot ∧
    scroll n' = scroll exNewRoot ∧ zoom n' = zoom exNewRoot ∧
    ∀ k, k ≠ 4%positive → st' !! k = exStore !! k.
Proof.
  exact (performUpdate_instantaneous exActionNoAnimation 1 4 exContext exStore
           exOldRoot exNewRoot eq_refl eq_refl (or_introl eq_refl)).
Defined.

Lemma unresolved_parent_witness :
  (∃ st' element ee re',
     applyMatchRight 4 exOrphanAddition exStore = Some st' ∧
     exStore !! element = None ∧ st' !! element = Some ee ∧
     id ee = "n4" ∧ parent ee = Some 4%positive ∧
     st' !! 4%positive = Some re' ∧ children re' = [5; 6; element]%positive) ∧
  computeStep 4 exOrphanRemoval exStore emptyAnimationData =
    Some (exStore, emptyAnimationData).
Proof.
  split.
  - exact (proj1 unresolved_parent 4%positive exOrphanAddition (exSchema "n4")
             exStore exNewRoot eq_refl eq_refl (or_introl eq_refl)).
  - exact (proj2 unresolved_parent 4%positive exOrphanRemoval exStore
             emptyAnimationData 3%positive exOldN2 exNewRoot "gone"
             eq_refl eq_refl eq_refl eq_refl eq_refl (or_introl eq_refl)).
Defined.

Lemma unresolved_parent_counterexample :
  ¬ attachesAtRoot 4 exOrphanRemoval exStore emptyAnimationData.
Proof.
  intros (st' & data' & g & nr' & Hstep & Hfresh & Hroot & Hin).
  vm_compute in Hstep. injection Hstep as <- <-.
  change (exStore !! 4%positive) with (Some exNewRoot) in Hroot.
  injection Hroot as <-. simpl in Hin.
  apply elem_of_cons in Hin as [->|Hin]; [discriminate|].
  apply elem_of_cons in Hin as [->|Hin]; [discriminate|].
  by apply elem_of_nil in Hin.
Qed.

Lemma performUpdate_frame_witness :
  (∀ k e, exStore !! k = Some e → k ≠ 4%positive →
          (∀ i, index exNewRoot !! i ≠ Some k) → exUpdated.1 !! k = Some e) ∧
  (1%positive ≠ 4%positive →
   (∀ i, index exNewRoot !! i ≠ Some 1%positive) →
   (∀ i j k, index exOldRoot !! i = Some k →
             k ≠ 4%positive ∧ index exNewRoot !! j ≠ Some k) →
   exUpdated.1 !! 1%positive = Some exOldRoot ∧
   ∀ i k e, index exOldRoot !! i = Some k → exStore !! k = Some e →
            exUpdated.1 !! k = Some e).
Proof.
  assert (Hupdate : performUpdate exAction 1 4 exContext exStore
                    = Some (exUpdated.1, exUpdated.2))
    by (vm_compute; reflexivity).
  exact (performUpdate_frame exAction 1 4 exContext exStore exUpdated.1 exUpdated.2
           exOldRoot exNewRoot eq_refl eq_refl Hupdate).
Defined.

(** Registering a second listener for [click] throws; registering the first
    one on a node without [data] creates [data.on] and returns. *)
Example on_click_twice :
  on exVNode "click" 1%nat 5%positive =
    Thrown exVNode "EventListener for click already registered on VNode".
Proof. reflexivity. Qed.

Example on_click_first :
  ∃ vnode', on exBareVNode "click" 1%nat 5%positive = Returned vnode' ∧
            registered vnode' "click" = Some (ListenerWithArgs 1%nat 5%positive).
Proof. eexists. split; reflexivity. Qed.

(** [execute] on the old tree alone, with the directives that rename [n2]
    and add [n4] under an unknown parent: the three old objects are as
    before. *)
Example execute_keeps_old_tree :
  ∃ st' c' result,
    execute (UpdateModelCommand_new
               {| action_newRoot := None;
                  matches := Some [exRename; exOrphanAddition];
                  animate := None |})
            exContext
            (list_to_map [(1, exOldRoot); (2, exOldN1); (3, exOldN2)]%positive)
      = Some (st', c', result) ∧
    oldRoot c' = Some 1%positive ∧ newRoot c' = Some 4%positive ∧
    st' !! 1%positive = Some exOldRoot ∧ st' !! 2%positive = Some exOldN1 ∧
    st' !! 3%positive = Some exOldN2.
Proof.
  eexists _, _, _. split; [vm_compute; reflexivity|].
  repeat split; vm_compute; reflexivity.
Qed.

(** ** The further properties at the example *)

Lemma on_distinct_events_witness :
  ∃ v1 v2 v12,
    on exBareVNode "click" 1%nat 5%positive = Returned v1 ∧
    on v1 "mouseover" 2%nat 6%positive = Returned v12 ∧
    on exBareVNode "mouseover" 2%nat 6%positive = Returned v2 ∧
    on v2 "click" 1%nat 5%positive = Returned v12 ∧
    registered v12 "click" = Some (ListenerWithArgs 1%nat 5%positive) ∧
    registered v12 "mouseover" = Some (ListenerWithArgs 2%nat 6%positive) ∧
    (∀ a, attrOf v12 a = attrOf exBareVNode a) ∧
    (∀ c, classOf v12 c = classOf exBareVNode c).
Proof.
  apply (on_distinct_events exBareVNode "click" "mouseover" 1%nat 2%nat 5%positive 6%positive);
    [done | reflexivity | vm_compute; reflexivity | reflexivity | vm_compute; reflexivity].
Defined.

Lemma updateElement_selected_witness :
  ∃ st' data', updateElement 2 5 exStore emptyAnimationData = Some (st', data') ∧
    selected <$> st' !! 5%positive = Some (Some true).
Proof.
  exact (updateElement_selected 2 5 exStore emptyAnimationData exOldN1 exNewN1
           eq_refl eq_refl).
Defined.

Lemma updateElement_root_state_witness :
  ∃ st' data', updateElement 1 4 exStore emptyAnimationData = Some (st', data') ∧
    canvasBounds <$> st' !! 4%positive = Some (canvasBounds exOldRoot) ∧
    scroll <$> st' !! 4%positive = Some None ∧
    zoom <$> st' !! 4%positive = Some None.
Proof.
  exact (updateElement_root_state 1 4 exStore emptyAnimationData exOldRoot exNewRoot
           eq_refl eq_refl).
Defined.

Lemma updateElement_untouched_witness :
  (∀ k, k ≠ 5%positive → exPair.1 !! k = exStore !! k) ∧
  same_on structure exStore exPair.1 ∧
  fades exPair.2 = [].
Proof.
  assert (Hu : updateElement 2 5 exStore emptyAnimationData = Some (exPair.1, exPair.2))
    by (vm_compute; reflexivity).
  exact (updateElement_untouched 2 5 exStore emptyAnimationData exPair.1 exPair.2 Hu).
Defined.

Lemma computeLoop_jobs_witness :
  ∃ fs ms rs,
    fades exCollected.2 = [] ++ fs ∧
    default [] (moves exCollected.2) = [] ++ ms ∧
    default [] (resizes exCollected.2) = [] ++ rs ∧
    length fs + length ms ≤ length (forIn exMatchResult) ∧
    length fs + length rs ≤ length (forIn exMatchResult) ∧
    Forall (fadeFrom (forIn exMatchResult) exStore exCollected.1) fs ∧
    Forall (moveFrom (forIn exMatchResult) exCollected.1) ms ∧
    Forall (resizeFrom (forIn exMatchResult) exCollected.1) rs.
Proof.
  assert (Hloop : computeLoop 4 (forIn exMatchResult) exStore emptyAnimationData
                  = Some (exCollected.1, exCollected.2))
    by (vm_compute; reflexivity).
  exact (computeLoop_jobs 4 (forIn exMatchResult) exStore emptyAnimationData
           exCollected.1 exCollected.2 Hloop).
Defined.

Lemma createAnimations_maps_witness :
  (∀ i, movesMap (default [] (moves exCollected.2)) !! i =
        last (filter (λ mv, elementId mv = i) (default [] (moves exCollected.2)))) ∧
  ∃ rm, resizesMap exStore
          [{| resize_element := 5%positive;
              fromDimension := {| width := 10%float; height := 10%float |};
              toDimension := {| width := 20%float; height := 10%float |} |}] ∅ = Some rm ∧
    ∀ i, rm !! i =
      last (filter (λ rz, id <$> exStore !! resize_element rz = Some i)
              [{| resize_element := 5%positive;
                  fromDimension := {| width := 10%float; height := 10%float |};
                  toDimension := {| width := 20%float; height := 10%float |} |}]).
Proof.
  apply (createAnimations_maps exStore).
  apply Forall_singleton. exists exNewN1. reflexivity.
Defined.

Lemma convertToMatchResult_last_wins_witness :
  ∃ result,
    convertToMatchResult [exOrphanAddition; exRename; exOrphanAddition] 1 4 exStore
      = Some result ∧
    ∀ i c, (i, c) ∈ result ↔
      ∃ m, last (filter (λ m, directiveKey m = Some i)
                   [exOrphanAddition; exRename; exOrphanAddition]) = Some m ∧
           c = converted exOldRoot exNewRoot m.
Proof.
  apply (convertToMatchResult_last_wins [exOrphanAddition; exRename; exOrphanAddition]
           1 4 exStore exOldRoot exNewRoot eq_refl eq_refl).
  repeat constructor; discriminate.
Defined.

Lemma applyMatches_restructures_witness :
  ∃ e', exApplied !! 4%positive = Some e' ∧ content e' = content exNewRoot ∧
        (instanceofSChildElement (cls exNewRoot) = false → parent e' = parent exNewRoot).
Proof.
  assert (Ha : applyMatches 4 [exRename; exOrphanAddition] exStore = Some exApplied)
    by (vm_compute; reflexivity).
  exact (applyMatches_restructures 4 [exRename; exOrphanAddition] exStore exApplied Ha
           4%positive exNewRoot eq_refl).
Defined.

Lemma applyMatchRight_resolved_witness :
  ∃ st' element ee pe',
    applyMatchRight 4 exRename exStore = Some st' ∧
    exStore !! element = None ∧ st' !! element = Some ee ∧
    cls ee = SChildElementClass ∧ id ee = "n3" ∧
    props ee = schema_props (exSchema "n3") ∧
    parent ee = Some 4%positive ∧
    st' !! 4%positive = Some pe' ∧ children pe' = [5; 6; element]%positive ∧
    ∀ k e, exStore !! k = Some e → k ≠ 4%positive →
      ∃ e', st' !! k = Some e' ∧ children e' = children e.
Proof.
  exact (applyMatchRight_resolved 4 exRename (exSchema "n3") exStore exNewRoot "graph"
           4%positive exNewRoot eq_refl eq_refl eq_refl eq_refl eq_refl eq_refl).
Defined.

Lemma performUpdate_result_witness :
  match exUpdated.2 with
  | ResultRoot r => r = 4%positive
  | ResultStarted animation =>
      animationFor 4 exContext animation ∧
      animate exAction = Some true ∧
      id <$> exStore !! 1%positive = id <$> exStore !! 4%positive
  end.
Proof.
  assert (Hupdate : performUpdate exAction 1 4 exContext exStore
                    = Some (exUpdated.1, exUpdated.2))
    by (vm_compute; reflexivity).
  exact (performUpdate_result exAction 1 4 exContext exStore exUpdated.1 exUpdated.2
           Hupdate).
Defined.

Lemma performUpdate_keeps_placement_witness :
  ∃ e', exUpdated.1 !! 5%positive = Some e' ∧ placement e' = placement exNewN1.
Proof.
  assert (Hupdate : performUpdate exAction 1 4 exContext exStore
                    = Some (exUpdated.1, exUpdated.2))
    by (vm_compute; reflexivity).
  exact (performUpdate_keeps_placement exAction 1 4 exContext exStore exUpdated.1
           exUpdated.2 Hupdate 5%positive exNewN1 eq_refl).
Defined.

Lemma execute_snapshot_witness :
  extends exOldStore exExecuted.1.1 ∧
  action exExecuted.1.2 = action (UpdateModelCommand_new exDirectives) ∧
  oldRoot exExecuted.1.2 = Some 1%positive ∧
  ∃ n ne,
    newRoot exExecuted.1.2 = Some n ∧ exOldStore !! n = None ∧
    exExecuted.1.1 !! n = Some ne ∧
    instanceofSModelRoot (cls ne) = true ∧ parent ne = None ∧
    Some (id ne) = Some "graph" ∧
    match exExecuted.2 with
    | ResultRoot r => r = n
    | ResultStarted animation => animationFor n exContext animation
    end.
Proof.
  assert (He : execute (UpdateModelCommand_new exDirectives) exContext exOldStore
               = Some (exExecuted.1.1, exExecuted.1.2, exExecuted.2))
    by (vm_compute; reflexivity).
  exact (execute_snapshot (UpdateModelCommand_new exDirectives) exContext exOldStore
           exExecuted.1.1 exExecuted.1.2 exExecuted.2 He).
Defined.

Lemma execute_undo_redo_witness :
  ∃ n, newRoot exExecutedAtOnce.1.2 = Some n ∧ exExecutedAtOnce.2 = ResultRoot n ∧
       undo exExecutedAtOnce.1.2 exContext exExecutedAtOnce.1.1
         = Some (exExecutedAtOnce.1.1, ResultRoot 1%positive) ∧
       redo exExecutedAtOnce.1.2 exContext exExecutedAtOnce.1.1
         = Some (exExecutedAtOnce.1.1, ResultRoot n).
Proof.
  assert (He : execute (UpdateModelCommand_new exActionNoAnimation) exContext exOldStore
               = Some (exExecutedAtOnce.1.1, exExecutedAtOnce.1.2, exExecutedAtOnce.2))
    by (vm_compute; reflexivity).
  apply (execute_undo_redo (UpdateModelCommand_new exActionNoAnimation) exContext
           exOldStore exExecutedAtOnce.1.1 exExecutedAtOnce.1.2 exExecutedAtOnce.2 He).
  left. discriminate.
Defined.

Lemma computeStep_skips_witness :
  computeStep 4 exStaleRemoval exStore emptyAnimationData
    = Some (exStore, emptyAnimationData).
Proof.
  apply (computeStep_skips 4 exStaleRemoval exStore emptyAnimationData 2%positive exOldN1);
    [reflexivity | reflexivity | reflexivity |].
  right. right. right. exists exNewRoot, 5%positive. split; reflexivity.
Defined.

(** ** Names that a plain object treats specially *)

(** No listener is registered, and [on] throws all the same: the test
    [on[event]] finds the constructor that every plain object inherits. *)
Lemma on_inherited_name_throws :
  registered exBareVNode "constructor" = None ∧
  ∃ vnode',
    on exBareVNode "constructor" 1%nat 5%positive =
      Thrown vnode' "EventListener for constructor already registered on VNode" ∧
    registered vnode' "constructor" = None.
Proof. split; [reflexivity|]. eexists. split; reflexivity. Qed.

(** An attribute or a class named [__proto__] is not stored; any other name
    is, also one that a plain object inherits. *)
Example setAttr_proto_ignored :
  attrOf (setAttr exBareVNode "__proto__" "x") "__proto__" = None ∧
  classOf (setClass exBareVNode "__proto__" true) "__proto__" = None ∧
  attrOf (setAttr exBareVNode "constructor" "x") "constructor" = Some "x".
Proof. repeat split; vm_compute; reflexivity. Qed.

(** A directive keyed [__proto__] leaves no own property in the match
    result. *)
Example convertToMatchResult_proto :
  convertToMatchResult [exProtoAddition] 1 4 exStore = Some [] ∧
  ∃ result, convertToMatchResult [exProtoAddition; exOrphanAddition] 1 4 exStore
              = Some result ∧ result.*1 = ["n4"].
Proof. split; [vm_compute; reflexivity|]. eexists. split; vm_compute; reflexivity. Qed.
